(** * HAROS configuration builder: launch-scope resolution

    A shallow embedding of [haros/config_builder.py]: the [LaunchScope]
    class (namespace, remap, condition and parameter state of one point of
    the launch tree) and the [ConfigurationBuilder] tag dispatcher that
    walks a launch tree and fills a [Configuration].

    Python objects that are shared and mutated (dictionaries, lists, the
    configuration, topics and services) live in an explicit store; a
    method is a function from stores to a store and an outcome, the
    outcome being a value or a raised exception.  A raised exception
    keeps the store as it was when it was raised: Python rolls nothing
    back. *)

From Stdlib Require Import String Ascii.
From stdpp Require Import base option list gmap strings.


Local Open Scope list_scope.

(** ** Python strings *)

Module PyStr.

(** [s.startswith(p)] *)
Definition startswith (s p : string) : bool := String.prefix p s.

(** [s[-1]], for a non-empty [s] *)
Fixpoint last_char (s : string) : option ascii :=
  match s with
  | EmptyString => None
  | String c EmptyString => Some c
  | String _ rest => last_char rest
  end.

(** [s[-1] == c] *)
Definition ends_with_char (s : string) (c : ascii) : bool :=
  match last_char s with
  | Some d => Ascii.eqb d c
  | None => false
  end.

(** [c in s], for a one-character [c] *)
Fixpoint contains_char (c : ascii) (s : string) : bool :=
  match s with
  | EmptyString => false
  | String d rest => Ascii.eqb d c || contains_char c rest
  end.

(** [s.replace(c, by)], for a one-character [c] *)
Fixpoint replace_char (c : ascii) (by_ : string) (s : string) : string :=
  match s with
  | EmptyString => EmptyString
  | String d rest =>
      if Ascii.eqb d c then by_ +:+ replace_char c by_ rest
      else String d (replace_char c by_ rest)
  end.

(** truth value of a string: [not s] is [true] for the empty string *)
Definition truthy (s : string) : bool :=
  match s with EmptyString => false | _ => true end.

(** truth value of a string or [None] *)
Definition truthy_opt (s : option string) : bool :=
  match s with Some s => truthy s | None => false end.

(** [a or b], for [a] a string or [None] *)
Definition or_else (a : option string) (b : string) : string :=
  match a with
  | Some s => if truthy s then s else b
  | None => b
  end.

(** [s == t], for [s] a string or [None] *)
Definition opt_eqb (s : option string) (t : string) : bool :=
  match s with Some s => String.eqb s t | None => false end.

Definition lower_char (c : ascii) : ascii :=
  let n := nat_of_ascii c in
  if (65 <=? n)%nat && (n <=? 90)%nat then ascii_of_nat (n + 32) else c.

(** [s.lower()] *)
Fixpoint lower (s : string) : string :=
  match s with
  | EmptyString => EmptyString
  | String c rest => String (lower_char c) (lower rest)
  end.

Definition is_space (c : ascii) : bool :=
  let n := nat_of_ascii c in
  (n =? 32)%nat || ((9 <=? n)%nat && (n <=? 13)%nat).

Fixpoint lstrip (s : string) : string :=
  match s with
  | EmptyString => EmptyString
  | String c rest => if is_space c then lstrip rest else s
  end.

Fixpoint rstrip (s : string) : string :=
  match s with
  | EmptyString => EmptyString
  | String c rest =>
      match rstrip rest with
      | EmptyString => if is_space c then EmptyString else String c EmptyString
      | rest' => String c rest'
      end
  end.

(** [s.strip()] *)
Definition strip (s : string) : string := rstrip (lstrip s).

(** [s.rsplit(c, 1)]: [(None, s)] when [c] does not occur in [s],
    else [(Some head, tail)], split at the last [c]. *)
Fixpoint rsplit1 (c : ascii) (s : string) : option string * string :=
  match s with
  | EmptyString => (None, EmptyString)
  | String d rest =>
      match rsplit1 c rest with
      | (Some h, t) => (Some (String d h), t)
      | (None, t) =>
          if Ascii.eqb d c then (Some EmptyString, t) else (None, String d t)
      end
  end.

(** [s.split()]: the words of [s], split at runs of white space. *)
Fixpoint split_ws_aux (s : string) (word : string) : list string :=
  match s with
  | EmptyString =>
      match word with EmptyString => [] | _ => [word] end
  | String c rest =>
      if is_space c then
        match word with
        | EmptyString => split_ws_aux rest EmptyString
        | _ => word :: split_ws_aux rest EmptyString
        end
      else split_ws_aux rest (word +:+ String c EmptyString)
  end.

Definition split_ws (s : string) : list string := split_ws_aux s EmptyString.

(** [s.split(c)], for a one-character [c] *)
Fixpoint split_char_aux (c : ascii) (s : string) (word : string)
    : list string :=
  match s with
  | EmptyString => [word]
  | String d rest =>
      if Ascii.eqb d c then word :: split_char_aux c rest EmptyString
      else split_char_aux c rest (word +:+ String d EmptyString)
  end.

Definition split_char (c : ascii) (s : string) : list string :=
  split_char_aux c s EmptyString.

End PyStr.

(** ** Exceptions *)

(** The exceptions the module can raise.  [OutOfFuel] is not a Python
    exception: it marks a run of the model that was cut off by its
    recursion bound. *)
Inductive exn :=
| ConfigurationError (value : string)
| SubstitutionError (value : string)
| ValueError (msg : string)
| MarkedYAMLError (is_parser_error : bool) (msg : string)
| NameError (name : string)
| AttributeError (attr : string)
| UnboundLocalError (name : string)
| IndexError (msg : string)
| TypeError (msg : string)
| ImportError (name : string)
| AssertionError
| OutOfFuel.

Inductive outcome (A : Type) :=
| Ret (a : A)
| Raise (e : exn).
Arguments Ret {A} a.
Arguments Raise {A} e.

(** ** Values held by parameters

    The result of [yaml.load] and of [_convert_value]: a scalar, or a
    mapping from keys to values.  A mapping is kept as the list of its
    items in the order [iteritems] yields them.  A key is any scalar:
    [yaml.load] makes an integer of the key [1], a boolean of [true], a
    float of [1.5] and [None] of [~], and a string of other plain
    text. *)

Inductive scalar :=
| SNone
| SBool (b : bool)
| SInt (z : Z)
| SFloat (repr : string)
| SStr (s : string)
| SSeq (repr : string).

#[warnings="-register-all"]
Inductive yaml :=
| YLeaf (v : scalar)
| YDict (items : list (scalar * yaml)).

(** [isinstance(value, dict)] *)
Definition is_dict (v : yaml) : bool :=
  match v with YDict _ => true | YLeaf _ => false end.

Section yaml_induction.
Variable P : yaml → Prop.
Hypothesis Hleaf : ∀ v, P (YLeaf v).
Hypothesis Hdict : ∀ items, Forall (λ kv, P kv.2) items → P (YDict items).

Fixpoint yaml_nested_ind (y : yaml) : P y :=
  match y with
  | YLeaf v => Hleaf v
  | YDict items =>
      Hdict items
        ((fix go (l : list (scalar * yaml)) : Forall (λ kv, P kv.2) l :=
            match l with
            | [] => @List.Forall_nil _ _
            | kv :: l' =>
                @List.Forall_cons _ _ kv l' (yaml_nested_ind kv.2) (go l')
            end) items)
  end.
End yaml_induction.

(** ** [LaunchScope._ns_join] and [LaunchScope._unfold] *)

(** "Dumb version of name resolution to mimic ROS behaviour." *)
Definition _ns_join (name ns : string) : string :=
  if PyStr.startswith name "~" || PyStr.startswith name "/" then name
  else if String.eqb ns "~" then "~" +:+ name
  else if negb (PyStr.truthy ns) then name
  else if PyStr.ends_with_char ns "/" then ns +:+ name
  else ns +:+ "/" +:+ name.

(** Whether a key is a string, and the string it is.  For a key that
    is not a string the text is empty; no name is ever made of such a
    key, since [_ns_join] raises on it. *)
Definition is_text (key : scalar) : bool :=
  match key with SStr _ => true | _ => false end.

Definition key_text (key : scalar) : string :=
  match key with SStr s => s | _ => "" end.

(** [self._ns_join(key, ns)] for a key of a mapping: [_ns_join] begins
    with [name.startswith("~")], and of the scalars only a string has
    the attribute [startswith]. *)
Definition _ns_join_key (key : scalar) (ns : string) : outcome string :=
  match key with
  | SStr name => Ret (_ns_join name ns)
  | _ => Raise (AttributeError "startswith")
  end.

(** One entry of the work stack of [_unfold]: [(ns, key, value)]. *)
Definition unfold_frame : Type := string * scalar * yaml.

(** One entry of the result of [_unfold]: [(name, value, name == key)]. *)
Definition unfold_item : Type := string * scalar * bool.

(** The [while stack:] loop of [_unfold].  The head of [stack] is the
    element [stack.pop()] takes, that is the one appended last; [fuel]
    bounds the number of iterations. *)
Fixpoint _unfold_loop (fuel : nat) (stack : list unfold_frame)
    (result : list unfold_item) : outcome (list unfold_item) :=
  match stack with
  | [] => Ret result
  | (ns, key, value) :: stack' =>
      match fuel with
      | 0 => Raise OutOfFuel
      | S fuel' =>
          match _ns_join_key key ns with
          | Raise e => Raise e
          | Ret name =>
              match value with
              | YLeaf v =>
                  _unfold_loop fuel' stack'
                    (result ++ [(name, v, String.eqb name (key_text key))])
              | YDict items =>
                  _unfold_loop fuel'
                    (rev (map (λ kv, (name, kv.1, kv.2)) items) ++ stack')
                    result
              end
          end
      end
  end.

(** Number of nodes of a value: a bound on the iterations it takes. *)
Fixpoint yaml_size (v : yaml) : nat :=
  match v with
  | YLeaf _ => 1
  | YDict items =>
      S ((fix go (l : list (scalar * yaml)) : nat :=
            match l with
            | [] => 0
            | kv :: l' => yaml_size kv.2 + go l'
            end) items)
  end.

Definition items_size (items : list (scalar * yaml)) : nat :=
  list_sum (map (λ kv, yaml_size kv.2) items).

Definition stack_size (stack : list unfold_frame) : nat :=
  list_sum (map (λ f, yaml_size f.2) stack).

Definition _unfold (name : string) (value : yaml)
    : outcome (list unfold_item) :=
  _unfold_loop (yaml_size value) [("", SStr name, value)] [].

(** Whether every key of a value, at every depth, is a string. *)
Fixpoint string_keys (v : yaml) : bool :=
  match v with
  | YLeaf _ => true
  | YDict items =>
      (fix go (l : list (scalar * yaml)) : bool :=
         match l with
         | [] => true
         | kv :: l' => is_text kv.1 && string_keys kv.2 && go l'
         end) items
  end.

Definition stack_string_keys (stack : list unfold_frame) : bool :=
  forallb (λ f, is_text f.1.2 && string_keys f.2) stack.

(** What the loop computes for a value whose keys are strings, by
    recursion on the value: the leaves of the last item of a mapping
    come first, since it is popped first. *)
Fixpoint flatten (ns key : string) (v : yaml) : list unfold_item :=
  let name := _ns_join key ns in
  match v with
  | YLeaf s => [(name, s, String.eqb name key)]
  | YDict items =>
      (fix go (l : list (scalar * yaml)) : list unfold_item :=
         match l with
         | [] => []
         | kv :: l' => go l' ++ flatten name (key_text kv.1) kv.2
         end) items
  end.

Definition flatten_items (name : string) (items : list (scalar * yaml))
    : list unfold_item :=
  concat (rev (map (λ kv, flatten name (key_text kv.1) kv.2) items)).

Definition flatten_stack (stack : list unfold_frame) : list unfold_item :=
  concat (map (λ f, flatten f.1.1 (key_text f.1.2) f.2) stack).

(** ** The launch tree (input) *)

(** A deferred expression: the raw text of an attribute, [None] when the
    attribute is absent. *)
Definition Expr : Type := option string.

(** A tag of the launch tree, with the attributes the handlers read.
    [condition] is the pair [(polarity, expression)]. *)
#[warnings="-register-all"]
Inductive Tag := mkTag {
  tag : string;
  text : string;
  condition : bool * Expr;
  t_package : Expr;
  t_type : Expr;
  t_argv : Expr;
  t_name : Expr;
  t_namespace : Expr;
  t_file : Expr;
  t_pass_all_args : Expr;
  t_origin : Expr;
  t_target : Expr;
  t_value : Expr;
  t_textfile : option string;
  t_binfile : option string;
  t_command : Expr;
  t_substitute : Expr;
  t_default : Expr;
  children : list Tag
}.

Record LaunchFile := mkLaunchFile {
  lf_id : string;
  lf_language : string;
  lf_tree : option (list Tag);
  lf_dir_path : string;
  lf_location : string
}.

(** ** The metamodel (data model)

    The classes of [haros.metamodel] are not part of this module; what
    the builder uses of them is kept here. *)

(** Locations of shared Python objects in the store. *)
Abbreviation loc := nat (only parsing).

(** The value handed to a tag handler as its condition: [True], [False]
    or a [SourceCondition] for a conditional that could not be resolved.
    Condition lists hold [SourceCondition]s. *)
Inductive Condition :=
| CTrue
| CFalse
| SourceCondition (expression : Expr) (location : string).

(** [condition is True] *)
Definition is_True (c : Condition) : bool :=
  match c with CTrue => true | _ => false end.

(** [condition is False] *)
Definition is_False (c : Condition) : bool :=
  match c with CFalse => true | _ => false end.

(** A [RosName]: the name as given and what it resolves to. *)
Record RosName := mkRosName {
  given : option string;
  full : string;
  own : string;
  is_private : bool
}.

(** A [Parameter] of the metamodel ([Parameter] is a reserved word). *)
Record Param := mkParam {
  p_rosname : RosName;
  p_type : option string;
  p_value : yaml;
  p_node_scope : bool;
  p_conditions : list Condition
}.

(** A communication call site of a node template; its condition list is
    a shared list object. *)
Record Call := mkCall {
  c_name : option string;
  c_namespace : option string;
  c_type : string;
  c_queue_size : option nat;
  c_conditions : loc
}.

(** A node template ([Node]) of the source index. *)
Record Node := mkNode {
  node_name : string;
  node_rosname : RosName;
  advertise : list Call;
  subscribe : list Call;
  service : list Call;
  client : list Call
}.

(** A [NodeInstance]: the attributes fixed at creation.  Its lists of
    links are in the store, under [ni_id]. *)
Record NodeInstance := mkNodeInstance {
  ni_id : loc;
  ni_rosname : RosName;
  ni_node : Node;
  ni_launch : LaunchFile;
  ni_argv : option string;
  ni_remaps : loc;
  ni_conditions : list Condition
}.

(** A [Topic] or [Service] object: identity, name and type.  Its links
    and condition list are in the store, under [r_id]. *)
Record Topic := mkTopic {
  t_id : loc;
  t_rosname : RosName;
  t_msg_type : string
}.

Record Service := mkService {
  s_id : loc;
  s_rosname : RosName;
  s_srv_type : string
}.

(** [PubSubPrimitive] and [ServicePrimitive]: a link of a node instance
    to a topic or service. *)
Record PubSubPrimitive := mkPubSub {
  l_node : NodeInstance;
  l_topic : Topic;
  l_type : string;
  l_rosname : RosName;
  l_queue : option nat;
  l_conditions : loc
}.

Record ServicePrimitive := mkSrvPrim {
  sl_node : NodeInstance;
  sl_service : Service;
  sl_type : string;
  sl_rosname : RosName;
  sl_conditions : loc
}.

(** The mutable attributes of the objects. *)
Record NodeLinks := mkNodeLinks {
  publishers : list PubSubPrimitive;
  subscribers : list PubSubPrimitive;
  servers : list ServicePrimitive;
  clients : list ServicePrimitive
}.

Record TopicState := mkTopicState {
  topic_publishers : list PubSubPrimitive;
  topic_subscribers : list PubSubPrimitive;
  topic_conditions : loc
}.

Record ServiceState := mkServiceState {
  service_server : option ServicePrimitive;
  service_clients : list ServicePrimitive;
  service_conditions : loc
}.

(** The resources [_lookup_resource] looks up: anything with a
    [rosname] and a [type]. *)
Class Resource (R : Type) := {
  res_rosname : R → RosName;
  res_type : R → string
}.

#[global] Instance Topic_Resource : Resource Topic :=
  {| res_rosname := t_rosname; res_type := t_msg_type |}.

#[global] Instance Service_Resource : Resource Service :=
  {| res_rosname := s_rosname; res_type := s_srv_type |}.

(** Per-node hints: call kind to [(name, type)] pairs. *)
Record Hints := mkHints {
  h_advertise : list (string * string);
  h_subscribe : list (string * string);
  h_service : list (string * string);
  h_client : list (string * string)
}.

(** What the module takes from [haros.metamodel]. *)
Class Metamodel := {
  (** [RosName(name, ns, private_ns, remaps)] *)
  RosName_new :
    option string → option string → option string →
    option (gmap string string) → RosName;
  (** [RosName.resolve(name, ns, private_ns)] *)
  RosName_resolve : option string → string → option string → string;
  (** [Parameter.type_of(value)] *)
  Parameter_type_of : yaml → option string
}.

(** The value of a conditional expression, as [sub.resolve] returns it. *)
Inductive Value :=
| VNone
| VBool (b : bool)
| VStr (s : string).

(** A [SubstitutionParser] object: its argument dictionary is shared
    with the scope it was made for. *)
Record SubstitutionParser := mkSub {
  sub_arguments : loc;
  sub_dirname : string
}.

(** What the module takes from its environment: the expression
    evaluator, the source index, the file system, the YAML parser and
    Python's number parsing. *)
Class Environment := {
  (** [sub.resolve(expr)], given the argument bindings of [sub] *)
  resolve :
    gmap (option string) (option string) → string → Expr → outcome Value;
  (** [sub.resolve(expr, strict = True)] *)
  resolve_strict :
    gmap (option string) (option string) → string → Expr → outcome (option string);
  (** [self.sources.nodes.get], [self.sources.packages.get] and
      [self.sources.get_file] *)
  sources_nodes : string → option Node;
  sources_packages : string → bool;
  sources_get_file : option string → option LaunchFile;
  (** [open(path).read()], [None] for an [IOError] *)
  read_file : string → option string;
  (** [yaml.load] *)
  yaml_load : string → outcome yaml;
  (** [int(s)] and [float(s)], [None] for a [ValueError] *)
  python_int : string → option Z;
  python_float : string → option string;
  (** [str(e)] of the [ValueError] that [int(s)] and [float(s)] raise *)
  python_int_error : string → string;
  python_float_error : string → string;
  (** whether [import rosparam] finds the module *)
  rosparam_importable : bool;
  (** [re.match(pattern, string)] of Python's standard library: whether
      it finds a match *)
  python_re_match : string → string → bool;
  (** [self.hints] of the builder *)
  builder_hints : list (string * Hints)
}.

(** ** The store

    The shared Python objects the module mutates: list and dictionary
    objects (by location), the mutable attributes of node instances,
    topics and services (by object identity), the collections of the
    [Configuration], and the error log of the builder. *)
Record State := mkState {
  cond_lists : list (list Condition);
  remap_dicts : list (gmap string string);
  arg_dicts : list (gmap (option string) (option string));
  param_lists : list (list Param);
  node_links : list NodeLinks;
  topic_objs : list TopicState;
  service_objs : list ServiceState;
  cfg_roslaunch : list LaunchFile;
  cfg_nodes : gmap string NodeInstance;
  cfg_topics : list Topic;
  cfg_services : list Service;
  cfg_parameters : gmap string Param;
  errors : list string
}.

Definition empty_state : State :=
  mkState [] [] [] [] [] [] [] [] ∅ [] [] ∅ [].

Definition set_cond_lists (f : list (list Condition) → list (list Condition))
    (st : State) : State :=
  mkState (f (cond_lists st)) (remap_dicts st) (arg_dicts st) (param_lists st)
    (node_links st) (topic_objs st) (service_objs st) (cfg_roslaunch st)
    (cfg_nodes st) (cfg_topics st) (cfg_services st) (cfg_parameters st)
    (errors st).

Definition set_remap_dicts
    (f : list (gmap string string) → list (gmap string string))
    (st : State) : State :=
  mkState (cond_lists st) (f (remap_dicts st)) (arg_dicts st) (param_lists st)
    (node_links st) (topic_objs st) (service_objs st) (cfg_roslaunch st)
    (cfg_nodes st) (cfg_topics st) (cfg_services st) (cfg_parameters st)
    (errors st).

Definition set_arg_dicts
    (f : list (gmap (option string) (option string)) →
         list (gmap (option string) (option string)))
    (st : State) : State :=
  mkState (cond_lists st) (remap_dicts st) (f (arg_dicts st)) (param_lists st)
    (node_links st) (topic_objs st) (service_objs st) (cfg_roslaunch st)
    (cfg_nodes st) (cfg_topics st) (cfg_services st) (cfg_parameters st)
    (errors st).

Definition set_param_lists (f : list (list Param) → list (list Param))
    (st : State) : State :=
  mkState (cond_lists st) (remap_dicts st) (arg_dicts st) (f (param_lists st))
    (node_links st) (topic_objs st) (service_objs st) (cfg_roslaunch st)
    (cfg_nodes st) (cfg_topics st) (cfg_services st) (cfg_parameters st)
    (errors st).

Definition set_node_links (f : list NodeLinks → list NodeLinks)
    (st : State) : State :=
  mkState (cond_lists st) (remap_dicts st) (arg_dicts st) (param_lists st)
    (f (node_links st)) (topic_objs st) (service_objs st) (cfg_roslaunch st)
    (cfg_nodes st) (cfg_topics st) (cfg_services st) (cfg_parameters st)
    (errors st).

Definition set_topic_objs (f : list TopicState → list TopicState)
    (st : State) : State :=
  mkState (cond_lists st) (remap_dicts st) (arg_dicts st) (param_lists st)
    (node_links st) (f (topic_objs st)) (service_objs st) (cfg_roslaunch st)
    (cfg_nodes st) (cfg_topics st) (cfg_services st) (cfg_parameters st)
    (errors st).

Definition set_service_objs (f : list ServiceState → list ServiceState)
    (st : State) : State :=
  mkState (cond_lists st) (remap_dicts st) (arg_dicts st) (param_lists st)
    (node_links st) (topic_objs st) (f (service_objs st)) (cfg_roslaunch st)
    (cfg_nodes st) (cfg_topics st) (cfg_services st) (cfg_parameters st)
    (errors st).

Definition set_cfg_roslaunch (f : list LaunchFile → list LaunchFile)
    (st : State) : State :=
  mkState (cond_lists st) (remap_dicts st) (arg_dicts st) (param_lists st)
    (node_links st) (topic_objs st) (service_objs st) (f (cfg_roslaunch st))
    (cfg_nodes st) (cfg_topics st) (cfg_services st) (cfg_parameters st)
    (errors st).

Definition set_cfg_nodes
    (f : gmap string NodeInstance → gmap string NodeInstance)
    (st : State) : State :=
  mkState (cond_lists st) (remap_dicts st) (arg_dicts st) (param_lists st)
    (node_links st) (topic_objs st) (service_objs st) (cfg_roslaunch st)
    (f (cfg_nodes st)) (cfg_topics st) (cfg_services st) (cfg_parameters st)
    (errors st).

Definition set_cfg_topics (f : list Topic → list Topic) (st : State) : State :=
  mkState (cond_lists st) (remap_dicts st) (arg_dicts st) (param_lists st)
    (node_links st) (topic_objs st) (service_objs st) (cfg_roslaunch st)
    (cfg_nodes st) (f (cfg_topics st)) (cfg_services st) (cfg_parameters st)
    (errors st).

Definition set_cfg_services (f : list Service → list Service)
    (st : State) : State :=
  mkState (cond_lists st) (remap_dicts st) (arg_dicts st) (param_lists st)
    (node_links st) (topic_objs st) (service_objs st) (cfg_roslaunch st)
    (cfg_nodes st) (cfg_topics st) (f (cfg_services st)) (cfg_parameters st)
    (errors st).

Definition set_cfg_parameters
    (f : gmap string Param → gmap string Param) (st : State) : State :=
  mkState (cond_lists st) (remap_dicts st) (arg_dicts st) (param_lists st)
    (node_links st) (topic_objs st) (service_objs st) (cfg_roslaunch st)
    (cfg_nodes st) (cfg_topics st) (cfg_services st) (f (cfg_parameters st))
    (errors st).

Definition set_errors (f : list string → list string) (st : State) : State :=
  mkState (cond_lists st) (remap_dicts st) (arg_dicts st) (param_lists st)
    (node_links st) (topic_objs st) (service_objs st) (cfg_roslaunch st)
    (cfg_nodes st) (cfg_topics st) (cfg_services st) (cfg_parameters st)
    (f (errors st)).

(** ** Methods: state and exceptions *)

Definition M (A : Type) : Type := State → State * outcome A.

#[global] Instance M_ret : MRet M := λ A a st, (st, Ret a).

#[global] Instance M_bind : MBind M := λ A B f m st,
  match m st with
  | (st', Ret a) => f a st'
  | (st', Raise e) => (st', Raise e)
  end.

Definition raise {A : Type} (e : exn) : M A := λ st, (st, Raise e).

Definition gets {A : Type} (f : State → A) : M A := λ st, (st, Ret (f st)).

Definition modify (f : State → State) : M unit := λ st, (f st, Ret tt).

(** An outcome computed outside the store. *)
Definition lift {A : Type} (o : outcome A) : M A := λ st, (st, o).

(** [try: body except <caught> as e: handler(e)] *)
Definition try_except {A : Type} (body : M A)
    (handler : exn → option (M A)) : M A := λ st,
  match body st with
  | (st', Ret a) => (st', Ret a)
  | (st', Raise e) =>
      match handler e with
      | Some h => h st'
      | None => (st', Raise e)
      end
  end.

(** [for x in xs: body(x)] *)
Fixpoint for_each {A : Type} (xs : list A) (body : A → M unit) : M unit :=
  match xs with
  | [] => mret tt
  | x :: rest => body x ;; for_each rest body
  end.

(** A new object in a heap of objects: its location is the next free one. *)
Definition new_cond_list (l : list Condition) : M loc := λ st,
  (set_cond_lists (λ h, h ++ [l]) st, Ret (length (cond_lists st))).

Definition new_remap_dict (d : gmap string string) : M loc := λ st,
  (set_remap_dicts (λ h, h ++ [d]) st, Ret (length (remap_dicts st))).

Definition new_arg_dict (d : gmap (option string) (option string)) : M loc := λ st,
  (set_arg_dicts (λ h, h ++ [d]) st, Ret (length (arg_dicts st))).

Definition new_param_list (l : list Param) : M loc := λ st,
  (set_param_lists (λ h, h ++ [l]) st, Ret (length (param_lists st))).

(** Reading an object. *)
Definition read_conds (l : loc) : M (list Condition) :=
  gets (λ st, default [] (cond_lists st !! l)).

Definition read_remaps (l : loc) : M (gmap string string) :=
  gets (λ st, default ∅ (remap_dicts st !! l)).

Definition read_args (l : loc) : M (gmap (option string) (option string)) :=
  gets (λ st, default ∅ (arg_dicts st !! l)).

Definition read_params (l : loc) : M (list Param) :=
  gets (λ st, default [] (param_lists st !! l)).

(** [lst.extend(xs)] and [lst.append(x)], in place. *)
Definition extend_conds (l : loc) (xs : list Condition) : M unit :=
  modify (set_cond_lists (alter (λ old, old ++ xs) l)).

Definition append_param (l : loc) (p : Param) : M unit :=
  modify (set_param_lists (alter (λ old, old ++ [p]) l)).

(** [d[k] = v], in place. *)
Definition remap_setitem (l : loc) (k v : string) : M unit :=
  modify (set_remap_dicts (alter (λ d, <[k := v]> d) l)).

Definition arg_setitem (l : loc) (k v : option string) : M unit :=
  modify (set_arg_dicts (alter (λ d, <[k := v]> d) l)).

(** [self.errors.append(msg)] *)
Definition append_error (msg : string) : M unit :=
  modify (set_errors (λ es, es ++ [msg])).

(** ** Collections of the configuration

    Modelled from the spec: the collection classes of the configuration
    are not part of this module.  "Each collection is keyed by
    fully-resolved name; a name maps to at most one entity of each
    kind."  [add] under a name already present replaces the entity. *)

Definition collection_get {R : Type} `{Resource R} (coll : list R)
    (name : string) : option R :=
  List.find (λ r, String.eqb (full (res_rosname r)) name) coll.

Definition collection_add {R : Type} `{Resource R} (r : R) (coll : list R)
    : list R :=
  let name := full (res_rosname r) in
  match collection_get coll name with
  | Some _ =>
      map (λ x, if String.eqb (full (res_rosname x)) name then r else x) coll
  | None => coll ++ [r]
  end.

(** [self.configuration.nodes.add(instance)]: returns the previous one. *)
Definition nodes_add (instance : NodeInstance) : M (option NodeInstance) := λ st,
  (set_cfg_nodes (λ ns, <[full (ni_rosname instance) := instance]> ns) st,
   Ret (cfg_nodes st !! full (ni_rosname instance))).

(** [self.configuration.parameters.add(param)] *)
Definition parameters_add (param : Param) : M unit :=
  modify (set_cfg_parameters (λ ps, <[full (p_rosname param) := param]> ps)).

(** A hints dictionary of [_make_comm_hints]: [d[k] = v]. *)
Fixpoint dict_set {V : Type} (k : string) (v : V) (d : list (string * V))
    : list (string * V) :=
  match d with
  | [] => [(k, v)]
  | (k', v') :: rest =>
      if String.eqb k' k then (k, v) :: rest else (k', v') :: dict_set k v rest
  end.

(** ** The module's global names

    [re] is used by [_lookup_resource] and [config] by [_condition], and
    neither is bound in the module: its imports are [namedtuple], [os],
    [yaml], the lazily imported [rosparam], and the names taken from
    [launch_parser] and [metamodel]. *)
Definition module_globals : list string :=
  [ "namedtuple"; "os"; "yaml"; "rosparam";
    "SubstitutionError"; "SubstitutionParser";
    "Node"; "Configuration"; "RosName"; "NodeInstance"; "Parameter";
    "Topic"; "Service"; "PubSubPrimitive"; "ServicePrimitive";
    "SourceCondition";
    "LaunchScope"; "ConfigurationError"; "ConfigurationHints";
    "ConfigurationBuilder" ].

(** Evaluating a global name. *)
Definition global_name (name : string) : M unit :=
  if bool_decide (name ∈ module_globals) then mret tt
  else raise (NameError name).

(** The attributes [LaunchScope.__init__] sets and the methods of the
    class: evaluating [self.<attr>] for anything else raises. *)
Definition LaunchScope_attributes : list string :=
  [ "parent"; "children"; "configuration"; "launch_file"; "namespace";
    "node"; "remaps"; "parameters"; "arguments"; "conditions"; "_params";
    "private_ns"; "child"; "remap"; "make_node"; "make_params";
    "make_rosparam"; "remove_param"; "_namespace"; "make_topics";
    "make_services"; "_make_topic_link"; "_make_service_link";
    "_lookup_resource"; "_convert_value"; "_yaml_param"; "_unfold";
    "_ns_join"; "_resolve_ns"; "_update_topic_conditions";
    "_update_service_conditions"; "TempParam" ].

Definition ConfigurationBuilder_attributes : list string :=
  [ "configuration"; "sources"; "errors"; "hints"; "add_launch";
    "_analyse_tree"; "_default_hints"; "_node_tag"; "_include_tag";
    "_remap_tag"; "_param_tag"; "_rosparam_tag"; "_group_tag"; "_arg_tag";
    "_env_tag"; "_machine_tag"; "_test_tag"; "_condition"; "_get_node";
    "_make_comm_hints"; "_make_comm_hint" ].

(** [getattr(obj, attr)] on an object with the attributes [attrs]. *)
Definition getattr (attrs : list string) (attr : string) : M unit :=
  if bool_decide (attr ∈ attrs) then mret tt
  else raise (AttributeError attr).

(** ** [LaunchScope] *)

(** A [LaunchScope] object.  [remaps], [parameters], [arguments] and
    [_params] are the locations of the dictionary and list objects the
    scope refers to; several scopes may refer to the same object.  The
    list [conditions] is built before the scope (or the node instance it
    is shared with) is handed out and is never changed afterwards, so
    the scope holds its contents.  [parent] and [children] are not read
    by any method other than [__init__], which reads [parent._params]. *)
Record LaunchScope := mkLaunchScope {
  launch_file : LaunchFile;
  namespace : string;
  node : option NodeInstance;
  remaps : loc;
  parameters : loc;
  arguments : loc;
  conditions : list Condition;
  _params : loc
}.

(** [conditions.append(condition)] unless [condition is True] *)
Definition with_condition (conds : list Condition) (c : Condition)
    : list Condition :=
  if is_True c then conds else conds ++ [c].

Section LaunchScope.
Context `{Metamodel} `{Environment}.

Definition private_ns (self : LaunchScope) : string :=
  match node self with
  | Some n => full (ni_rosname n)
  | None => namespace self
  end.

Definition LaunchScope_init (parent : option LaunchScope)
    (launch : LaunchFile) (ns : string) (node : option NodeInstance)
    (remaps params args : option loc)
    (conditions : option (list Condition)) : M LaunchScope :=
  remaps ← match remaps with
           | Some r => mret r
           | None => new_remap_dict ∅
           end;
  params ← match params with
           | Some p => mret p
           | None => new_param_list []
           end;
  args ← match args with
         | Some a => mret a
         | None => new_arg_dict ∅
         end;
  staged ← match parent with
           | Some p => ps ← read_params (_params p); new_param_list ps
           | None => new_param_list []
           end;
  mret (mkLaunchScope launch ns node remaps params args
          (default [] conditions) staged).

Definition _namespace (self : LaunchScope) (ns : option string)
    (private : bool) : string :=
  let pns := private_ns self in
  if negb (PyStr.truthy_opt ns) then
    if negb private then namespace self else pns
  else if private then RosName_resolve ns pns (Some pns)
  else RosName_resolve ns (namespace self) None.

Definition child (self : LaunchScope) (ns : option string)
    (condition : Condition) (launch : option LaunchFile)
    (args : option loc) : M LaunchScope :=
  let launch := default (launch_file self) launch in
  copied ← read_remaps (remaps self);
  r ← new_remap_dict copied;
  new ← LaunchScope_init (Some self) launch (_namespace self ns false) None
          (Some r) (Some (parameters self))
          (Some (default (arguments self) args))
          (Some (with_condition (conditions self) condition));
  mret new.

Definition remap (self : LaunchScope) (source target : option string)
    : M unit :=
  let pns := private_ns self in
  let source := RosName_resolve source (namespace self) (Some pns) in
  let target := RosName_resolve target (namespace self) (Some pns) in
  remap_setitem (remaps self) source target.

(** [NodeInstance(...)]: a new object with empty lists of links. *)
Definition new_NodeInstance (rosname : RosName) (node : Node)
    (launch : LaunchFile) (argv : option string) (remaps : loc)
    (conditions : list Condition) : M NodeInstance := λ st,
  (set_node_links (λ h, h ++ [mkNodeLinks [] [] [] []]) st,
   Ret (mkNodeInstance (length (node_links st)) rosname node launch argv
          remaps conditions)).

Definition make_node (self : LaunchScope) (node : Node)
    (name ns args : option string) (condition : Condition)
    : M LaunchScope :=
  let ns := _namespace self ns false in
  let name := if PyStr.truthy_opt name then name
              else Some (own (node_rosname node)) in
  let rosname := RosName_new name (Some ns) (Some (private_ns self)) None in
  copied ← read_remaps (remaps self);
  r ← new_remap_dict copied;
  instance ← new_NodeInstance rosname node (launch_file self) args r
               (with_condition (conditions self) condition);
  _ ← nodes_add instance;
  new_scope ← LaunchScope_init (Some self) (launch_file self) ns
                (Some instance) (Some (ni_remaps instance))
                (Some (parameters self)) (Some (arguments self))
                (Some (ni_conditions instance));
  let pns := private_ns new_scope in
  staged ← read_params (_params self);
  for_each staged (λ param,
    let rosname := RosName_new (given (p_rosname param)) (Some pns)
                     (Some pns) None in
    let conditions := p_conditions param ++ ni_conditions instance in
    append_param (parameters self)
      (mkParam rosname (p_type param) (p_value param)
         (p_node_scope param) conditions)) ;;
  mret new_scope.

(** [_convert_value]: "as seen in roslaunch code, sans a few details" *)
Definition convert_bool (value : string) (ptype : string) : outcome yaml :=
  let value := PyStr.strip (PyStr.lower value) in
  if String.eqb value "true" || String.eqb value "1" then
    Ret (YLeaf (SBool true))
  else if String.eqb value "false" || String.eqb value "0" then
    Ret (YLeaf (SBool false))
  else Raise (ValueError (value +:+ " is not a '" +:+ ptype +:+ "' type")).

Definition _convert_value (value : string) (ptype : option string)
    : outcome yaml :=
  match ptype with
  | None =>
      let number :=
        if PyStr.contains_char "." value
        then (λ r, YLeaf (SFloat r)) <$> python_float value
        else (λ z, YLeaf (SInt z)) <$> python_int value in
      match number with
      | Some v => Ret v
      | None =>
          let lval := PyStr.lower value in
          if String.eqb lval "true" || String.eqb lval "false" then
            convert_bool value "bool"
          else Ret (YLeaf (SStr value))
      end
  | Some ptype =>
      if String.eqb ptype "str" || String.eqb ptype "string" then
        Ret (YLeaf (SStr value))
      else if String.eqb ptype "int" then
        match python_int value with
        | Some z => Ret (YLeaf (SInt z))
        | None => Raise (ValueError (python_int_error value))
        end
      else if String.eqb ptype "double" then
        match python_float value with
        | Some r => Ret (YLeaf (SFloat r))
        | None => Raise (ValueError (python_float_error value))
        end
      else if String.eqb ptype "bool" || String.eqb ptype "boolean" then
        convert_bool value ptype
      else if String.eqb ptype "yaml" then
        match yaml_load value with
        | Raise (MarkedYAMLError true msg) => Raise (ValueError msg)
        | o => o
        end
      else Raise (ValueError ("Unknown type '" +:+ ptype +:+ "'"))
  end.

Definition _yaml_param (self : LaunchScope) (name : string) (value : yaml)
    (conditions : list Condition) (private : bool) : M unit :=
  let private := private && PyStr.startswith name "~" in
  let pns := private_ns self in
  let node_scope := bool_decide (is_Some (node self)) in
  items ← lift (_unfold name value);
  for_each items (λ '(name, value, _),
    let independent :=
      PyStr.startswith name "/" || PyStr.startswith name "~" in
    let rosname :=
      if independent && PyStr.startswith name "~" then
        RosName_new (Some name) (Some "/roslaunch") (Some "/roslaunch") None
      else RosName_new (Some name) (Some pns) (Some pns) None in
    let param := mkParam rosname None (YLeaf value) node_scope conditions in
    if independent || negb private then
      append_param (parameters self) param
    else append_param (_params self) param).

Definition make_params (self : LaunchScope) (name ptype value : option string)
    (condition : Condition) : M unit :=
  '(value, ptype) ←
    match value with
    | Some v =>
        value ← lift (_convert_value v ptype);
        mret (value, Parameter_type_of value)
    | None => mret (YLeaf SNone, ptype)
    end;
  let conditions := with_condition (conditions self) condition in
  if PyStr.opt_eqb ptype "yaml" || is_dict value then
    match name with
    | Some name => _yaml_param self name value conditions true
    | None => raise (AttributeError "startswith")
    end
  else
    let rosname :=
      RosName_new name (Some (private_ns self)) (Some (private_ns self))
        None in
    let param :=
      mkParam rosname ptype value (bool_decide (is_Some (node self)))
        conditions in
    if negb (bool_decide (is_Some (node self))) && is_private rosname then
      append_param (_params self) param
    else append_param (parameters self) param.

(** [global rosparam; if rosparam is None: import rosparam].  The
    module starts with [rosparam = None].  The import binds the name,
    after which the test fails and nothing is imported again, or it
    raises [ImportError] and the name stays [None], so that every call
    raises alike. *)
Definition import_rosparam : M unit :=
  if rosparam_importable then mret tt else raise (ImportError "rosparam").

Definition make_rosparam (self : LaunchScope) (name ns : option string)
    (value : string) (condition : Condition) : M unit :=
  import_rosparam ;;
  value ← try_except (lift (yaml_load value))
            (λ e, match e with
                  | MarkedYAMLError _ msg =>
                      Some (raise (ConfigurationError msg))
                  | _ => None
                  end);
  let ns := _ns_join (PyStr.or_else ns (private_ns self)) (private_ns self) in
  name ← (if PyStr.truthy_opt name then
            mret (_ns_join (default "" name) ns)
          else if negb (is_dict value) then
            raise (ConfigurationError
                     "'param' attribute must be set for non-dictionary values")
          else mret ns);
  let conditions := with_condition (conditions self) condition in
  _yaml_param self name value conditions false.

Definition remove_param (self : LaunchScope) (name ns : option string)
    (condition : Condition) : M unit :=
  let ns := _ns_join (PyStr.or_else ns (private_ns self)) (private_ns self) in
  let name := RosName_resolve name ns (Some "/rosparam") in
  param ← gets (λ st, cfg_parameters st !! name);
  match param with
  | None => raise (ConfigurationError ("missing parameter: " +:+ name))
  | Some _ =>
      if negb (is_True condition)
         || negb (bool_decide (conditions self = [])) then mret tt
      else
        getattr LaunchScope_attributes "resources" ;;
        raise (AttributeError "deleted_params")
  end.

Definition _resolve_ns (self : LaunchScope) (ns : option string) : string :=
  if negb (PyStr.truthy_opt ns) then namespace self
  else if PyStr.opt_eqb ns "~" then private_ns self
  else RosName_resolve ns (namespace self) (Some (private_ns self)).
End LaunchScope.

(** *** Topics, services and their links *)

Section LaunchScope_links.
Context `{Metamodel} `{Environment}.

(** [Topic(...)] and [Service(...)]: a new object, with empty lists of
    links and an empty condition list of its own. *)
Definition new_Topic (rosname : RosName) (message_type : string) : M Topic :=
  c ← new_cond_list [];
  ((λ st, (set_topic_objs (λ h, h ++ [mkTopicState [] [] c]) st,
           Ret (mkTopic (length (topic_objs st)) rosname message_type)))
     : M Topic).

Definition new_Service (rosname : RosName) (message_type : string)
    : M Service :=
  c ← new_cond_list [];
  ((λ st, (set_service_objs (λ h, h ++ [mkServiceState None [] c]) st,
           Ret (mkService (length (service_objs st)) rosname message_type)))
     : M Service).

Definition topic_state (t : Topic) : M TopicState :=
  gets (λ st, default (mkTopicState [] [] 0) (topic_objs st !! t_id t)).

Definition service_state (s : Service) : M ServiceState :=
  gets (λ st, default (mkServiceState None [] 0) (service_objs st !! s_id s)).

Definition modify_topic (t : Topic) (f : TopicState → TopicState) : M unit :=
  modify (set_topic_objs (alter f (t_id t))).

Definition modify_service (s : Service) (f : ServiceState → ServiceState)
    : M unit :=
  modify (set_service_objs (alter f (s_id s))).

Definition modify_node_links (n : NodeInstance) (f : NodeLinks → NodeLinks)
    : M unit :=
  modify (set_node_links (alter f (ni_id n))).

(** [re.match(pattern, string)]: the global name [re] is evaluated
    first. *)
Definition re_match (pattern string_ : string) : M bool :=
  global_name "re" ;;
  mret (python_re_match pattern string_).

(** One of the two [for] loops of [_lookup_resource], over the pairs
    [(rosname, resource)]: [inl resource] when the loop returns
    [resource], [inr candidate] when it runs to its end. *)
Fixpoint lookup_scan {R : Type} `{Resource R}
    (matcher : string → string → M bool) (pattern type : string)
    (entries : list (string * R)) (candidate : option R)
    : M (R + option R) :=
  match entries with
  | [] => mret (inr candidate : R + option R)
  | (rosname, resource) :: rest =>
      matched ← matcher pattern rosname;
      if (matched : bool) then
        if String.eqb (res_type resource) type then
          mret (inl resource : R + option R)
        else
          lookup_scan matcher pattern type rest
            (match candidate with
             | None => Some resource
             | Some c => Some c
             end)
      else lookup_scan matcher pattern type rest candidate
  end.

Definition lookup_with {R : Type} `{Resource R}
    (matcher : string → string → M bool) (name type : string)
    (collection : list R) (hints : list (string * R)) : M (option R) :=
  if negb (PyStr.contains_char "?" name) then
    mret (collection_get collection name)
  else
    let pattern := PyStr.replace_char "?" "(?:.+?)" name +:+ "$" in
    r ← lookup_scan matcher pattern type hints None;
    match r with
    | inl resource => mret (Some resource)
    | inr candidate =>
        r ← lookup_scan matcher pattern type
              (map (λ resource, (full (res_rosname resource), resource))
                 collection)
              candidate;
        match r with
        | inl resource => mret (Some resource)
        | inr candidate => mret candidate
        end
    end.

Definition _lookup_resource {R : Type} `{Resource R} (name type : string)
    (collection : list R) (hints : list (string * R)) : M (option R) :=
  lookup_with re_match name type collection hints.

Definition _make_topic_link (self : LaunchScope) (inst : NodeInstance)
    (name ns : option string) (pns : string) (type : string)
    (queue : option nat) (conditions : loc)
    (hints : list (string * Topic)) : M PubSubPrimitive :=
  node_remaps ← read_remaps (ni_remaps inst);
  let rosname :=
    RosName_new name (Some (_resolve_ns self ns)) (Some pns)
      (Some node_remaps) in
  collection ← gets cfg_topics;
  found ← _lookup_resource (full rosname) type collection hints;
  topic ← match found with
          | Some topic => mret topic
          | None => new_Topic rosname type
          end;
  collection ← gets cfg_topics;
  match collection_get collection (full (t_rosname topic)) with
  | None => modify (set_cfg_topics (collection_add topic))
  | Some _ => mret tt
  end ;;
  mret (mkPubSub inst topic type
          (RosName_new name (Some (PyStr.or_else ns (namespace self)))
             (Some pns) None)
          queue conditions).

Definition _make_service_link (self : LaunchScope) (inst : NodeInstance)
    (name ns : option string) (pns : string) (type : string)
    (conditions : loc) (hints : list (string * Service))
    : M ServicePrimitive :=
  node_remaps ← read_remaps (ni_remaps inst);
  let rosname :=
    RosName_new name (Some (_resolve_ns self ns)) (Some pns)
      (Some node_remaps) in
  collection ← gets cfg_services;
  found ← _lookup_resource (full rosname) type collection hints;
  service ← match found with
            | Some service => mret service
            | None => new_Service rosname type
            end;
  collection ← gets cfg_services;
  match collection_get collection (full (s_rosname service)) with
  | None => modify (set_cfg_services (collection_add service))
  | Some _ => mret tt
  end ;;
  mret (mkSrvPrim inst service type
          (RosName_new name (Some (PyStr.or_else ns (namespace self)))
             (Some pns) None)
          conditions).

(** The loop over links of [_update_topic_conditions] and
    [_update_service_conditions].  [get] and [set] read and assign
    the attribute [conditions] of the topic or service; a link is
    given by [link.node.conditions] and the location of
    [link.conditions].  The loop ends at the first link whose node has
    no conditions ([break]). *)
Fixpoint update_conditions_loop (get : M loc) (set : loc → M unit)
    (links : list (list Condition * loc)) : M unit :=
  match links with
  | [] => mret tt
  | (node_conditions, link_conditions) :: rest =>
      if bool_decide (node_conditions = []) then set link_conditions
      else
        c ← get;
        extend_conds c node_conditions ;;
        c ← get;
        own_conditions ← read_conds link_conditions;
        extend_conds c own_conditions ;;
        update_conditions_loop get set rest
  end.

Definition pubsub_conditions (link : PubSubPrimitive)
    : list Condition * loc :=
  (ni_conditions (l_node link), l_conditions link).

Definition srv_conditions (link : ServicePrimitive)
    : list Condition * loc :=
  (ni_conditions (sl_node link), sl_conditions link).

Definition _update_topic_conditions (topic : Topic) : M unit :=
  let get := ts ← topic_state topic; mret (topic_conditions ts) in
  let set := λ c, modify_topic topic (λ ts,
               mkTopicState (topic_publishers ts) (topic_subscribers ts) c) in
  fresh ← new_cond_list [];
  set fresh ;;
  ts ← topic_state topic;
  update_conditions_loop get set
    (map pubsub_conditions (topic_publishers ts)) ;;
  ts ← topic_state topic;
  update_conditions_loop get set
    (map pubsub_conditions (topic_subscribers ts)).

Definition _update_service_conditions (service : Service) : M unit :=
  let get := ss ← service_state service; mret (service_conditions ss) in
  let set := λ c, modify_service service (λ ss,
               mkServiceState (service_server ss) (service_clients ss) c) in
  fresh ← new_cond_list [];
  set fresh ;;
  ss ← service_state service;
  match service_server ss with
  | Some link =>
      if bool_decide (ni_conditions (sl_node link) = []) then
        set (sl_conditions link)
      else
        c ← get;
        extend_conds c (ni_conditions (sl_node link)) ;;
        c ← get;
        own_conditions ← read_conds (sl_conditions link);
        extend_conds c own_conditions
  | None => mret tt
  end ;;
  ss ← service_state service;
  update_conditions_loop get set
    (map srv_conditions (service_clients ss)).

Definition make_topics (self : LaunchScope)
    (hints : option (list (string * Topic))) : M unit :=
  match node self with
  | None => raise AssertionError
  | Some inst =>
      let pns := private_ns self in
      let hints := default [] hints in
      for_each (advertise (ni_node inst)) (λ call,
        link ← _make_topic_link self inst (c_name call) (c_namespace call)
                 pns (c_type call) (c_queue_size call) (c_conditions call)
                 hints;
        modify_node_links inst (λ nl,
          mkNodeLinks (publishers nl ++ [link]) (subscribers nl)
            (servers nl) (clients nl)) ;;
        modify_topic (l_topic link) (λ ts,
          mkTopicState (topic_publishers ts ++ [link])
            (topic_subscribers ts) (topic_conditions ts)) ;;
        _update_topic_conditions (l_topic link)) ;;
      for_each (subscribe (ni_node inst)) (λ call,
        link ← _make_topic_link self inst (c_name call) (c_namespace call)
                 pns (c_type call) (c_queue_size call) (c_conditions call)
                 hints;
        modify_node_links inst (λ nl,
          mkNodeLinks (publishers nl) (subscribers nl ++ [link])
            (servers nl) (clients nl)) ;;
        modify_topic (l_topic link) (λ ts,
          mkTopicState (topic_publishers ts)
            (topic_subscribers ts ++ [link]) (topic_conditions ts)) ;;
        _update_topic_conditions (l_topic link))
  end.

Definition make_services (self : LaunchScope)
    (hints : option (list (string * Service))) : M unit :=
  match node self with
  | None => raise AssertionError
  | Some inst =>
      let pns := private_ns self in
      let hints := default [] hints in
      for_each (service (ni_node inst)) (λ call,
        link ← _make_service_link self inst (c_name call)
                 (c_namespace call) pns (c_type call) (c_conditions call)
                 hints;
        modify_node_links inst (λ nl,
          mkNodeLinks (publishers nl) (subscribers nl)
            (servers nl ++ [link]) (clients nl)) ;;
        modify_service (sl_service link) (λ ss,
          mkServiceState (Some link) (service_clients ss)
            (service_conditions ss)) ;;
        _update_service_conditions (sl_service link)) ;;
      for_each (client (ni_node inst)) (λ call,
        link ← _make_service_link self inst (c_name call)
                 (c_namespace call) pns (c_type call) (c_conditions call)
                 hints;
        modify_node_links inst (λ nl,
          mkNodeLinks (publishers nl) (subscribers nl) (servers nl)
            (clients nl ++ [link])) ;;
        modify_service (sl_service link) (λ ss,
          mkServiceState (service_server ss) (service_clients ss ++ [link])
            (service_conditions ss)) ;;
        _update_service_conditions (sl_service link))
  end.
End LaunchScope_links.

(** ** [ConfigurationBuilder] *)

Section ConfigurationBuilder.
Context `{Metamodel} `{Environment}.

(** [sub.resolve(expr)] and [sub.resolve(expr, strict = True)] *)
Definition sub_resolve (sub : SubstitutionParser) (e : Expr) : M Value :=
  args ← read_args (sub_arguments sub);
  lift (resolve args (sub_dirname sub) e).

Definition sub_resolve_strict (sub : SubstitutionParser) (e : Expr)
    : M (option string) :=
  args ← read_args (sub_arguments sub);
  lift (resolve_strict args (sub_dirname sub) e).

(** [assert not tag.children] *)
Definition assert_no_children (t : Tag) : M unit :=
  match children t with
  | [] => mret tt
  | _ :: _ => raise AssertionError
  end.

(** [prefix + s], for [s] a string or [None] *)
Definition concat_str (prefix : string) (s : option string) : M string :=
  match s with
  | Some s => mret (prefix +:+ s)
  | None => raise (TypeError "cannot concatenate 'str' and 'NoneType' objects")
  end.

Definition _condition (condition : bool * Expr) (sub : SubstitutionParser)
    : M Condition :=
  value ← sub_resolve sub condition.2;
  match value with
  | VNone =>
      (* not sure if tag is part of the configuration *)
      global_name "config" ;;
      files ← gets cfg_roslaunch;
      match last files with
      | Some file => mret (SourceCondition condition.2 (lf_location file))
      | None => raise (IndexError "list index out of range")
      end
  | VBool b =>
      if Bool.eqb b condition.1 then
        (* tag is part of the configuration *)
        mret CTrue
      else
        (* tag is not part of the configuration *)
        mret CFalse
  | VStr _ => mret CFalse
  end.

Definition _get_node (pkg exe : string) (args : option string) : M Node :=
  '(pkg, exe) ←
    (if String.eqb exe "nodelet" then
       if negb (PyStr.truthy_opt args) then
         raise (ConfigurationError "nodelet without args")
       else
         let args := PyStr.split_ws (default "" args) in
         match args with
         | [] => raise (IndexError "list index out of range")
         | first :: _ =>
             if String.eqb first "load" || String.eqb first "standalone"
             then
               if (length args <? 3)%nat then
                 raise (ConfigurationError "nodelet load: too few arguments")
               else
                 match PyStr.split_char "/" (default "" (args !! 1%nat)) with
                 | [p; e] => mret (p, e)
                 | _ => raise (ValueError "wrong number of values to unpack")
                 end
             else mret (pkg, exe)
         end
     else mret (pkg, exe));
  let node := sources_nodes ("node:" +:+ pkg +:+ "/" +:+ exe) in
  let package := sources_packages ("package:" +:+ pkg) in
  if negb package then
    raise (ConfigurationError ("cannot find package: " +:+ pkg))
  else
    match node with
    | Some node => mret node
    | None =>
        mret (mkNode exe (RosName_new (Some "?") None None None) [] [] [] [])
    end.

(** The [RosName] of [_make_comm_hint]. *)
Definition comm_hint_rosname (name pns : string) (scope : LaunchScope)
    : M RosName :=
  let '(head, name) := PyStr.rsplit1 "/" name in
  let ns := default "/" head in
  match node scope with
  | None => raise (AttributeError "remaps")
  | Some inst =>
      node_remaps ← read_remaps (ni_remaps inst);
      mret (RosName_new (Some name) (Some (_resolve_ns scope (Some ns)))
              (Some pns) (Some node_remaps))
  end.

Fixpoint topic_hints (entries : list (string * string)) (pns : string)
    (scope : LaunchScope) (topics : list (string * Topic))
    : M (list (string * Topic)) :=
  match entries with
  | [] => mret topics
  | (name, type) :: rest =>
      rosname ← comm_hint_rosname name pns scope;
      topic ← new_Topic rosname type;
      topic_hints rest pns scope (dict_set (full (t_rosname topic)) topic topics)
  end.

Fixpoint service_hints (entries : list (string * string)) (pns : string)
    (scope : LaunchScope) (services : list (string * Service))
    : M (list (string * Service)) :=
  match entries with
  | [] => mret services
  | (name, type) :: rest =>
      rosname ← comm_hint_rosname name pns scope;
      service ← new_Service rosname type;
      service_hints rest pns scope
        (dict_set (full (s_rosname service)) service services)
  end.

Definition _make_comm_hints (hints : Hints) (scope : LaunchScope)
    : M (list (string * Topic) * list (string * Service)) :=
  let pns := private_ns scope in
  topics ← topic_hints (h_advertise hints) pns scope [];
  topics ← topic_hints (h_subscribe hints) pns scope topics;
  services ← service_hints (h_service hints) pns scope [];
  services ← service_hints (h_client hints) pns scope services;
  mret (topics, services).

Definition _default_hints : Hints := mkHints [] [] [] [].

Definition hints_get (name : string) : Hints :=
  match List.find (λ kv, String.eqb kv.1 name) builder_hints with
  | Some kv => kv.2
  | None => _default_hints
  end.

(** The handlers take [analyse], the recursive call
    [self._analyse_tree(tree, scope, sub)] on the children of [tree]. *)
Section handlers.
Variable analyse : list Tag → LaunchScope → SubstitutionParser → M unit.

Definition _node_tag (t : Tag) (condition : Condition)
    (scope : LaunchScope) (sub : SubstitutionParser) : M unit :=
  pkg ← sub_resolve_strict sub (t_package t);
  exe ← sub_resolve_strict sub (t_type t);
  args ← sub_resolve_strict sub (t_argv t);
  if negb (PyStr.truthy_opt pkg) || negb (PyStr.truthy_opt exe) then
    raise (ConfigurationError "node tag is missing pkg or type")
  else
    node ← _get_node (default "" pkg) (default "" exe) args;
    name ← sub_resolve_strict sub (t_name t);
    ns ← sub_resolve_strict sub (t_namespace t);
    new_scope ← make_node scope node name ns args condition;
    analyse (children t) new_scope sub ;;
    let hints := hints_get (private_ns new_scope) in
    '(topics, services) ← _make_comm_hints hints new_scope;
    make_topics new_scope (Some topics) ;;
    make_services new_scope (Some services) ;;
    getattr ConfigurationBuilder_attributes "_make_missing_links".

Definition _include_tag (t : Tag) (condition : Condition)
    (scope : LaunchScope) (sub : SubstitutionParser) : M unit :=
  filepath ← sub_resolve_strict sub (t_file t);
  ns ← sub_resolve_strict sub (t_namespace t);
  pass_all_args ← sub_resolve_strict sub (t_pass_all_args t);
  match sources_get_file filepath with
  | None =>
      msg ← concat_str "cannot find launch file: " filepath;
      raise (ConfigurationError msg)
  | Some launch =>
      match lf_tree launch with
      | None =>
          raise (ConfigurationError ("missing parse tree: " +:+ lf_id launch))
      | Some tree =>
          args ← (if PyStr.truthy_opt pass_all_args then
                    current ← read_args (arguments scope);
                    new_arg_dict current
                  else new_arg_dict ∅);
          new_scope ← child scope ns condition (Some launch) (Some args);
          (* define child args in the new scope *)
          analyse (children t) new_scope sub ;;
          let new_sub := mkSub args (lf_dir_path launch) in
          analyse tree new_scope new_sub
      end
  end.

Definition _remap_tag (t : Tag) (condition : Condition)
    (scope : LaunchScope) (sub : SubstitutionParser) : M unit :=
  assert_no_children t ;;
  if negb (is_True condition) then
    append_error "cannot resolve conditional remap"
  else
    origin ← sub_resolve_strict sub (t_origin t);
    target ← sub_resolve_strict sub (t_target t);
    remap scope origin target.

Definition _param_tag (t : Tag) (condition : Condition)
    (scope : LaunchScope) (sub : SubstitutionParser) : M unit :=
  assert_no_children t ;;
  name ← sub_resolve_strict sub (t_name t);
  ptype ← sub_resolve_strict sub (t_type t);
  value ←
    match t_value t, t_textfile t, t_binfile t, t_command t with
    | Some v, _, _, _ => mret (Some (Some v))
    | None, Some path, _, _ =>
        match read_file path with
        | Some contents => mret (Some (Some contents))
        | None => raise (ConfigurationError ("cannot read file: " +:+ path))
        end
    | None, None, Some _, _ => mret (Some None)
    | None, None, None, Some _ => mret (Some None)
    | None, None, None, None => mret None
    end;
  try_except
    (match value with
     | Some value => make_params scope name ptype value condition
     | None => raise (UnboundLocalError "value")
     end)
    (λ e, match e with
          | ValueError msg => Some (raise (ConfigurationError msg))
          | _ => None
          end).

Definition _rosparam_tag (t : Tag) (condition : Condition)
    (scope : LaunchScope) (sub : SubstitutionParser) : M unit :=
  assert_no_children t ;;
  command ← sub_resolve_strict sub (t_command t);
  ns ← sub_resolve_strict sub (t_namespace t);
  filepath ← sub_resolve_strict sub (t_file t);
  name ← sub_resolve_strict sub (t_name t);
  if PyStr.opt_eqb command "load" then
    value ←
      (if PyStr.truthy_opt filepath then
         match read_file (default "" filepath) with
         | Some contents => mret (Some contents)
         | None =>
             raise (ConfigurationError
                      ("cannot read file: " +:+ default "" filepath))
         end
       else
         substitute ← sub_resolve_strict sub (t_substitute t);
         if PyStr.truthy_opt substitute then
           sub_resolve_strict sub (Some (text t))
         else mret (Some (text t)));
    match value with
    | Some value => make_rosparam scope name ns value condition
    | None => raise (AttributeError "read")
    end
  else if PyStr.opt_eqb command "delete" then
    remove_param scope name ns condition
  else mret tt.

Definition _group_tag (t : Tag) (condition : Condition)
    (scope : LaunchScope) (sub : SubstitutionParser) : M unit :=
  ns ← sub_resolve_strict sub (t_namespace t);
  new_scope ← child scope ns condition None None;
  analyse (children t) new_scope sub.

Definition _arg_tag (t : Tag) (condition : Condition)
    (scope : LaunchScope) (sub : SubstitutionParser) : M unit :=
  assert_no_children t ;;
  if negb (bool_decide (conditions scope = [])) || negb (is_True condition)
  then raise (ConfigurationError "cannot resolve conditional arg")
  else
    match t_value t with
    | Some _ =>
        value ← sub_resolve_strict sub (t_value t);
        arg_setitem (arguments scope) (t_name t) value
    | None =>
        value ← sub_resolve_strict sub (t_default t);
        args ← read_args (arguments scope);
        match args !! t_name t with
        | Some (Some _) => mret tt
        | _ => arg_setitem (arguments scope) (t_name t) value
        end
    end.

Definition _env_tag (t : Tag) (condition : Condition)
    (scope : LaunchScope) (sub : SubstitutionParser) : M unit :=
  assert_no_children t.

Definition _machine_tag (t : Tag) (condition : Condition)
    (scope : LaunchScope) (sub : SubstitutionParser) : M unit :=
  assert_no_children t.

Definition _test_tag (t : Tag) (condition : Condition)
    (scope : LaunchScope) (sub : SubstitutionParser) : M unit :=
  mret tt.

(** [handler = getattr(self, "_" + tag.tag + "_tag")] and
    [handler(tag, condition, scope, sub)] *)
Definition dispatch (t : Tag) (condition : Condition)
    (scope : LaunchScope) (sub : SubstitutionParser) : M unit :=
  let name := "_" +:+ tag t +:+ "_tag" in
  getattr ConfigurationBuilder_attributes name ;;
  if String.eqb name "_node_tag" then _node_tag t condition scope sub
  else if String.eqb name "_include_tag" then
    _include_tag t condition scope sub
  else if String.eqb name "_remap_tag" then _remap_tag t condition scope sub
  else if String.eqb name "_param_tag" then _param_tag t condition scope sub
  else if String.eqb name "_rosparam_tag" then
    _rosparam_tag t condition scope sub
  else if String.eqb name "_group_tag" then _group_tag t condition scope sub
  else if String.eqb name "_arg_tag" then _arg_tag t condition scope sub
  else if String.eqb name "_env_tag" then _env_tag t condition scope sub
  else if String.eqb name "_machine_tag" then
    _machine_tag t condition scope sub
  else if String.eqb name "_test_tag" then _test_tag t condition scope sub
  else raise (AttributeError name).
End handlers.

(** The [except (ConfigurationError, SubstitutionError) as e] clause of
    [_analyse_tree]: [self.errors.append(e.value)]. *)
Definition log_error (e : exn) : option (M unit) :=
  match e with
  | ConfigurationError value => Some (append_error value)
  | SubstitutionError value => Some (append_error value)
  | _ => None
  end.

(** One iteration of the loop of [_analyse_tree], for a condition
    resolver and a handler. *)
Definition analyse_tag (resolve_condition : Tag → M Condition)
    (handler : Tag → Condition → M unit) (t : Tag) : M unit :=
  if String.eqb (tag t) "error" then append_error (text t)
  else
    try_except
      (condition ← resolve_condition t;
       if is_False condition then mret tt
       else handler t condition)
      log_error.

(** [for tag in tree.children: ...] *)
Definition analyse_children (resolve_condition : Tag → M Condition)
    (handler : Tag → Condition → M unit) (tags : list Tag) : M unit :=
  for_each tags (analyse_tag resolve_condition handler).

(** [_analyse_tree(tree, scope, sub)], on the children of [tree].
    [fuel] bounds the depth of the nested calls: an included file may
    include itself. *)
Fixpoint _analyse_tree (fuel : nat) (tags : list Tag) (scope : LaunchScope)
    (sub : SubstitutionParser) : M unit :=
  match fuel with
  | 0 => raise OutOfFuel
  | S fuel' =>
      analyse_children
        (λ t, _condition (condition t) sub)
        (λ t c, dispatch (_analyse_tree fuel') t c scope sub)
        tags
  end.

Definition add_launch (fuel : nat) (launch : LaunchFile) : M (option bool) :=
  if negb (String.eqb (lf_language launch) "launch") then raise AssertionError
  else
    modify (set_cfg_roslaunch (λ files, files ++ [launch])) ;;
    match lf_tree launch with
    | None =>
        append_error ("missing parse tree: " +:+ lf_id launch) ;;
        mret (Some false)
    | Some tree =>
        args ← new_arg_dict ∅;
        let sub := mkSub args (lf_dir_path launch) in
        scope ← LaunchScope_init None launch "/" None None None
                  (Some (sub_arguments sub)) None;
        _analyse_tree fuel tree scope sub ;;
        (* parameters can only be added in the end, because of rosparam *)
        params ← read_params (parameters scope);
        for_each params parameters_add ;;
        mret None
    end.
End ConfigurationBuilder.


(** ** Reading the flattening as the set of leaf paths *)

(** The key paths to the leaves of a value whose keys are strings,
    with the leaf reached. *)
Fixpoint leaf_paths (v : yaml) : list (list string * scalar) :=
  match v with
  | YLeaf s => [([], s)]
  | YDict items =>
      (fix go (l : list (scalar * yaml)) : list (list string * scalar) :=
         match l with
         | [] => []
         | kv :: l' =>
             map (λ ps, (key_text kv.1 :: ps.1, ps.2)) (leaf_paths kv.2)
             ++ go l'
         end) items
  end.

Definition items_leaf_paths (items : list (scalar * yaml))
    : list (list string * scalar) :=
  concat (map (λ kv, map (λ ps, (key_text kv.1 :: ps.1, ps.2))
                       (leaf_paths kv.2)) items).

(** A key path "joined with '/'" under a name. *)
Definition joined_name (name : string) (path : list string) : string :=
  String.concat "/" (name :: path).

(** A key path joined the way the code joins it: [_ns_join] key by key. *)
Definition ns_path (name : string) (path : list string) : string :=
  fold_left (λ ns key, _ns_join key ns) path name.

(** Names and keys on which [_ns_join] is a plain join with ['/']. *)
Definition plain_key (key : string) : bool :=
  PyStr.truthy key
  && negb (PyStr.startswith key "~") && negb (PyStr.startswith key "/")
  && negb (PyStr.ends_with_char key "/").

Definition plain_name (name : string) : bool :=
  PyStr.truthy name && negb (String.eqb name "~")
  && negb (PyStr.ends_with_char name "/").

Fixpoint plain_keys (v : yaml) : bool :=
  match v with
  | YLeaf _ => true
  | YDict items =>
      (fix go (l : list (scalar * yaml)) : bool :=
         match l with
         | [] => true
         | kv :: l' => plain_key (key_text kv.1) && plain_keys kv.2 && go l'
         end) items
  end.

(** The parameter [_yaml_param] makes of an item of [_unfold], and
    whether it goes to [self.parameters] (or else to [self._params]). *)
Section yaml_param_items.
Context `{Metamodel}.

Definition item_independent (item : unfold_item) : bool :=
  PyStr.startswith item.1.1 "/" || PyStr.startswith item.1.1 "~".

Definition item_param (self : LaunchScope) (conditions : list Condition)
    (item : unfold_item) : Param :=
  let name := item.1.1 in
  let pns := private_ns self in
  let rosname :=
    if item_independent item && PyStr.startswith name "~" then
      RosName_new (Some name) (Some "/roslaunch") (Some "/roslaunch") None
    else RosName_new (Some name) (Some pns) (Some pns) None in
  mkParam rosname None (YLeaf item.1.2)
    (bool_decide (is_Some (node self))) conditions.

Definition item_committed (private : bool) (item : unfold_item) : bool :=
  item_independent item || negb private.

(** The effect of one iteration of the loop of [_yaml_param]. *)
Definition emit_item (self : LaunchScope) (conditions : list Condition)
    (private : bool) (item : unfold_item) (st : State) : State :=
  set_param_lists
    (alter (λ old, old ++ [item_param self conditions item])
       (if item_committed private item then parameters self
        else _params self))
    st.
End yaml_param_items.

(** ** A sample metamodel and environment

    Used for worked examples only: names resolved the ROS way (a leading
    ['/'] is global, a leading ['~'] is private, anything else is
    relative to the namespace), and an evaluator that knows the
    literals [true] and [false] and the substitution [$(arg NAME)]. *)

Module Sample.

Definition resolve_name (name : option string) (ns : string)
    (private_ns : option string) : string :=
  match name with
  | None => ns
  | Some name =>
      if PyStr.startswith name "/" then name
      else
        match name with
        | String "~" rest => _ns_join rest (default ns private_ns)
        | _ => _ns_join name ns
        end
  end.

Definition new_rosname (name ns private_ns : option string)
    (remaps : option (gmap string string)) : RosName :=
  let resolved := resolve_name name (default "/" ns) private_ns in
  let remapped :=
    match remaps with
    | Some table => default resolved (table !! resolved)
    | None => resolved
    end in
  mkRosName name remapped (PyStr.rsplit1 "/" remapped).2
    (PyStr.startswith (default "" name) "~").

Definition type_of (value : yaml) : option string :=
  match value with
  | YDict _ => Some "yaml"
  | YLeaf SNone => None
  | YLeaf (SBool _) => Some "bool"
  | YLeaf (SInt _) => Some "int"
  | YLeaf (SFloat _) => Some "double"
  | YLeaf (SStr _) => Some "string"
  | YLeaf (SSeq _) => Some "yaml"
  end.

Definition metamodel : Metamodel :=
  {| RosName_new := new_rosname;
     RosName_resolve := resolve_name;
     Parameter_type_of := type_of |}.

(** [$(arg NAME)] gives [Some NAME]. *)
Definition arg_name (e : string) : option string :=
  if PyStr.startswith e "$(arg " && PyStr.ends_with_char e ")" then
    Some (String.substring 6 (String.length e - 7) e)
  else None.

Definition eval (args : gmap (option string) (option string)) (e : Expr)
    : option string :=
  match e with
  | None => None
  | Some e =>
      match arg_name e with
      | Some name => default None (args !! Some name)
      | None => Some e
      end
  end.

Definition eval_condition (args : gmap (option string) (option string))
    (dirname : string) (e : Expr) : outcome Value :=
  match eval args e with
  | None => Ret VNone
  | Some v =>
      if String.eqb v "true" then Ret (VBool true)
      else if String.eqb v "false" then Ret (VBool false)
      else Ret (VStr v)
  end.

Definition eval_strict (args : gmap (option string) (option string))
    (dirname : string) (e : Expr) : outcome (option string) :=
  match e with
  | None => Ret None
  | Some _ =>
      match eval args e with
      | Some v => Ret (Some v)
      | None => Raise (SubstitutionError "undefined arg")
      end
  end.

(** One package, [pkg], with two node templates: [talker] advertises
    [chatter] and [listener] subscribes to it.  The condition lists of
    their call sites are at the locations [0] and [1]. *)
Definition talker : Node :=
  mkNode "talker" (new_rosname (Some "talker") None None None)
    [mkCall (Some "chatter") None "std_msgs/String" (Some 10) 0] [] [] [].

Definition listener : Node :=
  mkNode "listener" (new_rosname (Some "listener") None None None)
    [] [mkCall (Some "chatter") None "std_msgs/String" (Some 10) 1] [] [].

(** [scanner] advertises a topic whose name is known only in part. *)
Definition scanner : Node :=
  mkNode "scanner" (new_rosname (Some "scanner") None None None)
    [mkCall (Some "/scan/?") None "sensor_msgs/LaserScan" (Some 1) 0] [] [] [].

Definition nodes (id : string) : option Node :=
  if String.eqb id "node:pkg/talker" then Some talker
  else if String.eqb id "node:pkg/listener" then Some listener
  else if String.eqb id "node:pkg/scanner" then Some scanner
  else None.

Fixpoint digits (s : string) (acc : Z) : option Z :=
  match s with
  | EmptyString => Some acc
  | String c rest =>
      let n := nat_of_ascii c in
      if (48 <=? n)%nat && (n <=? 57)%nat then
        digits rest (10 * acc + Z.of_nat (n - 48))%Z
      else None
  end.

Definition parse_int (s : string) : option Z :=
  match s with
  | EmptyString => None
  | _ => digits s 0%Z
  end.

(** The texts of Python's [ValueError] for [int(s)] and [float(s)]. *)
Definition int_error (s : string) : string :=
  "invalid literal for int() with base 10: '" +:+ s +:+ "'".

Definition float_error (s : string) : string :=
  "could not convert string to float: " +:+ s.

Definition environment : Environment :=
  {| resolve := eval_condition;
     resolve_strict := eval_strict;
     sources_nodes := nodes;
     sources_packages := λ id, String.eqb id "package:pkg";
     sources_get_file := λ _, None;
     read_file := λ _, None;
     yaml_load := λ s, Ret (YLeaf (SStr s));
     python_int := parse_int;
     python_float := λ _, None;
     python_int_error := int_error;
     python_float_error := float_error;
     rosparam_importable := true;
     python_re_match := λ _ _, false;
     builder_hints := [] |}.

(** A tag with the given name and nothing else: no conditional (the
    literal [true] under polarity [True]), no attributes, no children. *)
Definition plain_tag (name : string) : Tag :=
  mkTag name "" (true, Some "true") None None None None None None None None
    None None None None None None None [].

Definition with_children (t : Tag) (tags : list Tag) : Tag :=
  mkTag (tag t) (text t) (condition t) (t_package t) (t_type t) (t_argv t)
    (t_name t) (t_namespace t) (t_file t) (t_pass_all_args t) (t_origin t)
    (t_target t) (t_value t) (t_textfile t) (t_binfile t) (t_command t)
    (t_substitute t) (t_default t) tags.

Definition with_condition (t : Tag) (c : bool * Expr) : Tag :=
  mkTag (tag t) (text t) c (t_package t) (t_type t) (t_argv t)
    (t_name t) (t_namespace t) (t_file t) (t_pass_all_args t) (t_origin t)
    (t_target t) (t_value t) (t_textfile t) (t_binfile t) (t_command t)
    (t_substitute t) (t_default t) (children t).

Definition error_tag (message : string) : Tag :=
  mkTag "error" message (true, Some "true") None None None None None None
    None None None None None None None None None [].

Definition group_tag (ns : Expr) (tags : list Tag) : Tag :=
  mkTag "group" "" (true, Some "true") None None None None ns None None None
    None None None None None None None tags.

Definition node_tag (pkg type name : string) (tags : list Tag) : Tag :=
  mkTag "node" "" (true, Some "true") (Some pkg) (Some type) None (Some name)
    None None None None None None None None None None None tags.

Definition param_tag (name value : string) : Tag :=
  mkTag "param" "" (true, Some "true") None None None (Some name) None None
    None None None (Some value) None None None None None [].

Definition rosparam_delete_tag (name : string) : Tag :=
  mkTag "rosparam" "" (true, Some "true") None None None (Some name) None None
    None None None None None None (Some "delete") None None [].

Definition remap_tag (origin target : string) : Tag :=
  mkTag "remap" "" (true, Some "true") None None None None None None None
    (Some origin) (Some target) None None None None None None [].

Definition launch_file_of (tags : list Tag) : LaunchFile :=
  mkLaunchFile "pkg/launch/sample.launch" "launch" (Some tags) "pkg/launch"
    "sample.launch".

(** The store before a build: the two (empty) condition lists of the
    call sites of the templates. *)
Definition initial_state : State :=
  mkState [[]; []] [] [] [] [] [] [] [] ∅ [] [] ∅ [].

(** A condition that could not be resolved. *)
Definition unresolved : Condition :=
  SourceCondition (Some "$(arg use_sim)") "sample.launch".

(** The root scope of a launch file, as [add_launch] makes it. *)
Definition root_scope `{Metamodel} : M LaunchScope :=
  args ← new_arg_dict ∅;
  LaunchScope_init None (launch_file_of []) "/" None None None (Some args) None.

#[local] Existing Instance metamodel.
#[local] Existing Instance environment.

(** Two unconditional processes, [/t1] advertising and [/l1] subscribing
    to [chatter]. *)
Definition talker_and_listener : M unit :=
  root ← root_scope;
  scope1 ← make_node root talker (Some "t1") None None CTrue;
  make_topics scope1 None ;;
  scope2 ← make_node root listener (Some "l1") None None CTrue;
  make_topics scope2 None.

(** The same, with [/l1] under a group whose condition is unresolved. *)
Definition talker_and_conditional_listener : M unit :=
  root ← root_scope;
  scope1 ← make_node root talker (Some "t1") None None CTrue;
  make_topics scope1 None ;;
  group ← child root None unresolved None None;
  scope2 ← make_node group listener (Some "l1") None None CTrue;
  make_topics scope2 None.

(** The store before a build in which the call site of [listener] is
    under a condition of its own. *)
Definition guarded_subscription_state : State :=
  mkState [[]; [unresolved]] [] [] [] [] [] [] [] ∅ [] [] ∅ [].

(** Two processes advertising the same partly known name. *)
Definition two_scanners : M unit :=
  root ← root_scope;
  scope1 ← make_node root scanner (Some "s1") None None CTrue;
  make_topics scope1 None ;;
  scope2 ← make_node root scanner (Some "s2") None None CTrue;
  make_topics scope2 None.

(** [adder] offers the service [add], [caller] calls it. *)
Definition adder : Node :=
  mkNode "adder" (new_rosname (Some "adder") None None None)
    [] [] [mkCall (Some "add") None "pkg/Add" None 0] [].

Definition caller : Node :=
  mkNode "caller" (new_rosname (Some "caller") None None None)
    [] [] [] [mkCall (Some "add") None "pkg/Add" None 1].

(** An unconditional server [/a1] and a client [/c1] under a group whose
    condition is unresolved. *)
Definition server_and_conditional_client : M unit :=
  root ← root_scope;
  scope1 ← make_node root adder (Some "a1") None None CTrue;
  make_services scope1 None ;;
  group ← child root None unresolved None None;
  scope2 ← make_node group caller (Some "c1") None None CTrue;
  make_services scope2 None.

(** The stores these builds leave, and the topic and service that are
    the first objects of their kind in them. *)
Definition chatter_store : State :=
  (talker_and_conditional_listener initial_state).1.

Definition add_store : State :=
  (server_and_conditional_client initial_state).1.

Definition chatter : Topic :=
  mkTopic 0 (new_rosname (Some "/chatter") None None None) "std_msgs/String".

Definition add : Service :=
  mkService 0 (new_rosname (Some "/add") None None None) "pkg/Add".

(** The topic or service of a collection with the given name, and the
    contents of its condition list. *)
Definition topic_conditions_of (name : string) (st : State)
    : option (list Condition) :=
  topic ← collection_get (cfg_topics st) name;
  ts ← topic_objs st !! t_id topic;
  cond_lists st !! topic_conditions ts.

Definition service_conditions_of (name : string) (st : State)
    : option (list Condition) :=
  service ← collection_get (cfg_services st) name;
  ss ← service_objs st !! s_id service;
  cond_lists st !! service_conditions ss.

(** The names of the topics of the configuration, each with the numbers
    of its publisher and subscriber links. *)
Definition topics_and_links (st : State) : list (string * nat * nat) :=
  map (λ topic,
         let ts := default (mkTopicState [] [] 0)
                     (topic_objs st !! t_id topic) in
         (full (t_rosname topic), length (topic_publishers ts),
          length (topic_subscribers ts)))
    (cfg_topics st).

End Sample.

(** ** Auxiliary definitions for the statements below *)

Section statements.
Context `{Metamodel} `{Environment}.

(** What [_analyse_tree] runs for a tag that is not an error node, inside
    its [try]. *)
Definition tag_body (fuel : nat) (scope : LaunchScope)
    (sub : SubstitutionParser) (t : Tag) : M unit :=
  condition ← _condition (condition t) sub;
  if is_False condition then mret tt
  else dispatch (_analyse_tree fuel) t condition scope sub.

(** The scope [child] returns and the store it leaves. *)
Definition forked (parent : LaunchScope) (ns : option string) (c : Condition)
    (launch : option LaunchFile) (args : option loc) (st : State)
    : LaunchScope :=
  mkLaunchScope (default (launch_file parent) launch)
    (_namespace parent ns false) None (length (remap_dicts st))
    (parameters parent) (default (arguments parent) args)
    (with_condition (conditions parent) c) (length (param_lists st)).

Definition fork_store (parent : LaunchScope) (st : State) : State :=
  set_param_lists
    (λ h, h ++ [default [] (param_lists st !! _params parent)])
    (set_remap_dicts
       (λ h, h ++ [default ∅ (remap_dicts st !! remaps parent)]) st).

(** The name [remove_param] looks up. *)
Definition deleted_name (self : LaunchScope) (name ns : option string)
    : string :=
  RosName_resolve name
    (_ns_join (PyStr.or_else ns (private_ns self)) (private_ns self))
    (Some "/rosparam").

(** [add_launch]: the store, root scope and parser the walk starts from,
    and the commit of the parameters after the walk. *)
Definition launch_start (launch : LaunchFile) (st : State)
    : State * LaunchScope * SubstitutionParser :=
  let st0 :=
    set_param_lists (λ h, h ++ [[]])
      (set_param_lists (λ h, h ++ [[]])
         (set_remap_dicts (λ h, h ++ [∅])
            (set_arg_dicts (λ h, h ++ [∅])
               (set_cfg_roslaunch (λ files, files ++ [launch]) st)))) in
  (st0,
   mkLaunchScope launch "/" None (length (remap_dicts st))
     (length (param_lists st)) (length (arg_dicts st)) []
     (length (param_lists st ++ [[]])),
   mkSub (length (arg_dicts st)) (lf_dir_path launch)).

Definition commit (params : list Param) (st : State) : State :=
  fold_left
    (λ st param,
       set_cfg_parameters (λ ps, <[full (p_rosname param) := param]> ps) st)
    params st.

(** A staged parameter, re-homed under a node instance. *)
Definition rehomed (inst : NodeInstance) (param : Param) : Param :=
  mkParam
    (RosName_new (given (p_rosname param)) (Some (full (ni_rosname inst)))
       (Some (full (ni_rosname inst))) None)
    (p_type param) (p_value param) (p_node_scope param)
    (p_conditions param ++ ni_conditions inst).

(** The name a call site resolves to, in the scope of a node instance. *)
Definition link_rosname (self : LaunchScope) (inst : NodeInstance)
    (name ns : option string) (pns : string) (st : State) : RosName :=
  RosName_new name (Some (_resolve_ns self ns)) (Some pns)
    (Some (default ∅ (remap_dicts st !! ni_remaps inst))).

(** The link [_make_topic_link] returns, to a given topic. *)
Definition link_to (self : LaunchScope) (inst : NodeInstance) (topic : Topic)
    (name ns : option string) (pns type : string) (queue : option nat)
    (conditions : loc) : PubSubPrimitive :=
  mkPubSub inst topic type
    (RosName_new name (Some (PyStr.or_else ns (namespace self))) (Some pns)
       None)
    queue conditions.

(** The store after a new topic has been created and added. *)
Definition with_new_topic (topic : Topic) (st : State) : State :=
  set_cfg_topics (collection_add topic)
    (set_topic_objs (λ h, h ++ [mkTopicState [] [] (length (cond_lists st))])
       (set_cond_lists (λ h, h ++ [[]]) st)).

End statements.

Section lookup_statements.
Context {R : Type} `{Resource R}.

(** The pattern [_lookup_resource] makes of a name. *)
Definition pattern_of (name : string) : string :=
  PyStr.replace_char "?" "(?:.+?)" name +:+ "$".

(** The entries the two loops go through: the hints, then the
    collection. *)
Definition scanned (collection : list R) (hints : list (string * R))
    : list (string * R) :=
  hints ++ map (λ resource, (full (res_rosname resource), resource)) collection.

(** The first entry that matches the pattern and has the type asked for
    or, when there is none, the first entry that matches the pattern. *)
Definition first_match (m : string → string → bool) (pattern type : string)
    (entries : list (string * R)) : option R :=
  match List.find (λ e, m pattern e.1 && String.eqb (res_type e.2) type)
          entries with
  | Some e => Some e.2
  | None => snd <$> List.find (λ e, m pattern e.1) entries
  end.

End lookup_statements.

(** [keeps f m]: running [m] does not change the part [f] of the store,
    whether it returns or raises. *)
Definition keeps {X A : Type} (f : State → X) (m : M A) : Prop :=
  ∀ st, f (m st).1 = f st.


(** One pass of the recomputation of a condition list, on the contents
    of the lists in the store [heap]: the first link whose node has no
    conditions makes the result the list of that link and ends the pass;
    any other link adds the conditions of its node, then its own. *)
Fixpoint aggregate_pass (heap : list (list Condition)) (acc : list Condition)
    (links : list (list Condition * loc)) : list Condition :=
  match links with
  | [] => acc
  | (node_conditions, link_conditions) :: rest =>
      if bool_decide (node_conditions = []) then
        default [] (heap !! link_conditions)
      else
        aggregate_pass heap
          (acc ++ node_conditions ++ default [] (heap !! link_conditions))
          rest
  end.

(** The two passes: the publishers (or the server), then the subscribers
    (or the clients), starting from what the first pass left. *)
Definition aggregate_conditions (heap : list (list Condition))
    (first second : list (list Condition * loc)) : list Condition :=
  aggregate_pass heap (aggregate_pass heap [] first) second.

(** The links of a pass refer to lists that exist in the store. *)
Definition links_allocated (heap : list (list Condition))
    (links : list (list Condition * loc)) : Prop :=
  Forall (λ link, link.2 < length heap) links.

(** No list is shared between a link of the first pass and a link of
    the second. *)
Definition links_apart (first second : list (list Condition * loc)) : Prop :=
  Forall (λ p, Forall (λ s, p.2 ≠ s.2) second) first.

(** ** Auxiliary definitions for the properties of the remaining code *)

(** A name that begins with ['~'] or ['/']: [_ns_join] returns such a
    name as it is, and [_yaml_param] calls it independent. *)
Definition rooted (s : string) : bool :=
  PyStr.startswith s "~" || PyStr.startswith s "/".

(** The names under which a collection holds its entities, in the
    order of the collection. *)
Definition names {R : Type} `{Resource R} (coll : list R) : list string :=
  map (λ r, full (res_rosname r)) coll.

(** The links of a node instance, of a topic and of a service are only
    added to. *)
Definition node_links_grow (nl nl' : NodeLinks) : Prop :=
  publishers nl `prefix_of` publishers nl'
  ∧ subscribers nl `prefix_of` subscribers nl'
  ∧ servers nl `prefix_of` servers nl'
  ∧ clients nl `prefix_of` clients nl'.

Definition topic_links_grow (ts ts' : TopicState) : Prop :=
  topic_publishers ts `prefix_of` topic_publishers ts'
  ∧ topic_subscribers ts `prefix_of` topic_subscribers ts'.

Definition service_links_grow (ss ss' : ServiceState) : Prop :=
  (is_Some (service_server ss) → is_Some (service_server ss'))
  ∧ service_clients ss `prefix_of` service_clients ss'.

(** [evolves st st']: how a store [st'] that a walk of a launch tree
    has made of the store [st] relates to it.  The launch files and the
    committed parameters of the configuration are the same; the error
    log, the lists of parameters of the scopes, the collections of
    nodes, topics and services and the links of every object have only
    been added to; and the names of the topics and of the services are
    still without duplicates if they were. *)
Record evolves (st st' : State) : Prop := mk_evolves {
  ev_roslaunch : cfg_roslaunch st' = cfg_roslaunch st;
  ev_parameters : cfg_parameters st' = cfg_parameters st;
  ev_errors : errors st `prefix_of` errors st';
  ev_nodes : dom (cfg_nodes st) ⊆ dom (cfg_nodes st');
  ev_topics : names (cfg_topics st) `prefix_of` names (cfg_topics st');
  ev_services : names (cfg_services st) `prefix_of` names (cfg_services st');
  ev_topics_unique :
    NoDup (names (cfg_topics st)) → NoDup (names (cfg_topics st'));
  ev_services_unique :
    NoDup (names (cfg_services st)) → NoDup (names (cfg_services st'));
  ev_params :
    ∀ l ps, param_lists st !! l = Some ps →
            ∃ more, param_lists st' !! l = Some (ps ++ more);
  ev_node_links :
    ∀ l nl, node_links st !! l = Some nl →
            ∃ nl', node_links st' !! l = Some nl' ∧ node_links_grow nl nl';
  ev_topic_objs :
    ∀ l ts, topic_objs st !! l = Some ts →
            ∃ ts', topic_objs st' !! l = Some ts' ∧ topic_links_grow ts ts';
  ev_service_objs :
    ∀ l ss, service_objs st !! l = Some ss →
            ∃ ss', service_objs st' !! l = Some ss'
                   ∧ service_links_grow ss ss'
}.

(** [grows m]: whether it returns or raises, the method [m] leaves a
    store that evolves from the one it was run in. *)
Definition grows {A : Type} (m : M A) : Prop :=
  ∀ st, evolves st (m st).1.

(** The parameter that is left under a name when a list of parameters
    is added to the configuration one after the other: the last one of
    that name. *)
Definition last_declared (name : string) (params : list Param)
    : option Param :=
  last (List.filter (λ p, String.eqb (full (p_rosname p)) name) params).

(** [raises m]: the method [m] never returns; whatever the store, it
    ends by raising. *)
Definition raises {A : Type} (m : M A) : Prop :=
  ∀ st, ∃ e, (m st).2 = Raise e.

(** The tags [ConfigurationBuilder] has a handler for. *)
Definition handled_tags : list string :=
  [ "node"; "include"; "remap"; "param"; "rosparam"; "group"; "arg"; "env";
    "machine"; "test" ].

(** The name [make_rosparam] unfolds a value under: the [param]
    attribute joined to the namespace, or the namespace alone. *)
Definition rosparam_name `{Metamodel} (self : LaunchScope)
    (name ns : option string) : string :=
  let ns := _ns_join (PyStr.or_else ns (private_ns self)) (private_ns self) in
  if PyStr.truthy_opt name then _ns_join (default "" name) ns else ns.

(** Strings whose characters all satisfy a test; a word is a non-empty
    string without white space. *)
Fixpoint all_chars (P : ascii → bool) (s : string) : bool :=
  match s with
  | EmptyString => true
  | String c rest => P c && all_chars P rest
  end.

Definition is_word (s : string) : bool :=
  PyStr.truthy s && all_chars (λ c, negb (PyStr.is_space c)) s.

Definition no_slash (s : string) : bool :=
  all_chars (λ c, negb (Ascii.eqb c "/")) s.

(** What [_get_node] answers once it knows the package and the
    executable: the node of the source index, a placeholder when the
    index has the package only, an error when it has no such package. *)
Definition indexed_node `{Metamodel} `{Environment} (pkg exe : string)
    : outcome Node :=
  if sources_packages ("package:" +:+ pkg) then
    match sources_nodes ("node:" +:+ pkg +:+ "/" +:+ exe) with
    | Some node => Ret node
    | None =>
        Ret (mkNode exe (RosName_new (Some "?") None None None) [] [] [] [])
    end
  else Raise (ConfigurationError ("cannot find package: " +:+ pkg)).

(** ** [ConfigurationHints]

    The class is not used by the builder.  Its constructor sets four
    empty lists and then goes through the four kinds of hints. *)
Record ConfigurationHints := mkConfigurationHints {
  ch_advertise : list Topic;
  ch_subscribe : list Topic;
  ch_service : list Service;
  ch_client : list Service
}.

(** The names the body of [ConfigurationHints.__init__] has as local
    variables when it evaluates the call in one of its loops. *)
Definition ConfigurationHints_init_locals : list string :=
  [ "self"; "hints"; "name"; "type" ].

(** Evaluating a name in that body: a local variable, or else a global
    name of the module. *)
Definition init_name (name : string) : M unit :=
  if bool_decide (name ∈ ConfigurationHints_init_locals) then mret tt
  else global_name name.

(** The arguments of the call
    [self._make_comm_hint(cls, name, type, pns, scope)], evaluated from
    left to right before the call is made. *)
Definition hint_arguments (cls : string) : M unit :=
  init_name cls ;;
  init_name "name" ;;
  init_name "type" ;;
  init_name "pns" ;;
  init_name "scope".

(** [ConfigurationHints(hints)].  [make cls] stands for what follows
    the evaluation of the arguments in an iteration: the call of
    [_make_comm_hint] for the class [cls] and the assignment of its
    result. *)
Definition ConfigurationHints_init (make : string → M unit) (hints : Hints)
    : M ConfigurationHints :=
  for_each (h_advertise hints)
    (λ _, hint_arguments "Topic" ;; make "Topic") ;;
  for_each (h_subscribe hints)
    (λ _, hint_arguments "Topic" ;; make "Topic") ;;
  for_each (h_service hints)
    (λ _, hint_arguments "Service" ;; make "Service") ;;
  for_each (h_client hints)
    (λ _, hint_arguments "Service" ;; make "Service") ;;
  mret (mkConfigurationHints [] [] [] []).

(** [topics(self)] and [services(self)] *)
Definition ConfigurationHints_topics (self : ConfigurationHints)
    : list Topic :=
  ch_advertise self ++ ch_subscribe self.

Definition ConfigurationHints_services (self : ConfigurationHints)
    : list Service :=
  ch_service self ++ ch_client self.

(** No hint of any kind. *)
Definition no_hints (hints : Hints) : bool :=
  bool_decide (h_advertise hints = []) && bool_decide (h_subscribe hints = [])
  && bool_decide (h_service hints = []) && bool_decide (h_client hints = []).

(** ** Linking the call sites of a node *)

Section link_statements.
Context `{Metamodel} `{Environment}.

(** One iteration of a loop of [make_topics]: the first loop
    ([publisher = true]) appends the link to the publishers of the node
    and of the topic, the second to the subscribers. *)
Definition link_step (publisher : bool) (self : LaunchScope)
    (inst : NodeInstance) (hints : list (string * Topic)) (call : Call)
    : M unit :=
  link ← _make_topic_link self inst (c_name call) (c_namespace call)
           (private_ns self) (c_type call) (c_queue_size call)
           (c_conditions call) hints;
  modify_node_links inst (λ nl,
    if publisher then
      mkNodeLinks (publishers nl ++ [link]) (subscribers nl)
        (servers nl) (clients nl)
    else
      mkNodeLinks (publishers nl) (subscribers nl ++ [link])
        (servers nl) (clients nl)) ;;
  modify_topic (l_topic link) (λ ts,
    if publisher then
      mkTopicState (topic_publishers ts ++ [link])
        (topic_subscribers ts) (topic_conditions ts)
    else
      mkTopicState (topic_publishers ts)
        (topic_subscribers ts ++ [link]) (topic_conditions ts)) ;;
  _update_topic_conditions (l_topic link).

(** The name of a call site has no wildcard marker. *)
Definition literal_call (self : LaunchScope) (inst : NodeInstance)
    (st : State) (call : Call) : Prop :=
  PyStr.contains_char "?"
    (full (link_rosname self inst (c_name call) (c_namespace call)
             (private_ns self) st))
  = false.

(** A link made for a call site: it is a link of the node instance,
    with the type, queue size and condition list of the call site, to a
    topic of the name the call site resolves to. *)
Definition call_link (self : LaunchScope) (inst : NodeInstance) (st : State)
    (call : Call) (link : PubSubPrimitive) : Prop :=
  l_node link = inst
  ∧ l_type link = c_type call
  ∧ l_queue link = c_queue_size call
  ∧ l_conditions link = c_conditions call
  ∧ full (t_rosname (l_topic link))
    = full (link_rosname self inst (c_name call) (c_namespace call)
              (private_ns self) st).
End link_statements.

(** The topic of a link is in the collection of the configuration, and
    the link is among its publishers (or its subscribers). *)
Definition linked (publisher : bool) (st : State) (link : PubSubPrimitive)
    : Prop :=
  full (t_rosname (l_topic link)) ∈ names (cfg_topics st)
  ∧ ∃ ts,
      topic_objs st !! t_id (l_topic link) = Some ts
      ∧ link ∈ (if publisher then topic_publishers ts
                else topic_subscribers ts).

(** Every topic of the collection is an object of the store. *)
Definition topics_allocated (st : State) : Prop :=
  Forall (λ topic, t_id topic < length (topic_objs st)) (cfg_topics st).

(** The links of a topic, without its conditions. *)
Definition topic_links (ts : TopicState)
    : list PubSubPrimitive * list PubSubPrimitive :=
  (topic_publishers ts, topic_subscribers ts).

(** [same_links st st']: the stores differ in condition lists and in
    the conditions of topics and services at most. *)
Record same_links (st st' : State) : Prop := mk_same_links {
  sl_remaps : remap_dicts st' = remap_dicts st;
  sl_nodes : node_links st' = node_links st;
  sl_topics : cfg_topics st' = cfg_topics st;
  sl_topic_objs :
    map topic_links (topic_objs st') = map topic_links (topic_objs st)
}.

(** ** Sample inputs for the properties above *)

Module Cases.

#[local] Existing Instance Sample.metamodel.
#[local] Existing Instance Sample.environment.

(** The store, root scope and parser at the start of the walk of an
    empty launch file. *)
Definition start : State * LaunchScope * SubstitutionParser :=
  launch_start (Sample.launch_file_of []) Sample.initial_state.

Definition store : State := start.1.1.
Definition root : LaunchScope := start.1.2.
Definition parser : SubstitutionParser := start.2.

(** [<param name=... type=... value=.../>] *)
Definition typed_param_tag (name type value : string) : Tag :=
  mkTag "param" "" (true, Some "true") None (Some type) None (Some name) None
    None None None None (Some value) None None None None None [].

(** [<arg name=... value=.../>] and [<arg name=... default=.../>] *)
Definition arg_value_tag (name value : string) : Tag :=
  mkTag "arg" "" (true, Some "true") None None None (Some name) None None
    None None None (Some value) None None None None None [].

Definition arg_default_tag (name value : string) : Tag :=
  mkTag "arg" "" (true, Some "true") None None None (Some name) None None
    None None None None None None None None (Some value) [].

(** An environment whose YAML library rejects every text before it
    gets to parse it. *)
Definition scanner_error : string := "mapping values are not allowed here".

Definition strict_environment : Environment :=
  {| resolve := Sample.eval_condition;
     resolve_strict := Sample.eval_strict;
     sources_nodes := Sample.nodes;
     sources_packages := λ id, String.eqb id "package:pkg";
     sources_get_file := λ _, None;
     read_file := λ _, None;
     yaml_load := λ _, Raise (MarkedYAMLError false scanner_error);
     python_int := Sample.parse_int;
     python_float := λ _, None;
     python_int_error := Sample.int_error;
     python_float_error := Sample.float_error;
     rosparam_importable := true;
     python_re_match := λ _ _, false;
     builder_hints := [] |}.

(** The node [/t1] of the template [talker], made in the root scope,
    and the store and scope [make_node] leaves. *)
Definition talker_made : State * outcome LaunchScope :=
  make_node root Sample.talker (Some "t1") None None CTrue store.

Definition talker_store : State := talker_made.1.

Definition talker_scope : LaunchScope :=
  match talker_made.2 with
  | Ret scope => scope
  | Raise _ => root
  end.

Definition talker_instance : NodeInstance :=
  mkNodeInstance 0 (Sample.new_rosname (Some "t1") (Some "/") (Some "/") None)
    Sample.talker (Sample.launch_file_of []) None 1 [].

(** A parameter [/p] of the configuration. *)
Definition committed_param : Param :=
  mkParam (Sample.new_rosname (Some "/p") None None None) (Some "int")
    (YLeaf (SInt 1)) false [].

Definition committed_store : State := commit [committed_param] store.

(** [<include file=...>] with [<arg>] children, a launch file
    [inner.launch] that declares the argument [rate] with a default, and
    an environment that finds it. *)
Definition include_tag (file : string) (tags : list Tag) : Tag :=
  mkTag "include" "" (true, Some "true") None None None None None (Some file)
    None None None None None None None None None tags.

Definition inner_launch : LaunchFile :=
  mkLaunchFile "pkg/launch/inner.launch" "launch"
    (Some [arg_default_tag "rate" "5"; Sample.remap_tag "/in" "/out"])
    "pkg/launch" "inner.launch".

Definition including_environment : Environment :=
  {| resolve := Sample.eval_condition;
     resolve_strict := Sample.eval_strict;
     sources_nodes := Sample.nodes;
     sources_packages := λ id, String.eqb id "package:pkg";
     sources_get_file :=
       λ path, if bool_decide (path = Some "inner.launch")
               then Some inner_launch else None;
     read_file := λ _, None;
     yaml_load := λ s, Ret (YLeaf (SStr s));
     python_int := Sample.parse_int;
     python_float := λ _, None;
     python_int_error := Sample.int_error;
     python_float_error := Sample.float_error;
     rosparam_importable := true;
     python_re_match := λ _ _, false;
     builder_hints := [] |}.

(** The mapping [yaml.load] makes of the text [1: 2]: its key is the
    integer [1].  An environment whose YAML library reads that text, and
    which has the module [rosparam] or not. *)
Definition numbered : yaml := YDict [(SInt 1, YLeaf (SInt 2))].

Definition loading_environment (importable : bool) : Environment :=
  {| resolve := Sample.eval_condition;
     resolve_strict := Sample.eval_strict;
     sources_nodes := Sample.nodes;
     sources_packages := λ id, String.eqb id "package:pkg";
     sources_get_file := λ _, None;
     read_file := λ _, None;
     yaml_load := λ s, if String.eqb s "1: 2" then Ret numbered
                       else Ret (YLeaf (SStr s));
     python_int := Sample.parse_int;
     python_float := λ _, None;
     python_int_error := Sample.int_error;
     python_float_error := Sample.float_error;
     rosparam_importable := importable;
     python_re_match := λ _ _, false;
     builder_hints := [] |}.

End Cases.

(** ** What stays inside a scope *)

(** The two kinds of dictionaries of the store. *)
Definition dicts (st : State)
    : list (gmap (option string) (option string)) * list (gmap string string) :=
  (arg_dicts st, remap_dicts st).

(** [others_kept a r st st']: no dictionary has been dropped, and the
    dictionaries of arguments other than [a] and the remap tables other
    than [r] that are in [st] are the same in [st']. *)
Record others_kept (a r : loc) (st st' : State) : Prop := mk_others_kept {
  ok_args_length : length (arg_dicts st) ≤ length (arg_dicts st');
  ok_remaps_length : length (remap_dicts st) ≤ length (remap_dicts st');
  ok_args :
    ∀ l d, l ≠ a → arg_dicts st !! l = Some d → arg_dicts st' !! l = Some d;
  ok_remaps :
    ∀ l d, l ≠ r → remap_dicts st !! l = Some d →
           remap_dicts st' !! l = Some d
}.

(** [confined a r m]: the method [m] writes to no dictionary that was
    there before it ran, other than the dictionary of arguments [a] and
    the remap table [r]. *)
Definition confined {A : Type} (a r : loc) (m : M A) : Prop :=
  ∀ st, others_kept a r st (m st).1.

(** * Properties *)

(** ** Flattening of nested values *)

Lemma yaml_size_dict items : yaml_size (YDict items) = S (items_size items).
Proof.
  simpl. f_equal. unfold items_size.
  induction items as [|kv l IH]; simpl; [done | by rewrite IH].
Qed.

Lemma yaml_size_pos v : 0 < yaml_size v.
Proof. destruct v; simpl; lia. Qed.

Lemma flatten_dict ns key items :
  flatten ns key (YDict items) = flatten_items (_ns_join key ns) items.
Proof.
  simpl. unfold flatten_items.
  induction items as [|kv l IH]; simpl; [done |].
  by rewrite IH, concat_app; simpl; rewrite app_nil_r.
Qed.

Lemma leaf_paths_dict items :
  leaf_paths (YDict items) = items_leaf_paths items.
Proof.
  simpl. unfold items_leaf_paths.
  induction items as [|kv l IH]; simpl; [done | by rewrite IH].
Qed.

Lemma stack_size_app s1 s2 :
  stack_size (s1 ++ s2) = stack_size s1 + stack_size s2.
Proof. unfold stack_size. by rewrite map_app, list_sum_app. Qed.

Lemma stack_size_children name items :
  stack_size (rev (map (λ kv, (name, kv.1, kv.2)) items)) = items_size items.
Proof.
  unfold stack_size, items_size.
  induction items as [|kv l IH]; simpl; [done |].
  rewrite map_app, list_sum_app, IH. simpl. lia.
Qed.

Lemma flatten_stack_app s1 s2 :
  flatten_stack (s1 ++ s2) = flatten_stack s1 ++ flatten_stack s2.
Proof. unfold flatten_stack. by rewrite map_app, concat_app. Qed.

Lemma flatten_stack_children name items :
  flatten_stack (rev (map (λ kv, (name, kv.1, kv.2)) items))
  = flatten_items name items.
Proof.
  unfold flatten_stack, flatten_items.
  by rewrite <- !map_rev, map_map.
Qed.

Lemma string_keys_dict items :
  string_keys (YDict items)
  = forallb (λ kv, is_text kv.1 && string_keys kv.2) items.
Proof.
  simpl. induction items as [|kv l IH]; simpl; [done | by rewrite IH].
Qed.

Lemma forallb_rev {A} (f : A → bool) (l : list A) :
  forallb f (rev l) = forallb f l.
Proof.
  induction l as [|x l IH]; simpl; [done |].
  rewrite forallb_app, IH. simpl. by destruct (f x), (forallb f l).
Qed.

Lemma stack_string_keys_app s1 s2 :
  stack_string_keys (s1 ++ s2)
  = stack_string_keys s1 && stack_string_keys s2.
Proof. apply forallb_app. Qed.

Lemma stack_string_keys_children name items :
  stack_string_keys (rev (map (λ kv, (name, kv.1, kv.2)) items))
  = string_keys (YDict items).
Proof.
  unfold stack_string_keys.
  rewrite forallb_rev, string_keys_dict.
  induction items as [|kv l IH]; simpl; [done | by rewrite IH].
Qed.

(** With fuel for every node on the stack the loop ends.  When every
    key on the stack is a string the result is extended by the leaves
    of the stack, top first. *)
Lemma _unfold_loop_flatten fuel : ∀ stack result,
  stack_size stack ≤ fuel →
  stack_string_keys stack = true →
  _unfold_loop fuel stack result = Ret (result ++ flatten_stack stack).
Proof.
  induction fuel as [|fuel IH]; intros stack result Hsize Hkeys.
  - destruct stack as [|[[ns key] value] stack]; simpl.
    + by rewrite app_nil_r.
    + unfold stack_size in Hsize. simpl in Hsize.
      pose proof (yaml_size_pos value). lia.
  - destruct stack as [|[[ns key] value] stack]; simpl.
    + by rewrite app_nil_r.
    + unfold stack_size in Hsize. simpl in Hsize.
      fold (stack_size stack) in Hsize.
      simpl in Hkeys. fold (stack_string_keys stack) in Hkeys.
      apply andb_prop in Hkeys as [Hframe Hrest].
      apply andb_prop in Hframe as [Hkey Hvalue].
      destruct key as [| | | |key|]; try done. simpl.
      destruct value as [v|items].
      * rewrite IH by (simpl in Hsize; done || lia).
        unfold flatten_stack. simpl. by rewrite <- app_assoc.
      * rewrite yaml_size_dict in Hsize.
        rewrite IH.
        -- rewrite flatten_stack_app, flatten_stack_children.
           unfold flatten_stack at 2. cbn [map concat fst snd].
           by rewrite flatten_dict.
        -- rewrite stack_size_app, stack_size_children. lia.
        -- by rewrite stack_string_keys_app, stack_string_keys_children,
             Hvalue, Hrest.
Qed.

(** When some key on the stack is not a string the loop raises, and
    returns no item at all. *)
Lemma _unfold_loop_raises fuel : ∀ stack result,
  stack_size stack ≤ fuel →
  stack_string_keys stack = false →
  _unfold_loop fuel stack result = Raise (AttributeError "startswith").
Proof.
  induction fuel as [|fuel IH]; intros stack result Hsize Hkeys.
  - destruct stack as [|[[ns key] value] stack]; [done |].
    unfold stack_size in Hsize. simpl in Hsize.
    pose proof (yaml_size_pos value). lia.
  - destruct stack as [|[[ns key] value] stack]; [done |].
    unfold stack_size in Hsize. simpl in Hsize.
    fold (stack_size stack) in Hsize.
    simpl in Hkeys. fold (stack_string_keys stack) in Hkeys.
    simpl. destruct key as [| | | |key|]; try done. simpl in *.
    destruct value as [v|items].
    + apply IH; [simpl in Hsize; lia | done].
    + rewrite yaml_size_dict in Hsize. apply IH.
      * rewrite stack_size_app, stack_size_children. lia.
      * by rewrite stack_string_keys_app, stack_string_keys_children.
Qed.

Lemma _unfold_flatten name value :
  string_keys value = true →
  _unfold name value = Ret (flatten "" name value).
Proof.
  intros Hkeys. unfold _unfold. rewrite _unfold_loop_flatten.
  - unfold flatten_stack. simpl. by rewrite app_nil_r.
  - unfold stack_size. simpl. lia.
  - simpl. by rewrite Hkeys.
Qed.

Lemma _unfold_raises name value :
  string_keys value = false →
  _unfold name value = Raise (AttributeError "startswith").
Proof.
  intros Hkeys. unfold _unfold. apply _unfold_loop_raises.
  - unfold stack_size. simpl. lia.
  - simpl. by rewrite Hkeys.
Qed.

Lemma flatten_items_cons name kv items :
  flatten_items name (kv :: items)
  = flatten_items name items ++ flatten name (key_text kv.1) kv.2.
Proof.
  unfold flatten_items. simpl.
  by rewrite concat_app; simpl; rewrite app_nil_r.
Qed.

(** The names the loop gives to the leaves are their key paths, joined
    key by key with [_ns_join]. *)
Lemma flatten_leaf_paths v : ∀ ns key,
  map (λ item : unfold_item, (item.1.1, item.1.2)) (flatten ns key v)
  ≡ₚ map (λ ps, (ns_path (_ns_join key ns) ps.1, ps.2)) (leaf_paths v).
Proof.
  induction v as [s|items IH] using yaml_nested_ind; intros ns key.
  - done.
  - rewrite flatten_dict, leaf_paths_dict.
    generalize (_ns_join key ns) as name. intros name.
    induction IH as [|kv items Hkv _ IHitems].
    + done.
    + rewrite flatten_items_cons. unfold items_leaf_paths. simpl.
      fold (items_leaf_paths items).
      rewrite !map_app, Permutation_app_comm.
      rewrite IHitems, (Hkv name (key_text kv.1)), map_map. done.
Qed.

Lemma ns_join_root name : _ns_join name "" = name.
Proof.
  unfold _ns_join.
  destruct (PyStr.startswith name "~" || PyStr.startswith name "/"); done.
Qed.

Lemma append_nil_l b : "" +:+ b = b.
Proof. done. Qed.

Lemma append_cons c a b : String c a +:+ b = String c (a +:+ b).
Proof. done. Qed.

Lemma append_assoc a b c : (a +:+ b) +:+ c = a +:+ b +:+ c.
Proof.
  induction a as [|x a IH]; [done |].
  by rewrite !append_cons, IH.
Qed.

Lemma append_truthy a b :
  PyStr.truthy b = true → PyStr.truthy (a +:+ b) = true.
Proof. destruct a; [by rewrite append_nil_l | by rewrite append_cons]. Qed.

Lemma last_char_cons c s :
  PyStr.truthy s = true → PyStr.last_char (String c s) = PyStr.last_char s.
Proof. by destruct s. Qed.

Lemma last_char_app a b :
  PyStr.truthy b = true → PyStr.last_char (a +:+ b) = PyStr.last_char b.
Proof.
  intros Hb. induction a as [|c a IH].
  - by rewrite append_nil_l.
  - rewrite append_cons, last_char_cons; [done | by apply append_truthy].
Qed.

Lemma append_eqb_empty a c b : String.eqb (a +:+ String c b) "" = false.
Proof. destruct a; [by rewrite append_nil_l | by rewrite append_cons]. Qed.

(** On plain names and keys [_ns_join] puts a ['/'] between the two, and
    the result is a plain name again. *)
Lemma ns_join_plain key ns :
  plain_name ns = true → plain_key key = true →
  _ns_join key ns = ns +:+ "/" +:+ key
  ∧ plain_name (ns +:+ "/" +:+ key) = true.
Proof.
  unfold plain_name, plain_key, _ns_join.
  intros Hns Hkey.
  apply andb_prop in Hns as [Hns Hslash].
  apply andb_prop in Hns as [Hns Htilde].
  apply andb_prop in Hkey as [Hkey Hkslash].
  apply andb_prop in Hkey as [Hkey Hkabs].
  apply andb_prop in Hkey as [Hkey Hkpriv].
  apply negb_true_iff in Hslash, Htilde, Hkslash, Hkabs, Hkpriv.
  split.
  - by rewrite Hkpriv, Hkabs, Htilde, Hns, Hslash.
  - assert (PyStr.truthy ("/" +:+ key) = true) as Htail by done.
    rewrite (append_truthy ns _ Htail).
    unfold PyStr.ends_with_char in *.
    rewrite (last_char_app ns _ Htail), (last_char_app "/" key Hkey), Hkslash.
    destruct ns as [|c ns]; [done |].
    rewrite append_cons. simpl.
    change (ns +:+ "/" +:+ key) with (ns +:+ String "/" key).
    rewrite append_eqb_empty. by destruct (Ascii.eqb c "~").
Qed.

Lemma joined_name_cons name key path :
  joined_name (name +:+ "/" +:+ key) path = joined_name name (key :: path).
Proof.
  unfold joined_name. destruct path as [|k path]; simpl; [done |].
  by rewrite !append_assoc.
Qed.

Lemma ns_path_joined path : ∀ name,
  plain_name name = true → Forall (λ key, plain_key key = true) path →
  ns_path name path = joined_name name path.
Proof.
  induction path as [|key path IH]; intros name Hname Hpath.
  - done.
  - inversion Hpath as [|? ? Hkey Hrest]; subst.
    destruct (ns_join_plain key name Hname Hkey) as [Hjoin Hplain].
    unfold ns_path. simpl. fold (ns_path (_ns_join key name) path).
    rewrite Hjoin, IH by done. apply joined_name_cons.
Qed.

Lemma plain_keys_dict items :
  plain_keys (YDict items)
  = forallb (λ kv, plain_key (key_text kv.1) && plain_keys kv.2) items.
Proof.
  simpl. induction items as [|kv l IH]; simpl; [done | by rewrite IH].
Qed.

Lemma plain_keys_paths v :
  plain_keys v = true →
  Forall (λ ps, Forall (λ key, plain_key key = true) ps.1) (leaf_paths v).
Proof.
  induction v as [s|items IH] using yaml_nested_ind; intros Hplain.
  - repeat constructor.
  - rewrite plain_keys_dict in Hplain. rewrite leaf_paths_dict.
    unfold items_leaf_paths.
    induction IH as [|kv items Hkv _ IHitems]; simpl.
    + constructor.
    + simpl in Hplain.
      apply andb_prop in Hplain as [Hhead Htail].
      apply andb_prop in Hhead as [Hkey Hval].
      apply Forall_app; split; [|by apply IHitems].
      apply Forall_map. eapply Forall_impl; [by apply Hkv |].
      intros ps Hps. simpl. by constructor.
Qed.

(** ** Running methods *)

Lemma run_bind {A B : Type} (m : M A) (f : A → M B) st :
  (m ≫= f) st
  = match m st with
    | (st', Ret a) => f a st'
    | (st', Raise e) => (st', Raise e)
    end.
Proof. done. Qed.

Lemma run_bind_ret {A B : Type} (m : M A) (f : A → M B) st st' a :
  m st = (st', Ret a) → (m ≫= f) st = f a st'.
Proof. intros Hm. by rewrite run_bind, Hm. Qed.

Lemma run_bind_raise {A B : Type} (m : M A) (f : A → M B) st st' e :
  m st = (st', Raise e) → (m ≫= f) st = (st', Raise e).
Proof. intros Hm. by rewrite run_bind, Hm. Qed.

Lemma run_for_each_modify {A : Type} (f : A → State → State)
    (body : A → M unit) (xs : list A) :
  (∀ x st, body x st = (f x st, Ret tt)) →
  ∀ st, for_each xs body st = (fold_left (λ st x, f x st) xs st, Ret tt).
Proof.
  intros Hbody. induction xs as [|x xs IH]; intros st; simpl; [done |].
  by rewrite (run_bind_ret _ _ _ _ _ (Hbody x st)), IH.
Qed.

Lemma run_for_each_app {A : Type} (body : A → M unit) (xs ys : list A) st :
  for_each (xs ++ ys) body st
  = match for_each xs body st with
    | (st', Ret _) => for_each ys body st'
    | (st', Raise e) => (st', Raise e)
    end.
Proof.
  revert st. induction xs as [|x xs IH]; intros st; simpl; [done |].
  rewrite !run_bind. destruct (body x st) as [st1 [[]|e]]; [apply IH | done].
Qed.

Lemma param_lists_set f st :
  param_lists (set_param_lists f st) = f (param_lists st).
Proof. done. Qed.

(** ** What [_yaml_param] emits *)

Section yaml_param_emits.
Context `{Metamodel} `{Environment}.

Lemma _yaml_param_run self name value conditions private st :
  string_keys value = true →
  _yaml_param self name value conditions private st
  = (fold_left
       (λ st item,
          emit_item self conditions (private && PyStr.startswith name "~")
            item st)
       (flatten "" name value) st,
     Ret tt).
Proof.
  intros Hkeys. unfold _yaml_param. rewrite _unfold_flatten by done.
  rewrite (run_bind_ret _ _ st st (flatten "" name value)) by done.
  apply run_for_each_modify.
  intros [[n v] ind] st'. unfold emit_item, item_committed, item_independent.
  simpl. by destruct (_ || _).
Qed.

Lemma _yaml_param_raises self name value conditions private st :
  string_keys value = false →
  _yaml_param self name value conditions private st
  = (st, Raise (AttributeError "startswith")).
Proof.
  intros Hkeys. unfold _yaml_param. rewrite _unfold_raises by done.
  by rewrite (run_bind_raise _ _ st st (AttributeError "startswith")).
Qed.

Lemma emit_items_lists self conditions private items : ∀ st ps ss,
  parameters self ≠ _params self →
  param_lists st !! parameters self = Some ps →
  param_lists st !! _params self = Some ss →
  let st' := fold_left (λ st item, emit_item self conditions private item st)
               items st in
  param_lists st' !! parameters self
  = Some (ps ++ map (item_param self conditions)
                  (List.filter (item_committed private) items))
  ∧ param_lists st' !! _params self
    = Some (ss ++ map (item_param self conditions)
                    (List.filter (λ item, negb (item_committed private item))
                       items)).
Proof.
  induction items as [|item items IH]; intros st ps ss Hne Hps Hss; simpl.
  - by rewrite !app_nil_r.
  - unfold emit_item at 2 4.
    destruct (item_committed private item) eqn:Hc; simpl.
    + edestruct (IH (set_param_lists
                       (alter (λ old, old ++ [item_param self conditions item])
                          (parameters self)) st)) as [IHp IHs]; [done | | |].
      * rewrite param_lists_set, list_lookup_alter_eq, Hps. done.
      * rewrite param_lists_set, list_lookup_alter_ne, Hss; done.
      * rewrite IHp, IHs, <- app_assoc. done.
    + edestruct (IH (set_param_lists
                       (alter (λ old, old ++ [item_param self conditions item])
                          (_params self)) st)) as [IHp IHs]; [done | | |].
      * rewrite param_lists_set, list_lookup_alter_ne, Hps; done.
      * rewrite param_lists_set, list_lookup_alter_eq, Hss. done.
      * rewrite IHp, IHs, <- app_assoc. done.
Qed.
End yaml_param_emits.

(** C6, as stated, fails: a nested key that begins with ['/'] is not
    joined to the path above it.  Under the name [p], the value
    [{a: {/b: 1}}] yields the single name [/b], not [p/a//b]. *)
Lemma unfold_absolute_key_not_joined :
  ¬ (∀ name value items,
       _unfold name value = Ret items →
       map (λ item : unfold_item, item.1.1) items
       ≡ₚ map (λ ps, joined_name name ps.1) (leaf_paths value)).
Proof.
  intros Hclaim.
  specialize (Hclaim "p"
                (YDict [(SStr "a", YDict [(SStr "/b", YLeaf (SInt 1))])])
                [("/b", SInt 1, true)] eq_refl).
  apply Permutation_singleton_l in Hclaim. discriminate Hclaim.
Qed.

(** C6 (amended).  Flattening a (nested) value whose keys are all
    strings ends and emits exactly one Parameter per non-mapping leaf
    and none for a mapping: the items of [_unfold] are, up to order, the
    leaf paths of the value, each named by joining its key path key by
    key with [_ns_join] (a key that begins with ['/'] or ['~'] starts
    the name afresh); when the name and all keys are plain this is the
    key path joined with ['/'].  [_yaml_param] appends one Parameter per
    item, to [self.parameters] or to [self._params].  When some key, at
    any depth, is not a string (the integer, boolean, float or null that
    [yaml.load] makes of such a key), [_unfold] raises [AttributeError]
    and [_yaml_param] emits no Parameter at all. *)
Theorem yaml_flattening_emits_leaves `{Metamodel} `{Environment}
    (self : LaunchScope) (name : string) (value : yaml)
    (conditions : list Condition) (private : bool) (st : State)
    (ps ss : list Param) :
  parameters self ≠ _params self →
  param_lists st !! parameters self = Some ps →
  param_lists st !! _params self = Some ss →
  let items := flatten "" name value in
  let names := map (λ item : unfold_item, (item.1.1, item.1.2)) items in
  let private' := private && PyStr.startswith name "~" in
  (string_keys value = true →
   _unfold name value = Ret items
   ∧ length items = length (leaf_paths value)
   ∧ names ≡ₚ map (λ ps, (ns_path name ps.1, ps.2)) (leaf_paths value)
   ∧ (plain_name name = true → plain_keys value = true →
      names ≡ₚ map (λ ps, (joined_name name ps.1, ps.2)) (leaf_paths value))
   ∧ ∃ st',
       _yaml_param self name value conditions private st = (st', Ret tt)
       ∧ param_lists st' !! parameters self
         = Some (ps ++ map (item_param self conditions)
                         (List.filter (item_committed private') items))
       ∧ param_lists st' !! _params self
         = Some (ss ++ map (item_param self conditions)
                         (List.filter
                            (λ item, negb (item_committed private' item))
                            items)))
  ∧ (string_keys value = false →
     _unfold name value = Raise (AttributeError "startswith")
     ∧ _yaml_param self name value conditions private st
       = (st, Raise (AttributeError "startswith"))).
Proof.
  intros Hne Hps Hss items names private'.
  split; [| intros Hkeys; split;
              [by apply _unfold_raises | by apply _yaml_param_raises]].
  intros Hstrings.
  assert (names ≡ₚ map (λ ps, (ns_path name ps.1, ps.2)) (leaf_paths value))
    as Hnames.
  { subst names items. rewrite flatten_leaf_paths. by rewrite ns_join_root. }
  split; [by apply _unfold_flatten |].
  split.
  { apply Permutation_length in Hnames. subst names.
    by rewrite !length_map in Hnames. }
  split; [done |].
  split.
  - intros Hname Hkeys. rewrite Hnames. clear Hnames.
    apply plain_keys_paths in Hkeys.
    induction Hkeys as [|path paths Hpath _ IH]; simpl; [done |].
    by rewrite (ns_path_joined _ _ Hname Hpath), IH.
  - eexists. split; [by apply _yaml_param_run |].
    by apply emit_items_lists.
Qed.

(** ** Conditions that cannot be resolved *)

Lemma config_is_not_bound : "config" ∉ module_globals.
Proof. by apply (bool_decide_unpack _). Qed.

Lemma re_is_not_bound : "re" ∉ module_globals.
Proof. by apply (bool_decide_unpack _). Qed.

(** Symbolic execution of the primitive operations on the store. *)
Ltac unfold_M :=
  unfold new_cond_list, new_remap_dict, new_arg_dict, new_param_list,
    read_conds, read_remaps, read_args, read_params, extend_conds,
    append_param, remap_setitem, arg_setitem, append_error, nodes_add,
    parameters_add, new_NodeInstance in *;
  unfold mbind, M_bind, mret, M_ret, raise, gets, modify, lift in *.

Ltac run_for_each :=
  match goal with
  | |- context [for_each ?xs (λ x st, (@?F x st, Ret tt)) ?s] =>
      rewrite (run_for_each_modify F (λ x st, (F x st, Ret tt)) xs
                 (λ _ _, eq_refl) s)
  end.

(** A fork carries the condition of its tag, and a node instance made in
    a scope carries the conditions of the scope: this much of the
    propagation is in [LaunchScope] and works for any condition it is
    given. *)
Lemma child_conditions `{Metamodel} self ns c launch args st :
  ∃ st' new,
    child self ns c launch args st = (st', Ret new)
    ∧ conditions new = with_condition (conditions self) c.
Proof. unfold child, LaunchScope_init. unfold_M. simpl. eauto. Qed.

Lemma make_node_conditions `{Metamodel} self template name ns args c st :
  ∃ st' new inst,
    make_node self template name ns args c st = (st', Ret new)
    ∧ node new = Some inst
    ∧ ni_conditions inst = with_condition (conditions self) c
    ∧ conditions new = ni_conditions inst.
Proof.
  unfold make_node, LaunchScope_init. unfold_M. simpl.
  run_for_each. eauto 10.
Qed.

(** C1: the code fails the claim.  [_condition] evaluates the name
    [config], which neither the method nor the module binds, before it
    can build the [SourceCondition]: for a tag whose conditional cannot
    be resolved the walk raises [NameError], which the dispatch loop
    does not catch, and nothing under the tag is resolved. *)
Theorem unresolved_condition_raises_NameError `{Metamodel} `{Environment}
    (fuel : nat) (t : Tag) (rest : list Tag) (scope : LaunchScope)
    (sub : SubstitutionParser) (st : State) :
  String.eqb (tag t) "error" = false →
  resolve (default ∅ (arg_dicts st !! sub_arguments sub)) (sub_dirname sub)
    (condition t).2 = Ret VNone →
  _condition (condition t) sub st = (st, Raise (NameError "config"))
  ∧ _analyse_tree (S fuel) (t :: rest) scope sub st
    = (st, Raise (NameError "config")).
Proof.
  intros Htag Hresolve.
  assert (_condition (condition t) sub st = (st, Raise (NameError "config")))
    as Hcond.
  { unfold _condition, sub_resolve, read_args, gets, lift.
    rewrite !run_bind. by rewrite Hresolve. }
  split; [done |].
  simpl. unfold analyse_children. simpl.
  rewrite run_bind. unfold analyse_tag at 1. rewrite Htag.
  unfold try_except. rewrite run_bind, Hcond. done.
Qed.

(** ** The dispatch loop *)

Section dispatch_loop.
Context `{Metamodel} `{Environment}.

Lemma _analyse_tree_unfold fuel tags scope sub :
  _analyse_tree (S fuel) tags scope sub
  = for_each tags
      (analyse_tag (λ t, _condition (condition t) sub)
         (λ t c, dispatch (_analyse_tree fuel) t c scope sub)).
Proof. done. Qed.

Lemma analyse_tag_error rc handler t st :
  String.eqb (tag t) "error" = true →
  analyse_tag rc handler t st
  = (set_errors (λ es, es ++ [text t]) st, Ret tt).
Proof. intros Htag. unfold analyse_tag. by rewrite Htag. Qed.

Lemma analyse_tag_body fuel scope sub t st :
  String.eqb (tag t) "error" = false →
  analyse_tag (λ t, _condition (condition t) sub)
    (λ t c, dispatch (_analyse_tree fuel) t c scope sub) t st
  = match tag_body fuel scope sub t st with
    | (st', Ret _) => (st', Ret tt)
    | (st', Raise (ConfigurationError value))
    | (st', Raise (SubstitutionError value)) =>
        (set_errors (λ es, es ++ [value]) st', Ret tt)
    | (st', Raise e) => (st', Raise e)
    end.
Proof.
  intros Htag. unfold analyse_tag, try_except. rewrite Htag.
  fold (tag_body fuel scope sub t).
  destruct (tag_body fuel scope sub t st) as [st' [[]|[]]]; done.
Qed.
End dispatch_loop.

(** What the loop catches.  The children of a tree node are processed
    in document order.  After the tags before it are done, an error
    child has its text appended to the error log; a tag whose condition
    or handler raises a [ConfigurationError] or a [SubstitutionError]
    has the value of the exception appended to the log, the store
    staying as the handler left it; and in both cases, as when the
    handler returns, the loop goes on with the next sibling. *)
Theorem dispatch_loop_continues `{Metamodel} `{Environment}
    (fuel : nat) (pre : list Tag) (t : Tag) (post : list Tag)
    (scope : LaunchScope) (sub : SubstitutionParser) (st st1 : State) :
  _analyse_tree (S fuel) pre scope sub st = (st1, Ret tt) →
  (String.eqb (tag t) "error" = true →
   _analyse_tree (S fuel) (pre ++ t :: post) scope sub st
   = _analyse_tree (S fuel) post scope sub
       (set_errors (λ es, es ++ [text t]) st1))
  ∧ (String.eqb (tag t) "error" = false →
     ∀ st2 value,
       tag_body fuel scope sub t st1 = (st2, Raise (ConfigurationError value))
       ∨ tag_body fuel scope sub t st1
         = (st2, Raise (SubstitutionError value)) →
       _analyse_tree (S fuel) (pre ++ t :: post) scope sub st
       = _analyse_tree (S fuel) post scope sub
           (set_errors (λ es, es ++ [value]) st2))
  ∧ (String.eqb (tag t) "error" = false →
     ∀ st2,
       tag_body fuel scope sub t st1 = (st2, Ret tt) →
       _analyse_tree (S fuel) (pre ++ t :: post) scope sub st
       = _analyse_tree (S fuel) post scope sub st2).
Proof.
  intros Hpre. rewrite !_analyse_tree_unfold in *.
  rewrite run_for_each_app, Hpre. simpl. rewrite run_bind.
  repeat split.
  - intros Htag. by rewrite analyse_tag_error.
  - intros Htag st2 value Hbody. rewrite analyse_tag_body by done.
    by destruct Hbody as [-> | ->].
  - intros Htag st2 Hbody. rewrite analyse_tag_body by done.
    by rewrite Hbody.
Qed.

(** What the loop does not catch ends the walk where it is raised: the
    tags after it are not processed. *)
Lemma uncaught_exception_ends_walk `{Metamodel} `{Environment}
    (fuel : nat) (pre : list Tag) (t : Tag) (post : list Tag)
    (scope : LaunchScope) (sub : SubstitutionParser) (st st1 st2 : State)
    (e : exn) :
  _analyse_tree (S fuel) pre scope sub st = (st1, Ret tt) →
  String.eqb (tag t) "error" = false →
  tag_body fuel scope sub t st1 = (st2, Raise e) →
  log_error e = None →
  _analyse_tree (S fuel) (pre ++ t :: post) scope sub st = (st2, Raise e).
Proof.
  intros Hpre Htag Hbody Hlog. rewrite !_analyse_tree_unfold in *.
  rewrite run_for_each_app, Hpre. simpl. rewrite run_bind.
  rewrite analyse_tag_body, Hbody by done.
  by destruct e.
Qed.

Section aborted_file.
Local Existing Instance Sample.metamodel.
Local Existing Instance Sample.environment.

(** C3: the code fails the claim.  A tag can raise what the loop does
    not catch, and then the rest of the file is not processed.  The
    file with the one tag [<param name="/q" value="2"/>] is built, and
    [/q] is a parameter of the configuration.  With
    [<param name="/p"/>] before that tag, [_param_tag] reads its local
    variable [value], which no branch has assigned: [add_launch] raises
    [UnboundLocalError], nothing is logged and [/q] is never declared.
    With a tag before it whose conditional cannot be resolved,
    [_condition] reads [config], which is not bound: [add_launch]
    raises [NameError], with the same effect. *)
Theorem one_bad_tag_aborts_the_file :
  let good := Sample.param_tag "/q" "2" in
  let no_value :=
    mkTag "param" "" (true, Some "true") None None None (Some "/p") None None
      None None None None None None None None None [] in
  let unresolved :=
    Sample.with_condition (Sample.param_tag "/p" "1")
      (true, Some "$(arg use_sim)") in
  let build tags :=
    add_launch 3 (Sample.launch_file_of tags) Sample.initial_state in
  (build [good]).2 = Ret None
  ∧ errors (build [good]).1 = []
  ∧ is_Some (cfg_parameters (build [good]).1 !! "/q")
  ∧ (build [no_value; good]).2 = Raise (UnboundLocalError "value")
  ∧ errors (build [no_value; good]).1 = []
  ∧ cfg_parameters (build [no_value; good]).1 = ∅
  ∧ concat (param_lists (build [no_value; good]).1) = []
  ∧ (build [unresolved; good]).2 = Raise (NameError "config")
  ∧ errors (build [unresolved; good]).1 = []
  ∧ cfg_parameters (build [unresolved; good]).1 = ∅
  ∧ concat (param_lists (build [unresolved; good]).1) = [].
Proof. vm_compute. repeat split; eauto. Qed.
End aborted_file.

(** ** Forks and remaps *)

Section forks.
Context `{Metamodel}.

Lemma child_run parent ns c launch args st :
  child parent ns c launch args st
  = (fork_store parent st, Ret (forked parent ns c launch args st)).
Proof. done. Qed.

Lemma remap_run self source target st :
  remap self source target st
  = (set_remap_dicts
       (alter
          (λ d, <[RosName_resolve source (namespace self)
                    (Some (private_ns self))
                  := RosName_resolve target (namespace self)
                       (Some (private_ns self))]> d)
          (remaps self)) st,
     Ret tt).
Proof. done. Qed.

Lemma fork_store_remaps parent st :
  remap_dicts (fork_store parent st)
  = remap_dicts st ++ [default ∅ (remap_dicts st !! remaps parent)].
Proof. done. Qed.
End forks.

(** C5.  A fork gets a new dictionary holding a copy of the remaps of
    its parent.  A remap declared in the fork is recorded there and
    nowhere else: every dictionary that existed when the fork was made
    (that of the parent, those of the forks made before) is as it was,
    and a fork made afterwards starts again from the remaps of the
    parent, in a dictionary of its own. *)
Theorem fork_remaps_are_independent `{Metamodel}
    (parent : LaunchScope) (ns : option string) (c : Condition)
    (launch : option LaunchFile) (args : option loc) (st : State)
    (source target : option string) (table : gmap string string) :
  remap_dicts st !! remaps parent = Some table →
  ∃ st1 fork st2,
    child parent ns c launch args st = (st1, Ret fork)
    ∧ remap fork source target st1 = (st2, Ret tt)
    ∧ remaps fork = length (remap_dicts st)
    ∧ remap_dicts st1 !! remaps fork = Some table
    ∧ remap_dicts st2 !! remaps fork
      = Some (<[RosName_resolve source (namespace fork)
                  (Some (private_ns fork))
                := RosName_resolve target (namespace fork)
                     (Some (private_ns fork))]> table)
    ∧ (∀ l, l < length (remap_dicts st) →
         remap_dicts st2 !! l = remap_dicts st !! l)
    ∧ ∀ ns' c' launch' args',
        ∃ st3 sibling,
          child parent ns' c' launch' args' st2 = (st3, Ret sibling)
          ∧ remaps sibling ≠ remaps fork
          ∧ remap_dicts st3 !! remaps sibling = Some table
          ∧ remap_dicts st3 !! remaps fork = remap_dicts st2 !! remaps fork.
Proof.
  intros Htable.
  pose proof (lookup_lt_Some _ _ _ Htable) as Hvalid.
  set (fork := forked parent ns c launch args st).
  assert (remaps fork = length (remap_dicts st)) as Hfork by done.
  assert (remap_dicts (fork_store parent st) = remap_dicts st ++ [table])
    as Hstore by (by rewrite fork_store_remaps, Htable).
  exists (fork_store parent st), fork. eexists.
  split; [apply child_run |]. split; [apply remap_run |]. split; [done |].
  cbn [remap_dicts set_remap_dicts]. rewrite Hstore, Hfork.
  split; [by rewrite lookup_app_r, Nat.sub_diag |].
  split.
  { by rewrite list_lookup_alter_eq, lookup_app_r, Nat.sub_diag. }
  split.
  { intros l Hl.
    rewrite list_lookup_alter_ne by lia. by rewrite lookup_app_l. }
  intros ns' c' launch' args'.
  rewrite child_run. do 2 eexists. split; [done |].
  rewrite fork_store_remaps.
  cbn [remaps forked remap_dicts set_remap_dicts].
  rewrite Hstore, length_alter, length_app. simpl.
  split; [lia |].
  rewrite (list_lookup_alter_ne _ _ _ (remaps parent)) by lia.
  rewrite (lookup_app_l _ _ (remaps parent)), Htable by done. simpl.
  split.
  - rewrite lookup_app_r; rewrite length_alter, length_app; simpl; [|lia].
    by rewrite Nat.sub_diag.
  - rewrite lookup_app_l; [done |].
    rewrite length_alter, length_app. simpl. lia.
Qed.

(** ** Deleting parameters *)

Section remove_param.
Context `{Metamodel}.

Lemma remove_param_missing self name ns c st :
  cfg_parameters st !! deleted_name self name ns = None →
  remove_param self name ns c st
  = (st, Raise (ConfigurationError
                  ("missing parameter: " +:+ deleted_name self name ns))).
Proof.
  intros Hmissing. unfold remove_param. unfold_M.
  fold (deleted_name self name ns). by rewrite Hmissing.
Qed.

Lemma remove_param_guarded self name ns c st param :
  is_True c = false ∨ conditions self ≠ [] →
  cfg_parameters st !! deleted_name self name ns = Some param →
  remove_param self name ns c st = (st, Ret tt).
Proof.
  intros Hguard Hparam. unfold remove_param. unfold_M.
  fold (deleted_name self name ns). rewrite Hparam.
  destruct Hguard as [-> | Hconds]; [done |].
  rewrite bool_decide_eq_false_2 by done.
  by destruct (negb (is_True c)).
Qed.

Lemma remove_param_unguarded self name ns st param :
  conditions self = [] →
  cfg_parameters st !! deleted_name self name ns = Some param →
  remove_param self name ns CTrue st = (st, Raise (AttributeError "resources")).
Proof.
  intros Hconds Hparam. unfold remove_param. unfold_M.
  fold (deleted_name self name ns). rewrite Hparam, Hconds. done.
Qed.
End remove_param.

(** C7.  A [rosparam delete] under a conditional guard (its own
    condition is not [True], or the scope has conditions) changes
    nothing: the store after [remove_param] is the store before it, so
    a parameter of the configuration is still there, and for such a
    parameter the call returns. *)
Theorem guarded_delete_is_noop `{Metamodel}
    (self : LaunchScope) (name ns : option string) (c : Condition)
    (st : State) :
  is_True c = false ∨ conditions self ≠ [] →
  (remove_param self name ns c st).1 = st
  ∧ ∀ param,
      cfg_parameters st !! deleted_name self name ns = Some param →
      remove_param self name ns c st = (st, Ret tt)
      ∧ cfg_parameters (remove_param self name ns c st).1
          !! deleted_name self name ns = Some param.
Proof.
  intros Hguard.
  destruct (cfg_parameters st !! deleted_name self name ns) as [param|]
    eqn:Hparam.
  - rewrite (remove_param_guarded _ _ _ _ _ param) by done.
    split; [done |]. intros ? [= <-]. done.
  - rewrite remove_param_missing by done. done.
Qed.

(** ** What a walk leaves untouched *)

Section keeps.
Context {X : Type} (f : State → X).

Lemma keeps_ret {A} (a : A) : keeps f (mret a).
Proof. done. Qed.

Lemma keeps_raise {A} e : keeps f (raise (A := A) e).
Proof. done. Qed.

Lemma keeps_gets {A} (g : State → A) : keeps f (gets g).
Proof. done. Qed.

Lemma keeps_lift {A} (o : outcome A) : keeps f (lift o).
Proof. done. Qed.

Lemma keeps_modify g : (∀ st, f (g st) = f st) → keeps f (modify g).
Proof. intros Hg st. apply Hg. Qed.

Lemma keeps_bind {A B} (m : M A) (k : A → M B) :
  keeps f m → (∀ a, keeps f (k a)) → keeps f (m ≫= k).
Proof.
  intros Hm Hk st. rewrite run_bind. specialize (Hm st).
  destruct (m st) as [st' [a|e]]; simpl in *; [|done].
  by rewrite Hk.
Qed.

Lemma keeps_try_except {A} (body : M A) handler :
  keeps f body → (∀ e h, handler e = Some h → keeps f h) →
  keeps f (try_except body handler).
Proof.
  intros Hbody Hhandler st. unfold try_except. specialize (Hbody st).
  destruct (body st) as [st' [a|e]]; simpl in *; [done |].
  destruct (handler e) as [h|] eqn:He; [|done].
  by rewrite (Hhandler e h He).
Qed.

Lemma keeps_for_each {A} (xs : list A) body :
  (∀ x, keeps f (body x)) → keeps f (for_each xs body).
Proof.
  intros Hbody. induction xs as [|x xs IH]; [done |].
  simpl. by apply keeps_bind.
Qed.
End keeps.

Create HintDb keeps.

Ltac keeps_step :=
  match goal with
  | |- keeps _ _ => solve [eauto with keeps]
  | H : keeps ?f ?m |- keeps ?f ?m => exact H
  | H : ∀ a, keeps ?f _ |- keeps ?f _ => apply H
  | H : ∀ a b, keeps ?f _ |- keeps ?f _ => apply H
  | H : ∀ a b c, keeps ?f _ |- keeps ?f _ => apply H
  | |- keeps _ (mret _) => apply keeps_ret
  | |- keeps _ (raise _) => apply keeps_raise
  | |- keeps _ (gets _) => apply keeps_gets
  | |- keeps _ (lift _) => apply keeps_lift
  | |- keeps _ (modify _) => apply keeps_modify; intros ?; reflexivity
  | |- keeps _ (_ ≫= _) => apply keeps_bind; [| intros ?]
  | |- keeps _ (for_each _ _) => apply keeps_for_each; intros ?
  | |- keeps _ (if ?b then _ else _) => destruct b
  | |- keeps _ (match ?x with _ => _ end) => destruct x
  end.

Ltac keeps_auto := repeat keeps_step; try (intros ?; reflexivity).

Section keeps_parameters.
Context `{Metamodel} `{Environment}.

Abbreviation kp := (keeps cfg_parameters).

Lemma kp_LaunchScope_init parent launch ns nd r p a c :
  kp (LaunchScope_init parent launch ns nd r p a c).
Proof. unfold LaunchScope_init. keeps_auto. Qed.
Hint Resolve kp_LaunchScope_init : keeps.

Lemma kp_child self ns c launch args : kp (child self ns c launch args).
Proof. unfold child. keeps_auto. Qed.
Hint Resolve kp_child : keeps.

Lemma kp_remap self source target : kp (remap self source target).
Proof. unfold remap. keeps_auto. Qed.
Hint Resolve kp_remap : keeps.

Lemma kp_make_node self template name ns args c :
  kp (make_node self template name ns args c).
Proof. unfold make_node. keeps_auto. Qed.
Hint Resolve kp_make_node : keeps.

Lemma kp_yaml_param self name value conditions private :
  kp (_yaml_param self name value conditions private).
Proof. unfold _yaml_param. keeps_auto. Qed.
Hint Resolve kp_yaml_param : keeps.

Lemma kp_make_params self name ptype value c :
  kp (make_params self name ptype value c).
Proof. unfold make_params. keeps_auto. Qed.
Hint Resolve kp_make_params : keeps.

Lemma kp_make_rosparam self name ns value c :
  kp (make_rosparam self name ns value c).
Proof.
  unfold make_rosparam, import_rosparam. keeps_auto.
  apply keeps_try_except; [keeps_auto |].
  intros [] h [= <-]; keeps_auto.
Qed.
Hint Resolve kp_make_rosparam : keeps.

Lemma kp_remove_param self name ns c : kp (remove_param self name ns c).
Proof. unfold remove_param, getattr. keeps_auto. Qed.
Hint Resolve kp_remove_param : keeps.

Lemma kp_new_Topic rosname type : kp (new_Topic rosname type).
Proof. unfold new_Topic. keeps_auto. Qed.
Hint Resolve kp_new_Topic : keeps.

Lemma kp_new_Service rosname type : kp (new_Service rosname type).
Proof. unfold new_Service. keeps_auto. Qed.
Hint Resolve kp_new_Service : keeps.

Lemma kp_re_match pattern s : kp (re_match pattern s).
Proof. unfold re_match, global_name. keeps_auto. Qed.
Hint Resolve kp_re_match : keeps.

Lemma kp_lookup_scan {R} `{Resource R} matcher pattern type entries :
  (∀ p s, kp (matcher p s)) →
  ∀ candidate : option R,
    kp (lookup_scan matcher pattern type entries candidate).
Proof.
  intros Hmatcher.
  induction entries as [|[rosname resource] entries IH]; intros candidate;
    simpl; keeps_auto.
Qed.

Hint Resolve kp_lookup_scan : keeps.

Lemma kp_lookup_resource {R} `{Resource R} name type
    (collection : list R) hints :
  kp (_lookup_resource name type collection hints).
Proof. unfold _lookup_resource, lookup_with. keeps_auto. Qed.
Hint Resolve kp_lookup_resource : keeps.

Lemma kp_make_topic_link self inst name ns pns type queue conditions hints :
  kp (_make_topic_link self inst name ns pns type queue conditions hints).
Proof. unfold _make_topic_link. keeps_auto. Qed.
Hint Resolve kp_make_topic_link : keeps.

Lemma kp_make_service_link self inst name ns pns type conditions hints :
  kp (_make_service_link self inst name ns pns type conditions hints).
Proof. unfold _make_service_link. keeps_auto. Qed.
Hint Resolve kp_make_service_link : keeps.

Lemma kp_update_conditions_loop get set links :
  kp get → (∀ c, kp (set c)) → kp (update_conditions_loop get set links).
Proof.
  intros Hget Hset.
  induction links as [|[node_conditions link_conditions] links IH]; simpl;
    keeps_auto.
Qed.

Hint Resolve kp_update_conditions_loop : keeps.

Lemma kp_update_topic_conditions topic : kp (_update_topic_conditions topic).
Proof.
  unfold _update_topic_conditions, topic_state, modify_topic.
  keeps_auto; apply kp_update_conditions_loop; intros; keeps_auto.
Qed.
Hint Resolve kp_update_topic_conditions : keeps.

Lemma kp_update_service_conditions service :
  kp (_update_service_conditions service).
Proof.
  unfold _update_service_conditions, service_state, modify_service.
  keeps_auto; apply kp_update_conditions_loop; intros; keeps_auto.
Qed.
Hint Resolve kp_update_service_conditions : keeps.

Lemma kp_make_topics self hints : kp (make_topics self hints).
Proof.
  unfold make_topics, modify_node_links, modify_topic. keeps_auto.
Qed.
Hint Resolve kp_make_topics : keeps.

Lemma kp_make_services self hints : kp (make_services self hints).
Proof.
  unfold make_services, modify_node_links, modify_service. keeps_auto.
Qed.
Hint Resolve kp_make_services : keeps.

Lemma kp_sub_resolve sub e : kp (sub_resolve sub e).
Proof. unfold sub_resolve. keeps_auto. Qed.
Hint Resolve kp_sub_resolve : keeps.

Lemma kp_sub_resolve_strict sub e : kp (sub_resolve_strict sub e).
Proof. unfold sub_resolve_strict. keeps_auto. Qed.
Hint Resolve kp_sub_resolve_strict : keeps.

Lemma kp_condition c sub : kp (_condition c sub).
Proof. unfold _condition, global_name. keeps_auto. Qed.
Hint Resolve kp_condition : keeps.

Lemma kp_get_node pkg exe args : kp (_get_node pkg exe args).
Proof. unfold _get_node. keeps_auto. Qed.
Hint Resolve kp_get_node : keeps.

Lemma kp_comm_hint_rosname name pns scope :
  kp (comm_hint_rosname name pns scope).
Proof. unfold comm_hint_rosname. keeps_auto. Qed.
Hint Resolve kp_comm_hint_rosname : keeps.

Lemma kp_topic_hints entries pns scope :
  ∀ topics, kp (topic_hints entries pns scope topics).
Proof.
  induction entries as [|[name type] entries IH]; intros topics; simpl;
    keeps_auto.
Qed.
Hint Resolve kp_topic_hints : keeps.

Lemma kp_service_hints entries pns scope :
  ∀ services, kp (service_hints entries pns scope services).
Proof.
  induction entries as [|[name type] entries IH]; intros services; simpl;
    keeps_auto.
Qed.
Hint Resolve kp_service_hints : keeps.

Lemma kp_make_comm_hints hints scope : kp (_make_comm_hints hints scope).
Proof. unfold _make_comm_hints. keeps_auto. Qed.
Hint Resolve kp_make_comm_hints : keeps.

Lemma kp_dispatch analyse t c scope sub :
  (∀ tags scope sub, kp (analyse tags scope sub)) →
  kp (dispatch analyse t c scope sub).
Proof.
  intros Hanalyse.
  unfold dispatch, getattr, _node_tag, _include_tag, _remap_tag, _param_tag,
    _rosparam_tag, _group_tag, _arg_tag, _env_tag, _machine_tag, _test_tag,
    assert_no_children, concat_str.
  keeps_auto.
  apply keeps_try_except; [keeps_auto |].
  intros [] h [= <-]; keeps_auto.
Qed.

Lemma kp_analyse_tag rc handler t :
  (∀ t, kp (rc t)) → (∀ t c, kp (handler t c)) →
  kp (analyse_tag rc handler t).
Proof.
  intros Hrc Hhandler. unfold analyse_tag. keeps_auto.
  apply keeps_try_except; [keeps_auto |].
  intros [] h [= <-]; unfold append_error; keeps_auto.
Qed.

Lemma kp_analyse_tree fuel :
  ∀ tags scope sub, kp (_analyse_tree fuel tags scope sub).
Proof.
  induction fuel as [|fuel IH]; intros tags scope sub; simpl.
  - keeps_auto.
  - unfold analyse_children. apply keeps_for_each. intros t.
    apply kp_analyse_tag; [intros ?; keeps_auto |].
    intros t' c. by apply kp_dispatch.
Qed.
End keeps_parameters.

Lemma add_launch_run `{Metamodel} `{Environment} fuel launch tree st :
  lf_language launch = "launch" → lf_tree launch = Some tree →
  add_launch fuel launch st
  = match _analyse_tree fuel tree (launch_start launch st).1.2
            (launch_start launch st).2 (launch_start launch st).1.1 with
    | (st1, Ret _) =>
        (commit
           (default []
              (param_lists st1 !! parameters (launch_start launch st).1.2))
           st1,
         Ret None)
    | (st1, Raise e) => (st1, Raise e)
    end.
Proof.
  intros Hlang Htree. unfold add_launch. rewrite Hlang, Htree. simpl.
  unfold LaunchScope_init. unfold_M. simpl.
  destruct (_analyse_tree _ _ _ _ _) as [st1 [[]|e]]; [|done].
  match goal with
  | |- context [for_each ?xs ?body st1] =>
      rewrite (run_for_each_modify
                 (λ param, set_cfg_parameters
                    (λ ps, <[full (p_rosname param) := param]> ps))
                 body xs (λ _ _, eq_refl) st1)
  end.
  done.
Qed.

(** C9.  [remove_param] looks the name up in the committed parameters
    of the configuration before it looks at the guard: for a name that
    is not there it raises [ConfigurationError], whatever the condition
    of the tag and the conditions of the scope.  A walk never changes
    the committed parameters ([add_launch] commits the parameters of the
    file after the walk), so for a name that is not committed when the
    walk starts the delete raises after any tags of the file, whatever
    they declared. *)
Theorem delete_of_uncommitted_parameter_raises `{Metamodel} `{Environment}
    (self : LaunchScope) (name ns : option string) (c : Condition)
    (st : State) :
  cfg_parameters st !! deleted_name self name ns = None →
  remove_param self name ns c st
  = (st, Raise (ConfigurationError
                  ("missing parameter: " +:+ deleted_name self name ns)))
  ∧ (∀ fuel tags scope sub,
       cfg_parameters (_analyse_tree fuel tags scope sub st).1
       = cfg_parameters st)
  ∧ (∀ fuel pre scope sub st1 o,
       _analyse_tree fuel pre scope sub st = (st1, o) →
       remove_param self name ns c st1
       = (st1, Raise (ConfigurationError
                        ("missing parameter: "
                         +:+ deleted_name self name ns))))
  ∧ (∀ fuel launch tree,
       lf_language launch = "launch" → lf_tree launch = Some tree →
       cfg_parameters (launch_start launch st).1.1 = cfg_parameters st
       ∧ add_launch fuel launch st
         = match _analyse_tree fuel tree (launch_start launch st).1.2
                   (launch_start launch st).2 (launch_start launch st).1.1
           with
           | (st1, Ret _) =>
               (commit
                  (default []
                     (param_lists st1
                        !! parameters (launch_start launch st).1.2))
                  st1,
                Ret None)
           | (st1, Raise e) => (st1, Raise e)
           end).
Proof.
  intros Hmissing.
  split; [by apply remove_param_missing |].
  split; [intros; apply kp_analyse_tree |].
  split.
  - intros fuel pre scope sub st1 o Hwalk.
    apply remove_param_missing.
    pose proof (kp_analyse_tree fuel pre scope sub st) as Hkeep.
    rewrite Hwalk in Hkeep. simpl in Hkeep. by rewrite Hkeep.
  - intros fuel launch tree Hlang Htree.
    split; [done | by apply add_launch_run].
Qed.

(** ** Staged private parameters *)

Section staging.
Context `{Metamodel}.

Lemma fold_append_params (g : Param → Param) (l : loc) xs : ∀ st,
  let st' := fold_left
               (λ st x, set_param_lists (alter (λ old, old ++ [g x]) l) st)
               xs st in
  param_lists st' = alter (λ old, old ++ map g xs) l (param_lists st)
  ∧ cond_lists st' = cond_lists st ∧ remap_dicts st' = remap_dicts st
  ∧ cfg_nodes st' = cfg_nodes st ∧ cfg_parameters st' = cfg_parameters st.
Proof.
  induction xs as [|x xs IH]; intros st; simpl.
  - split; [|done]. symmetry. apply list_alter_id. intros old.
    by rewrite app_nil_r.
  - destruct (IH (set_param_lists (alter (λ old, old ++ [g x]) l) st))
      as (-> & -> & -> & -> & ->).
    split; [|done]. simpl. rewrite list_alter_alter_eq.
    apply list_alter_ext; [|done]. intros old _. simpl.
    by rewrite <- app_assoc.
Qed.

(** What [make_node] does to the lists of parameters: the staging list
    of the scope is kept, one re-homed parameter per staged one is
    appended to the shared list, and the new scope starts with a copy of
    the staging list. *)
Lemma make_node_staging self template name ns args c st staged committed :
  parameters self ≠ _params self →
  param_lists st !! _params self = Some staged →
  param_lists st !! parameters self = Some committed →
  ∃ st' new inst,
    make_node self template name ns args c st = (st', Ret new)
    ∧ node new = Some inst
    ∧ private_ns new = full (ni_rosname inst)
    ∧ ni_conditions inst = with_condition (conditions self) c
    ∧ parameters new = parameters self
    ∧ _params new = length (param_lists st)
    ∧ param_lists st' !! _params self = Some staged
    ∧ param_lists st' !! _params new = Some staged
    ∧ param_lists st' !! parameters self
      = Some (committed ++ map (rehomed inst) staged)
    ∧ length (param_lists st') = S (length (param_lists st)).
Proof.
  intros Hne Hstaged Hcommitted.
  pose proof (lookup_lt_Some _ _ _ Hstaged).
  pose proof (lookup_lt_Some _ _ _ Hcommitted).
  unfold make_node, LaunchScope_init. unfold_M. simpl.
  rewrite Hstaged. simpl.
  rewrite lookup_app_l, Hstaged by done. simpl.
  match goal with
  | |- context [for_each staged ?body ?s] =>
      rewrite (run_for_each_modify
                 (λ param, set_param_lists
                    (alter (λ old, old ++ [rehomed _ param])
                       (parameters self)))
                 body staged (λ _ _, eq_refl) s)
  end.
  match goal with
  | |- context [fold_left ?step staged ?s] =>
      destruct (fold_append_params (rehomed
        (mkNodeInstance (length (node_links st))
           (RosName_new
              (if PyStr.truthy_opt name then name
               else Some (own (node_rosname template)))
              (Some (_namespace self ns false)) (Some (private_ns self)) None)
           template (launch_file self) args (length (remap_dicts st))
           (with_condition (conditions self) c)))
        (parameters self) staged s) as (Hp & _)
  end.
  do 3 eexists. split; [done |]. simpl.
  split; [done |]. split; [done |]. split; [done |]. split; [done |].
  split; [done |].
  rewrite Hp. simpl.
  split.
  { rewrite list_lookup_alter_ne, lookup_app_l by done. done. }
  split.
  { rewrite list_lookup_alter_ne, lookup_app_r, Nat.sub_diag by lia. done. }
  split.
  { rewrite list_lookup_alter_eq, lookup_app_l, Hcommitted by done. done. }
  rewrite length_alter, length_app. simpl. lia.
Qed.

(** A fork starts with a copy of the staging list of its parent, and
    shares its list of parameters. *)
Lemma child_staging self ns c launch args st staged :
  param_lists st !! _params self = Some staged →
  ∃ st' fork,
    child self ns c launch args st = (st', Ret fork)
    ∧ node fork = None
    ∧ parameters fork = parameters self
    ∧ _params fork = length (param_lists st)
    ∧ param_lists st' !! _params fork = Some staged
    ∧ (∀ l, l < length (param_lists st) →
         param_lists st' !! l = param_lists st !! l)
    ∧ length (param_lists st') = S (length (param_lists st)).
Proof.
  intros Hstaged. rewrite child_run. do 2 eexists. split; [done |].
  unfold fork_store, forked. simpl. rewrite Hstaged. simpl.
  split; [done |]. split; [done |]. split; [done |].
  split; [by rewrite lookup_app_r, Nat.sub_diag |].
  split; [intros l Hl; by rewrite lookup_app_l |].
  rewrite length_app. simpl. lia.
Qed.
End staging.

(** [make_params] stages a private parameter declared outside any
    process scope: it goes to the staging list, not to the shared list
    of parameters. *)
Lemma make_params_stages `{Metamodel} `{Environment}
    self name ptype text c st value :
  node self = None →
  _convert_value text ptype = Ret value →
  PyStr.opt_eqb (Parameter_type_of value) "yaml" || is_dict value = false →
  is_private
    (RosName_new name (Some (private_ns self)) (Some (private_ns self)) None)
    = true →
  make_params self name ptype (Some text) c st
  = (set_param_lists
       (alter
          (λ old,
             old ++
             [mkParam
                (RosName_new name (Some (private_ns self))
                   (Some (private_ns self)) None)
                (Parameter_type_of value) value false
                (with_condition (conditions self) c)])
          (_params self)) st,
     Ret tt).
Proof.
  intros Hnode Hconvert Hscalar Hprivate.
  unfold make_params. unfold_M. rewrite Hconvert, Hscalar, Hnode, Hprivate.
  done.
Qed.

(** C10.  Entering a process scope does not clear the staging list: the
    first node made in a scope re-homes every staged parameter under
    its own name, appending one Parameter to the shared list of
    parameters, and leaves the staging list as it was; a later node in
    the same scope, and a node in a scope forked afterwards (which starts
    with a copy of the staging list), re-home the same staged parameters
    again, one more Parameter per process. *)
Theorem staged_parameters_rehomed_by_every_node `{Metamodel}
    (self : LaunchScope) (st : State) (staged committed : list Param)
    (template1 template2 template3 : Node)
    (name1 ns1 args1 name2 ns2 args2 name3 ns3 args3 : option string)
    (c1 c2 c3 : Condition)
    (fork_ns : option string) (fork_condition : Condition)
    (fork_launch : option LaunchFile) (fork_args : option loc) :
  parameters self ≠ _params self →
  param_lists st !! _params self = Some staged →
  param_lists st !! parameters self = Some committed →
  ∃ st1 scope1 inst1 st2 scope2 inst2 st3 fork st4 scope3 inst3,
    make_node self template1 name1 ns1 args1 c1 st = (st1, Ret scope1)
    ∧ node scope1 = Some inst1
    ∧ param_lists st1 !! _params self = Some staged
    ∧ param_lists st1 !! _params scope1 = Some staged
    ∧ param_lists st1 !! parameters self
      = Some (committed ++ map (rehomed inst1) staged)
    ∧ make_node self template2 name2 ns2 args2 c2 st1 = (st2, Ret scope2)
    ∧ node scope2 = Some inst2
    ∧ param_lists st2 !! _params self = Some staged
    ∧ param_lists st2 !! parameters self
      = Some (committed ++ map (rehomed inst1) staged
                ++ map (rehomed inst2) staged)
    ∧ child self fork_ns fork_condition fork_launch fork_args st2
      = (st3, Ret fork)
    ∧ param_lists st3 !! _params fork = Some staged
    ∧ make_node fork template3 name3 ns3 args3 c3 st3 = (st4, Ret scope3)
    ∧ node scope3 = Some inst3
    ∧ param_lists st4 !! parameters self
      = Some (committed ++ map (rehomed inst1) staged
                ++ map (rehomed inst2) staged ++ map (rehomed inst3) staged).
Proof.
  intros Hne Hstaged Hcommitted.
  destruct (make_node_staging self template1 name1 ns1 args1 c1 st
              staged committed Hne Hstaged Hcommitted)
    as (st1 & scope1 & inst1 & Hrun1 & Hnode1 & _ & _ & _ & Hp1 & Hs1 & Hn1
        & Hc1 & Hl1).
  destruct (make_node_staging self template2 name2 ns2 args2 c2 st1
              staged _ Hne Hs1 Hc1)
    as (st2 & scope2 & inst2 & Hrun2 & Hnode2 & _ & _ & _ & _ & Hs2 & _
        & Hc2 & Hl2).
  destruct (child_staging self fork_ns fork_condition fork_launch fork_args
              st2 staged Hs2)
    as (st3 & fork & Hrun3 & _ & Hfp & Hfs & Hs3 & Hold3 & Hl3).
  pose proof (lookup_lt_Some _ _ _ Hc2) as Hvalid.
  assert (parameters fork ≠ _params fork) as Hne3 by (rewrite Hfp, Hfs; lia).
  assert (param_lists st3 !! parameters fork
          = Some ((committed ++ map (rehomed inst1) staged)
                    ++ map (rehomed inst2) staged)) as Hc3.
  { rewrite Hfp, Hold3 by done. done. }
  destruct (make_node_staging fork template3 name3 ns3 args3 c3 st3
              staged _ Hne3 Hs3 Hc3)
    as (st4 & scope3 & inst3 & Hrun4 & Hnode4 & _ & _ & _ & _ & _ & _
        & Hc4 & _).
  rewrite Hfp in Hc4. rewrite <- !List.app_assoc in Hc4, Hc2.
  exists st1, scope1, inst1, st2, scope2, inst2, st3, fork, st4, scope3, inst3.
  repeat split; try done.
  rewrite Hc4. f_equal. by rewrite <- (List.app_assoc committed).
Qed.

(** ** Looking up and creating topics and services *)

Section lookup.
Context `{Environment} {R : Type} `{Resource R}.

Lemma lookup_literal name type (collection : list R) hints st :
  PyStr.contains_char "?" name = false →
  _lookup_resource name type collection hints st
  = (st, Ret (collection_get collection name)).
Proof.
  intros Hliteral. unfold _lookup_resource, lookup_with.
  by rewrite Hliteral.
Qed.

Lemma lookup_scan_pure matcher m pattern type entries :
  (∀ p s st, matcher p s st = (st, Ret (m p s))) →
  ∀ (candidate : option R) st,
    lookup_scan matcher pattern type entries candidate st
    = (st,
       Ret (match List.find
                    (λ e, m pattern e.1 && String.eqb (res_type e.2) type)
                    entries with
            | Some e => inl e.2
            | None =>
                inr (match candidate with
                     | Some c => Some c
                     | None => snd <$> List.find (λ e, m pattern e.1) entries
                     end)
            end)).
Proof.
  intros Hmatcher.
  induction entries as [|[rosname resource] entries IH];
    intros candidate st; simpl.
  - by destruct candidate.
  - rewrite run_bind, Hmatcher.
    destruct (m pattern rosname); simpl; [|apply IH].
    destruct (String.eqb (res_type resource) type); [done |].
    rewrite IH. by destruct candidate.
Qed.

Lemma find_app {A} (P : A → bool) (xs ys : list A) :
  List.find P (xs ++ ys)
  = match List.find P xs with
    | Some x => Some x
    | None => List.find P ys
    end.
Proof. induction xs as [|x xs IH]; simpl; [done |]. by destruct (P x). Qed.

(** What the scan computes for a matcher that answers: the first match
    whose type agrees, else the first match of any type.  The matcher of
    the module, [re.match] with [re] unbound, is not one: see
    [lookup_wildcard_raises]. *)
Lemma lookup_with_pure matcher m name type (collection : list R) hints st :
  (∀ p s st, matcher p s st = (st, Ret (m p s))) →
  PyStr.contains_char "?" name = true →
  lookup_with matcher name type collection hints st
  = (st, Ret (first_match m (pattern_of name) type (scanned collection hints))).
Proof.
  intros Hmatcher Hwild. unfold lookup_with, first_match, scanned.
  rewrite Hwild. simpl. fold (pattern_of name).
  rewrite run_bind, (lookup_scan_pure matcher m) by done.
  rewrite !find_app.
  destruct (List.find _ hints) as [e|]; [done |].
  rewrite run_bind, (lookup_scan_pure matcher m) by done.
  destruct (List.find _ (map _ collection)) as [e|]; [done |].
  by destruct (List.find _ hints).
Qed.

Lemma lookup_nothing_to_scan name type st :
  _lookup_resource name type ([] : list R) [] st = (st, Ret None).
Proof.
  unfold _lookup_resource, lookup_with.
  by destruct (PyStr.contains_char "?" name).
Qed.

(** In the module as it is, [re] is not bound: a name with a wildcard
    marker raises as soon as there is an entry to match. *)
Lemma lookup_wildcard_raises name type (collection : list R) hints st :
  PyStr.contains_char "?" name = true →
  scanned collection hints ≠ [] →
  _lookup_resource name type collection hints st
  = (st, Raise (NameError "re")).
Proof.
  intros Hwild Hscan. unfold _lookup_resource, lookup_with, scanned in *.
  rewrite Hwild. simpl.
  destruct hints as [|[rosname resource] hints]; simpl.
  - destruct collection as [|resource collection]; done.
  - done.
Qed.
End lookup.

Section topic_links.
Context `{Metamodel} `{Environment}.

Lemma collection_get_name (collection : list Topic) name topic :
  collection_get collection name = Some topic →
  full (t_rosname topic) = name.
Proof.
  unfold collection_get. intros Hfind.
  apply List.find_some in Hfind as [_ Heq]. by apply String.eqb_eq in Heq.
Qed.

Lemma make_topic_link_new self inst name ns pns type queue conditions hints st :
  let rosname := link_rosname self inst name ns pns st in
  let topic := mkTopic (length (topic_objs st)) rosname type in
  _lookup_resource (full rosname) type (cfg_topics st) hints st
  = (st, Ret None) →
  collection_get (cfg_topics st) (full rosname) = None →
  _make_topic_link self inst name ns pns type queue conditions hints st
  = (with_new_topic topic st,
     Ret (link_to self inst topic name ns pns type queue conditions)).
Proof.
  intros rosname topic Hlookup Habsent.
  unfold _make_topic_link, new_Topic. unfold_M. simpl.
  fold (link_rosname self inst name ns pns st). fold rosname.
  rewrite Hlookup. simpl. fold topic. by rewrite Habsent.
Qed.

Lemma make_topic_link_found self inst name ns pns type queue conditions hints
    st topic :
  let rosname := link_rosname self inst name ns pns st in
  _lookup_resource (full rosname) type (cfg_topics st) hints st
  = (st, Ret (Some topic)) →
  is_Some (collection_get (cfg_topics st) (full (t_rosname topic))) →
  _make_topic_link self inst name ns pns type queue conditions hints st
  = (st, Ret (link_to self inst topic name ns pns type queue conditions)).
Proof.
  intros rosname Hlookup [existing Hpresent].
  unfold _make_topic_link. unfold_M. simpl.
  fold (link_rosname self inst name ns pns st). fold rosname.
  rewrite Hlookup. simpl. by rewrite Hpresent.
Qed.

(** For a name without wildcard marker: the first reference creates the
    topic and adds it to the collection; a later reference links to the
    topic that is there, and creates nothing. *)
Lemma make_topic_link_literal self inst name ns pns type queue conditions
    hints st :
  let rosname := link_rosname self inst name ns pns st in
  PyStr.contains_char "?" (full rosname) = false →
  match collection_get (cfg_topics st) (full rosname) with
  | None =>
      _make_topic_link self inst name ns pns type queue conditions hints st
      = (with_new_topic (mkTopic (length (topic_objs st)) rosname type) st,
         Ret (link_to self inst (mkTopic (length (topic_objs st)) rosname type)
                name ns pns type queue conditions))
  | Some topic =>
      _make_topic_link self inst name ns pns type queue conditions hints st
      = (st, Ret (link_to self inst topic name ns pns type queue conditions))
  end.
Proof.
  intros rosname Hliteral.
  destruct (collection_get (cfg_topics st) (full rosname)) as [topic|]
    eqn:Hget.
  - apply make_topic_link_found.
    + fold rosname. by rewrite lookup_literal, Hget.
    + rewrite (collection_get_name _ _ _ Hget). fold rosname. by rewrite Hget.
  - apply make_topic_link_new; fold rosname; [|done].
    by rewrite lookup_literal, Hget.
Qed.
End topic_links.



(** C4: the code fails the claim for a name with a wildcard marker.  The
    first process that advertises [/scan/?] creates the topic; the
    reference of the second process to the same name does not link to
    it: matching the name against the topic evaluates [re], which the
    module never imports, and raises [NameError]. *)
Theorem wildcard_name_referenced_twice_raises :
  let result := Sample.two_scanners Sample.initial_state in
  result.2 = Raise (NameError "re")
  ∧ Sample.topics_and_links result.1 = [("/scan/?", 1, 0)].
Proof. vm_compute. done. Qed.

(** For a name without wildcard marker the claim holds: two processes
    that refer to [/chatter] share one topic, with one link each. *)
Lemma same_name_one_topic_two_links :
  let result := Sample.talker_and_listener Sample.initial_state in
  result.2 = Ret tt
  ∧ Sample.topics_and_links result.1 = [("/chatter", 1, 1)].
Proof. vm_compute. done. Qed.


(** ** Recomputing the condition list of a topic or service *)

Lemma aggregate_pass_ext h1 h2 links : ∀ acc,
  Forall (λ link : list Condition * loc, h1 !! link.2 = h2 !! link.2) links →
  aggregate_pass h1 acc links = aggregate_pass h2 acc links.
Proof.
  induction links as [|[nc lc] links IH]; intros acc Hsame; [done |].
  inversion Hsame as [|? ? Hhead Htail]; subst. simpl in *.
  rewrite Hhead. destruct (bool_decide (nc = [])); [done |]. by apply IH.
Qed.

(** A pass that meets an unconditional node yields the list of its
    link, whatever came before. *)
Lemma aggregate_pass_unconditional heap pre lc post : ∀ acc,
  Forall (λ link : list Condition * loc, link.1 ≠ []) pre →
  aggregate_pass heap acc (pre ++ ([], lc) :: post) = default [] (heap !! lc).
Proof.
  induction pre as [|[nc lc'] pre IH]; intros acc Hpre; [done |].
  inversion Hpre as [|? ? Hhead Htail]; subst. simpl in *.
  rewrite bool_decide_eq_false_2 by done. by apply IH.
Qed.

(** A pass over conditional nodes only adds, link by link, the
    conditions of the node followed by those of the link. *)
Lemma aggregate_pass_conditional heap links : ∀ acc,
  Forall (λ link : list Condition * loc, link.1 ≠ []) links →
  aggregate_pass heap acc links
  = acc ++ concat (map (λ link, link.1 ++ default [] (heap !! link.2)) links).
Proof.
  induction links as [|[nc lc] links IH]; intros acc Hlinks; simpl.
  - by rewrite app_nil_r.
  - inversion Hlinks as [|? ? Hhead Htail]; subst. simpl in *.
    rewrite bool_decide_eq_false_2 by done.
    rewrite IH by done. by rewrite <- !List.app_assoc.
Qed.

Section conditions_loop.
(** [attr] reads the attribute [conditions] of the topic or service,
    [upd] assigns it; [obs] is anything else that is to be kept. *)
Context {X : Type}.
Variables (attr : State → loc) (upd : loc → State → State).
Variables (valid : State → Prop) (obs : State → X).
Variables (get : M loc) (set : loc → M unit).
Hypothesis get_run : ∀ st, get st = (st, Ret (attr st)).
Hypothesis set_run : ∀ c st, set c st = (upd c st, Ret tt).
Hypothesis attr_upd : ∀ c st, valid st → attr (upd c st) = c.
Hypothesis valid_upd : ∀ c st, valid st → valid (upd c st).
Hypothesis conds_upd : ∀ c st, cond_lists (upd c st) = cond_lists st.
Hypothesis obs_upd : ∀ c st, obs (upd c st) = obs st.
Hypothesis attr_conds : ∀ f st, attr (set_cond_lists f st) = attr st.
Hypothesis valid_conds : ∀ f st, valid st → valid (set_cond_lists f st).
Hypothesis obs_conds : ∀ f st, obs (set_cond_lists f st) = obs st.

Lemma update_conditions_loop_run links : ∀ st acc,
  valid st →
  cond_lists st !! attr st = Some acc →
  Forall (λ link : list Condition * loc,
            link.2 ≠ attr st ∧ link.2 < length (cond_lists st)) links →
  ∃ st',
    update_conditions_loop get set links st = (st', Ret tt)
    ∧ valid st' ∧ obs st' = obs st
    ∧ cond_lists st' !! attr st'
      = Some (aggregate_pass (cond_lists st) acc links)
    ∧ (attr st' = attr st ∨ attr st' ∈ map snd links)
    ∧ (∀ l, l ≠ attr st → cond_lists st' !! l = cond_lists st !! l)
    ∧ length (cond_lists st') = length (cond_lists st).
Proof.
  induction links as [|[nc lc] links IH]; intros st acc Hvalid Hacc Hlinks.
  - exists st. simpl. repeat split; auto.
  - inversion Hlinks as [|? ? [Hne Hlt] Htail]; subst. simpl in *.
    destruct (lookup_lt_is_Some_2 _ _ Hlt) as [own Hown].
    destruct (bool_decide (nc = [])) eqn:Hnc.
    + exists (upd lc st). rewrite set_run.
      rewrite attr_upd, !conds_upd, obs_upd, Hown by done.
      repeat split; auto. right. by left.
    + set (st1 := set_cond_lists (alter (λ old, old ++ nc) (attr st)) st).
      set (st2 := set_cond_lists (alter (λ old, old ++ own) (attr st)) st1).
      assert (update_conditions_loop get set ((nc, lc) :: links) st
              = update_conditions_loop get set links st2) as Hstep.
      { simpl. rewrite Hnc.
        rewrite (run_bind_ret _ _ _ _ _ (get_run st)).
        unfold extend_conds, read_conds. unfold_M. fold st1.
        rewrite get_run. simpl.
        replace (attr st1) with (attr st) by (symmetry; apply attr_conds).
        replace (cond_lists st1 !! lc) with (Some own); [done |].
        subst st1. simpl. by rewrite list_lookup_alter_ne. }
      simpl in Hstep. rewrite Hnc in Hstep. rewrite Hstep.
      assert (attr st2 = attr st) as Hattr
        by (subst st2 st1; by rewrite !attr_conds).
      assert (cond_lists st2 !! attr st2 = Some ((acc ++ nc) ++ own)) as Hacc2.
      { rewrite Hattr. subst st2 st1. simpl.
        by rewrite !list_lookup_alter_eq, Hacc. }
      assert (∀ l, l ≠ attr st → cond_lists st2 !! l = cond_lists st !! l)
        as Hframe.
      { intros l Hl. subst st2 st1. simpl.
        by rewrite !list_lookup_alter_ne. }
      assert (length (cond_lists st2) = length (cond_lists st)) as Hlen
        by (subst st2 st1; simpl; by rewrite !length_alter).
      destruct (IH st2 ((acc ++ nc) ++ own)) as (st' & Hrun & Hv & Ho & Hc
                                                 & Hwhere & Hothers & Hl).
      { subst st2 st1. auto. }
      { done. }
      { rewrite Hattr, Hlen. done. }
      exists st'. split; [done |]. split; [done |].
      split; [rewrite Ho; subst st2 st1; by rewrite !obs_conds |].
      split.
      { rewrite Hc, Hown. simpl. f_equal.
        rewrite <- List.app_assoc. apply aggregate_pass_ext.
        eapply Forall_impl; [exact Htail |].
        intros link [Hlink _]. by apply Hframe. }
      split.
      { rewrite Hattr in Hwhere. destruct Hwhere as [-> | Hin]; [by left |].
        right. by right. }
      split; [|by rewrite Hl].
      intros l Hl'. rewrite Hothers by (by rewrite Hattr). by apply Hframe.
Qed.
(** Both passes, from the fresh empty list the method starts with. *)
Lemma two_passes_run st first second :
  valid st →
  links_allocated (cond_lists st) first →
  links_allocated (cond_lists st) second →
  links_apart first second →
  ∃ st1 st2,
    update_conditions_loop get set first
      (upd (length (cond_lists st)) (set_cond_lists (λ h, h ++ [[]]) st))
    = (st1, Ret tt)
    ∧ obs st1 = obs st
    ∧ update_conditions_loop get set second st1 = (st2, Ret tt)
    ∧ valid st2 ∧ obs st2 = obs st
    ∧ cond_lists st2 !! attr st2
      = Some (aggregate_conditions (cond_lists st) first second).
Proof.
  intros Hvalid Hfirst Hsecond Hapart.
  set (h := cond_lists st) in *.
  set (st0 := upd (length h) (set_cond_lists (λ h, h ++ [[]]) st)).
  assert (valid st0) as Hvalid0 by (subst st0; auto).
  assert (attr st0 = length h) as Hattr0 by (subst st0; auto).
  assert (cond_lists st0 = h ++ [[]]) as Hheap0
    by (subst st0; by rewrite conds_upd).
  assert (obs st0 = obs st) as Hobs0
    by (subst st0; by rewrite obs_upd, obs_conds).
  assert (∀ link : list Condition * loc,
            link.2 < length h → cond_lists st0 !! link.2 = h !! link.2)
    as Hsame0.
  { intros link Hlt. rewrite Hheap0. by apply lookup_app_l. }
  destruct (update_conditions_loop_run first st0 [])
    as (st1 & Hrun1 & Hvalid1 & Hobs1 & Hacc1 & Hwhere1 & Hothers1 & Hlen1).
  { done. }
  { rewrite Hattr0, Hheap0. by rewrite lookup_app_r, Nat.sub_diag. }
  { rewrite Hattr0, Hheap0, length_app. simpl.
    eapply Forall_impl; [exact Hfirst |]. simpl. intros link Hlt. lia. }
  rewrite (aggregate_pass_ext (cond_lists st0) h) in Hacc1
    by (eapply Forall_impl; [exact Hfirst | exact Hsame0]).
  destruct (update_conditions_loop_run second st1 (aggregate_pass h [] first))
    as (st2 & Hrun2 & Hvalid2 & Hobs2 & Hacc2 & _ & _ & _).
  { done. }
  { done. }
  { rewrite Hlen1, Hheap0, length_app. simpl.
    apply Forall_forall. intros s Hs.
    pose proof (proj1 (Forall_forall _ _) Hsecond s Hs) as Hlt. simpl in Hlt.
    split; [| lia].
    destruct Hwhere1 as [Heq | Hin].
    - rewrite Heq, Hattr0. lia.
    - apply list_elem_of_fmap in Hin as (p & Heq & Hp). rewrite Heq.
      pose proof (proj1 (Forall_forall _ _) Hapart p Hp) as Hps.
      pose proof (proj1 (Forall_forall _ _) Hps s Hs). simpl in *. congruence. }
  rewrite (aggregate_pass_ext (cond_lists st1) h) in Hacc2.
  2:{ apply Forall_forall. intros s Hs.
      pose proof (proj1 (Forall_forall _ _) Hsecond s Hs) as Hlt. simpl in Hlt.
      rewrite Hothers1 by (rewrite Hattr0; lia). by apply Hsame0. }
  exists st1, st2. repeat split; try done.
  - by rewrite Hobs1.
  - by rewrite Hobs2, Hobs1.
Qed.
End conditions_loop.

(** The attribute [conditions] of a topic after [_update_topic_conditions]:
    a list whose content is the two passes over the publishers and the
    subscribers; the links registered with the topic stay. *)
Lemma update_topic_conditions_run (topic : Topic) st ts :
  topic_objs st !! t_id topic = Some ts →
  links_allocated (cond_lists st) (map pubsub_conditions (topic_publishers ts)) →
  links_allocated (cond_lists st) (map pubsub_conditions (topic_subscribers ts)) →
  links_apart (map pubsub_conditions (topic_publishers ts))
              (map pubsub_conditions (topic_subscribers ts)) →
  ∃ st' c,
    _update_topic_conditions topic st = (st', Ret tt)
    ∧ topic_objs st' !! t_id topic
      = Some (mkTopicState (topic_publishers ts) (topic_subscribers ts) c)
    ∧ cond_lists st' !! c
      = Some (aggregate_conditions (cond_lists st)
                (map pubsub_conditions (topic_publishers ts))
                (map pubsub_conditions (topic_subscribers ts))).
Proof.
  intros Hts Hpubs Hsubs Hapart.
  set (dflt := mkTopicState [] [] 0).
  set (attr := λ s : State,
         topic_conditions (default dflt (topic_objs s !! t_id topic))).
  set (upd := λ (c : loc) (s : State),
         set_topic_objs (alter (λ ts, mkTopicState (topic_publishers ts)
                                        (topic_subscribers ts) c)
                           (t_id topic)) s).
  set (valid := λ s : State, is_Some (topic_objs s !! t_id topic)).
  set (obs := λ s : State,
         let ts := default dflt (topic_objs s !! t_id topic) in
         (topic_publishers ts, topic_subscribers ts)).
  set (get := (ts ← topic_state topic; mret (topic_conditions ts)) : M loc).
  set (set_ := λ c, modify_topic topic (λ ts,
         mkTopicState (topic_publishers ts) (topic_subscribers ts) c)).
  assert (∀ c s, valid s → attr (upd c s) = c) as attr_upd.
  { intros c s [x Hx]. subst attr upd. simpl.
    by rewrite list_lookup_alter_eq, Hx. }
  assert (∀ c s, valid s → valid (upd c s)) as valid_upd.
  { intros c s [x Hx]. subst valid upd. simpl.
    rewrite list_lookup_alter_eq, Hx. by eexists. }
  assert (∀ c s, obs (upd c s) = obs s) as obs_upd.
  { intros c s. subst obs upd. simpl. rewrite list_lookup_alter_eq.
    by destruct (topic_objs s !! t_id topic). }
  assert (obs st = (topic_publishers ts, topic_subscribers ts)) as Hobs
    by (subst obs; simpl; by rewrite Hts).
  destruct (two_passes_run attr upd valid obs get set_
              (λ _, eq_refl) (λ _ _, eq_refl) attr_upd valid_upd
              (λ _ _, eq_refl) obs_upd (λ _ _, eq_refl) (λ _ _ H, H)
              (λ _ _, eq_refl) st _ _ (ex_intro _ ts Hts) Hpubs Hsubs Hapart)
    as (st1 & st2 & Hrun1 & Hobs1 & Hrun2 & [ts2 Hts2] & Hobs2 & Hacc2).
  set (st0 := upd (length (cond_lists st))
                (set_cond_lists (λ h, h ++ [[]]) st)) in *.
  rewrite Hobs in Hobs1, Hobs2.
  exists st2, (attr st2). split; [| split; [| exact Hacc2]].
  - assert (∀ s, topic_state topic s
                 = (s, Ret (default dflt (topic_objs s !! t_id topic))))
      as ts_run by done.
    assert (topic_publishers (default dflt (topic_objs st0 !! t_id topic))
            = topic_publishers ts) as Hpub0.
    { pose proof (obs_upd (length (cond_lists st))
                    (set_cond_lists (λ h, h ++ [[]]) st)) as Hobs0.
      fold st0 in Hobs0. change (obs (set_cond_lists _ st)) with (obs st) in Hobs0.
      rewrite Hobs in Hobs0. by injection Hobs0. }
    assert (topic_subscribers (default dflt (topic_objs st1 !! t_id topic))
            = topic_subscribers ts) as Hsub1 by (by injection Hobs1).
    change (_update_topic_conditions topic) with
      (fresh ← new_cond_list []; set_ fresh ;;
       ts ← topic_state topic;
       update_conditions_loop get set_
         (map pubsub_conditions (topic_publishers ts)) ;;
       ts ← topic_state topic;
       update_conditions_loop get set_
         (map pubsub_conditions (topic_subscribers ts))).
    rewrite (run_bind_ret _ _ st (set_cond_lists (λ h, h ++ [[]]) st)
               (length (cond_lists st))) by done.
    rewrite (run_bind_ret _ _ _ st0 tt) by done.
    rewrite (run_bind_ret _ _ _ _ _ (ts_run st0)), Hpub0.
    rewrite (run_bind_ret _ _ _ _ _ Hrun1).
    rewrite (run_bind_ret _ _ _ _ _ (ts_run st1)), Hsub1.
    exact Hrun2.
  - subst obs attr. simpl in *. rewrite Hts2 in *. simpl in *.
    destruct ts2; simpl in *. by injection Hobs2 as -> ->.
Qed.

(** The same for a service: the first pass is over the server, if any,
    the second over the clients. *)
Lemma update_service_conditions_run (service : Service) st ss :
  service_objs st !! s_id service = Some ss →
  links_allocated (cond_lists st)
    (map srv_conditions (option_list (service_server ss))) →
  links_allocated (cond_lists st) (map srv_conditions (service_clients ss)) →
  links_apart (map srv_conditions (option_list (service_server ss)))
              (map srv_conditions (service_clients ss)) →
  ∃ st' c,
    _update_service_conditions service st = (st', Ret tt)
    ∧ service_objs st' !! s_id service
      = Some (mkServiceState (service_server ss) (service_clients ss) c)
    ∧ cond_lists st' !! c
      = Some (aggregate_conditions (cond_lists st)
                (map srv_conditions (option_list (service_server ss)))
                (map srv_conditions (service_clients ss))).
Proof.
  intros Hss Hserver Hclients Hapart.
  set (dflt := mkServiceState None [] 0).
  set (attr := λ s : State,
         service_conditions (default dflt (service_objs s !! s_id service))).
  set (upd := λ (c : loc) (s : State),
         set_service_objs (alter (λ ss, mkServiceState (service_server ss)
                                          (service_clients ss) c)
                             (s_id service)) s).
  set (valid := λ s : State, is_Some (service_objs s !! s_id service)).
  set (obs := λ s : State,
         let ss := default dflt (service_objs s !! s_id service) in
         (service_server ss, service_clients ss)).
  set (get := (ss ← service_state service; mret (service_conditions ss))
              : M loc).
  set (set_ := λ c, modify_service service (λ ss,
         mkServiceState (service_server ss) (service_clients ss) c)).
  assert (∀ c s, valid s → attr (upd c s) = c) as attr_upd.
  { intros c s [x Hx]. subst attr upd. simpl.
    by rewrite list_lookup_alter_eq, Hx. }
  assert (∀ c s, valid s → valid (upd c s)) as valid_upd.
  { intros c s [x Hx]. subst valid upd. simpl.
    rewrite list_lookup_alter_eq, Hx. by eexists. }
  assert (∀ c s, obs (upd c s) = obs s) as obs_upd.
  { intros c s. subst obs upd. simpl. rewrite list_lookup_alter_eq.
    by destruct (service_objs s !! s_id service). }
  assert (obs st = (service_server ss, service_clients ss)) as Hobs
    by (subst obs; simpl; by rewrite Hss).
  destruct (two_passes_run attr upd valid obs get set_
              (λ _, eq_refl) (λ _ _, eq_refl) attr_upd valid_upd
              (λ _ _, eq_refl) obs_upd (λ _ _, eq_refl) (λ _ _ H, H)
              (λ _ _, eq_refl) st _ _ (ex_intro _ ss Hss)
              Hserver Hclients Hapart)
    as (st1 & st2 & Hrun1 & Hobs1 & Hrun2 & [ss2 Hss2] & Hobs2 & Hacc2).
  set (st0 := upd (length (cond_lists st))
                (set_cond_lists (λ h, h ++ [[]]) st)) in *.
  rewrite Hobs in Hobs1, Hobs2.
  exists st2, (attr st2). split; [| split; [| exact Hacc2]].
  - assert (∀ s, service_state service s
                 = (s, Ret (default dflt (service_objs s !! s_id service))))
      as ss_run by done.
    assert (service_server (default dflt (service_objs st0 !! s_id service))
            = service_server ss) as Hserver0.
    { pose proof (obs_upd (length (cond_lists st))
                    (set_cond_lists (λ h, h ++ [[]]) st)) as Hobs0.
      fold st0 in Hobs0. change (obs (set_cond_lists _ st)) with (obs st) in Hobs0.
      rewrite Hobs in Hobs0. by injection Hobs0. }
    assert (service_clients (default dflt (service_objs st1 !! s_id service))
            = service_clients ss) as Hclients1 by (by injection Hobs1).
    set (server_pass := λ ss : ServiceState,
           match service_server ss with
           | Some link =>
               if bool_decide (ni_conditions (sl_node link) = []) then
                 set_ (sl_conditions link)
               else
                 c ← get;
                 extend_conds c (ni_conditions (sl_node link)) ;;
                 c ← get;
                 own_conditions ← read_conds (sl_conditions link);
                 extend_conds c own_conditions
           | None => mret tt
           end).
    assert (∀ ss s, server_pass ss s
                    = update_conditions_loop get set_
                        (map srv_conditions (option_list (service_server ss))) s)
      as Hpass.
    { intros x s. subst server_pass. simpl.
      destruct (service_server x) as [link|]; simpl; [| done].
      by destruct (bool_decide (ni_conditions (sl_node link) = [])). }
    change (_update_service_conditions service) with
      (fresh ← new_cond_list []; set_ fresh ;;
       ss ← service_state service;
       server_pass ss ;;
       ss ← service_state service;
       update_conditions_loop get set_
         (map srv_conditions (service_clients ss))).
    rewrite (run_bind_ret _ _ st (set_cond_lists (λ h, h ++ [[]]) st)
               (length (cond_lists st))) by done.
    rewrite (run_bind_ret _ _ _ st0 tt) by done.
    rewrite (run_bind_ret _ _ _ _ _ (ss_run st0)).
    rewrite (run_bind_ret _ _ st0 st1 tt)
      by (by rewrite Hpass, Hserver0).
    rewrite (run_bind_ret _ _ _ _ _ (ss_run st1)), Hclients1.
    exact Hrun2.
  - subst obs attr. simpl in *. rewrite Hss2 in *. simpl in *.
    destruct ss2; simpl in *. by injection Hobs2 as -> ->.
Qed.

(** What the two passes give when a node without conditions is among the
    subscribers (or clients): the list of the link of the first such
    subscriber, whatever the publishers are. *)
Lemma unconditional_subscriber_decides heap first pre lc post :
  Forall (λ link : list Condition * loc, link.1 ≠ []) pre →
  aggregate_conditions heap first (pre ++ ([], lc) :: post)
  = default [] (heap !! lc).
Proof. intros Hpre. by apply aggregate_pass_unconditional. Qed.

(** When every subscriber (or client) has conditions, a publisher
    without conditions does not settle the result: the conditions of the
    subscribers and of their links follow the list of its link. *)
Lemma unconditional_publisher_does_not_decide heap pre lc post second :
  Forall (λ link : list Condition * loc, link.1 ≠ []) pre →
  Forall (λ link : list Condition * loc, link.1 ≠ []) second →
  aggregate_conditions heap (pre ++ ([], lc) :: post) second
  = default [] (heap !! lc)
    ++ concat (map (λ link, link.1 ++ default [] (heap !! link.2)) second).
Proof.
  intros Hpre Hsecond. unfold aggregate_conditions.
  rewrite aggregate_pass_unconditional by done.
  by apply aggregate_pass_conditional.
Qed.

(** When no node is without conditions, every link contributes the
    conditions of its node followed by its own, publishers first. *)
Lemma all_conditional_contribute heap first second :
  Forall (λ link : list Condition * loc, link.1 ≠ []) first →
  Forall (λ link : list Condition * loc, link.1 ≠ []) second →
  aggregate_conditions heap first second
  = concat (map (λ link, link.1 ++ default [] (heap !! link.2))
              (first ++ second)).
Proof.
  intros Hfirst Hsecond. unfold aggregate_conditions.
  rewrite (aggregate_pass_conditional _ first) by done.
  rewrite aggregate_pass_conditional by done.
  by rewrite map_app, concat_app.
Qed.


(** * Further properties of the module *)

(** ** Joining names *)

Lemma startswith_cons c s p :
  PyStr.startswith (String c s) (String p "") = Ascii.eqb p c.
Proof.
  unfold PyStr.startswith. simpl.
  destruct (Ascii.ascii_dec p c) as [->|Hne].
  - rewrite Ascii.eqb_refl. by destruct s.
  - symmetry. by apply Ascii.eqb_neq.
Qed.

Lemma startswith_empty p : PyStr.startswith "" (String p "") = false.
Proof. done. Qed.

Lemma startswith_app a b p :
  PyStr.truthy a = true →
  PyStr.startswith (a +:+ b) (String p "") = PyStr.startswith a (String p "").
Proof.
  destruct a as [|c a]; [done |]. intros _.
  by rewrite append_cons, !startswith_cons.
Qed.

Lemma rooted_truthy s : rooted s = true → PyStr.truthy s = true.
Proof. by destruct s. Qed.

Lemma rooted_app a b : rooted a = true → rooted (a +:+ b) = true.
Proof.
  intros Ha. pose proof (rooted_truthy a Ha) as Hne. unfold rooted in *.
  by rewrite !startswith_app.
Qed.

Lemma ns_join_rooted_name name ns : rooted name = true → _ns_join name ns = name.
Proof. unfold rooted, _ns_join. by intros ->. Qed.

Lemma ns_join_rooted_ns name ns :
  rooted ns = true → rooted (_ns_join name ns) = true.
Proof.
  intros Hns. unfold _ns_join. fold (rooted name).
  destruct (rooted name) eqn:Hname; [done |].
  destruct (String.eqb ns "~") eqn:Htilde.
  { apply String.eqb_eq in Htilde as ->. by apply rooted_app. }
  rewrite (rooted_truthy ns Hns). simpl.
  destruct (PyStr.ends_with_char ns "/"); by apply rooted_app.
Qed.

(** X1.  [_ns_join] only ever puts something in front of the name: the
    result ends with the name as given, what is put in front being
    nothing, the namespace, or the namespace and a ['/'].  The result
    begins with ['~'] or ['/'] whenever the name or the namespace does,
    and it is empty only when both the name and the namespace are. *)
Theorem ns_join_keeps_name_and_root (name ns : string) :
  (∃ front,
     _ns_join name ns = front +:+ name
     ∧ (front = "" ∨ front = ns ∨ front = ns +:+ "/"))
  ∧ (rooted name = true ∨ rooted ns = true →
     rooted (_ns_join name ns) = true)
  ∧ (_ns_join name ns = "" → name = "" ∧ ns = "").
Proof.
  split; [| split].
  - unfold _ns_join.
    destruct (_ || _); [exists ""; auto |].
    destruct (String.eqb ns "~") eqn:Htilde.
    { apply String.eqb_eq in Htilde as ->. exists "~". auto. }
    destruct (PyStr.truthy ns); simpl; [| exists ""; auto].
    destruct (PyStr.ends_with_char ns "/").
    + exists ns. auto.
    + exists (ns +:+ "/"). split; [by rewrite append_assoc | auto].
  - intros [Hname | Hns].
    + by rewrite ns_join_rooted_name.
    + by apply ns_join_rooted_ns.
  - unfold _ns_join.
    destruct (_ || _) eqn:Hrooted.
    { intros ->. done. }
    destruct (String.eqb ns "~") eqn:Htilde.
    { apply String.eqb_eq in Htilde as ->. done. }
    destruct ns as [|c ns]; simpl; [done |].
    destruct (PyStr.ends_with_char _ _); done.
Qed.

(** ** Parameters made of structured values *)

Lemma flatten_rooted v : ∀ ns key,
  rooted (_ns_join key ns) = true →
  Forall (λ item : unfold_item, rooted item.1.1 = true) (flatten ns key v).
Proof.
  induction v as [s|items IH] using yaml_nested_ind; intros ns key Hrooted.
  - by repeat constructor.
  - rewrite flatten_dict. revert Hrooted.
    generalize (_ns_join key ns) as name. intros name Hrooted.
    induction IH as [|kv items Hkv _ IHitems].
    + constructor.
    + rewrite flatten_items_cons. apply Forall_app. split; [done |].
      apply Hkv. by apply ns_join_rooted_ns.
Qed.

Lemma item_independent_rooted (item : unfold_item) :
  item_independent item = rooted item.1.1.
Proof. unfold item_independent, rooted. apply orb_comm. Qed.

(** Whatever [private] is, every item is one [_yaml_param] appends to
    [self.parameters]. *)
Lemma yaml_items_committed private name value :
  Forall
    (λ item, item_committed (private && PyStr.startswith name "~") item = true)
    (flatten "" name value).
Proof.
  unfold item_committed.
  destruct (private && PyStr.startswith name "~") eqn:Hprivate.
  - apply andb_prop in Hprivate as [_ Htilde].
    eapply Forall_impl.
    + apply flatten_rooted. rewrite ns_join_root. unfold rooted.
      by rewrite Htilde.
    + intros item Hitem. simpl in *.
      by rewrite item_independent_rooted, Hitem.
  - apply Forall_forall. intros item _. apply orb_true_r.
Qed.

Lemma filter_all {A} (P : A → bool) (xs : list A) :
  Forall (λ x, P x = true) xs →
  List.filter P xs = xs ∧ List.filter (λ x, negb (P x)) xs = [].
Proof.
  induction 1 as [|x xs Hx _ [IH1 IH2]]; simpl; [done |].
  by rewrite Hx, IH1, IH2.
Qed.

(** X2.  [_yaml_param] never stages a parameter, whatever the value.
    For a value whose keys are all strings it returns, and appends one
    Parameter per leaf to the list of parameters of the scope; the
    staging list [_params] is left as it was, also for a private name
    in a scope without node: when the name begins with ['~'] so does
    every name [_unfold] makes of it, which makes every item
    independent.  For a value with a key that is not a string it raises
    [AttributeError] and leaves the store as it was. *)
Theorem yaml_param_never_stages `{Metamodel} `{Environment}
    (self : LaunchScope) (name : string) (value : yaml)
    (conditions : list Condition) (private : bool) (st : State)
    (ps ss : list Param) :
  parameters self ≠ _params self →
  param_lists st !! parameters self = Some ps →
  param_lists st !! _params self = Some ss →
  ∃ st' o,
    _yaml_param self name value conditions private st = (st', o)
    ∧ param_lists st' !! _params self = Some ss
    ∧ if string_keys value then
        o = Ret tt
        ∧ param_lists st' !! parameters self
          = Some (ps ++ map (item_param self conditions)
                          (flatten "" name value))
        ∧ length (flatten "" name value) = length (leaf_paths value)
      else o = Raise (AttributeError "startswith") ∧ st' = st.
Proof.
  intros Hne Hps Hss.
  destruct (string_keys value) eqn:Hkeys.
  2:{ exists st, (Raise (AttributeError "startswith")).
      split; [by apply _yaml_param_raises | done]. }
  destruct (filter_all _ _ (yaml_items_committed private name value))
    as [Hall Hnone].
  do 2 eexists. split; [by apply _yaml_param_run |].
  destruct (emit_items_lists self conditions
              (private && PyStr.startswith name "~")
              (flatten "" name value) st ps ss Hne Hps Hss) as [Hp Hs].
  rewrite Hall in Hp. rewrite Hnone in Hs. simpl in Hs.
  rewrite app_nil_r in Hs.
  split; [done |]. split; [done |]. split; [done |].
  pose proof (flatten_leaf_paths value "" name) as Hperm.
  apply Permutation_length in Hperm. by rewrite !length_map in Hperm.
Qed.

(** ** What a walk only adds to *)

Section evolves.

#[local] Instance node_links_grow_preorder : PreOrder node_links_grow.
Proof.
  split.
  - intros nl. by repeat split.
  - intros a b c (? & ? & ? & ?) (? & ? & ? & ?).
    repeat split; by etrans.
Qed.

#[local] Instance topic_links_grow_preorder : PreOrder topic_links_grow.
Proof.
  split.
  - intros ts. by split.
  - intros a b c [? ?] [? ?]. split; by etrans.
Qed.

#[local] Instance service_links_grow_preorder : PreOrder service_links_grow.
Proof.
  split.
  - intros ss. by split.
  - intros a b c [? ?] [? ?]. split; [auto | by etrans].
Qed.

Lemma heap_grows_refl {A} (R : relation A) `{!Reflexive R} (h : list A) :
  ∀ l x, h !! l = Some x → ∃ y, h !! l = Some y ∧ R x y.
Proof. intros l x Hx. by exists x. Qed.

Lemma heap_grows_new {A} (R : relation A) `{!Reflexive R} (h : list A) new :
  ∀ l x, h !! l = Some x → ∃ y, (h ++ [new]) !! l = Some y ∧ R x y.
Proof.
  intros l x Hx. exists x. split; [|done].
  rewrite lookup_app_l; [done | by eapply lookup_lt_Some].
Qed.

Lemma heap_grows_alter {A} (R : relation A) `{!Reflexive R} (h : list A)
    (f : A → A) (i : nat) :
  (∀ x, R x (f x)) →
  ∀ l x, h !! l = Some x → ∃ y, alter f i h !! l = Some y ∧ R x y.
Proof.
  intros Hf l x Hx. destruct (decide (i = l)) as [->|Hne].
  - exists (f x). by rewrite list_lookup_alter_eq, Hx.
  - exists x. by rewrite list_lookup_alter_ne.
Qed.

Lemma params_grow_refl (h : list (list Param)) :
  ∀ l ps, h !! l = Some ps → ∃ more, h !! l = Some (ps ++ more).
Proof. intros l ps Hps. exists []. by rewrite app_nil_r. Qed.

Ltac evolves_fields :=
  split; simpl; try done;
  try apply params_grow_refl; try (by apply heap_grows_refl).

Lemma evolves_refl st : evolves st st.
Proof. evolves_fields. Qed.

Lemma evolves_trans st1 st2 st3 :
  evolves st1 st2 → evolves st2 st3 → evolves st1 st3.
Proof.
  intros [] []. split.
  - congruence.
  - congruence.
  - by etrans.
  - by etrans.
  - by etrans.
  - by etrans.
  - auto.
  - auto.
  - intros l ps Hps.
    destruct (ev_params0 l ps Hps) as [more Hmore].
    destruct (ev_params1 l _ Hmore) as [more' Hmore'].
    exists (more ++ more'). by rewrite app_assoc.
  - intros l x Hx.
    destruct (ev_node_links0 l x Hx) as (y & Hy & Hxy).
    destruct (ev_node_links1 l y Hy) as (z & Hz & Hyz).
    exists z. split; [done | by etrans].
  - intros l x Hx.
    destruct (ev_topic_objs0 l x Hx) as (y & Hy & Hxy).
    destruct (ev_topic_objs1 l y Hy) as (z & Hz & Hyz).
    exists z. split; [done | by etrans].
  - intros l x Hx.
    destruct (ev_service_objs0 l x Hx) as (y & Hy & Hxy).
    destruct (ev_service_objs1 l y Hy) as (z & Hz & Hyz).
    exists z. split; [done | by etrans].
Qed.

(** The parts of the store [evolves] says nothing about. *)
Lemma evolves_cond_lists g st : evolves st (set_cond_lists g st).
Proof. evolves_fields. Qed.

Lemma evolves_remap_dicts g st : evolves st (set_remap_dicts g st).
Proof. evolves_fields. Qed.

Lemma evolves_arg_dicts g st : evolves st (set_arg_dicts g st).
Proof. evolves_fields. Qed.

Lemma evolves_param_new ps st :
  evolves st (set_param_lists (λ h, h ++ [ps]) st).
Proof.
  evolves_fields. intros l old Hold. exists [].
  rewrite app_nil_r, lookup_app_l; [done | by eapply lookup_lt_Some].
Qed.

Lemma evolves_param_append l p st :
  evolves st (set_param_lists (alter (λ old, old ++ [p]) l) st).
Proof.
  evolves_fields. intros i old Hold. destruct (decide (l = i)) as [->|Hne].
  - exists [p]. by rewrite list_lookup_alter_eq, Hold.
  - exists []. by rewrite app_nil_r, list_lookup_alter_ne.
Qed.

Lemma evolves_errors msg st : evolves st (set_errors (λ es, es ++ [msg]) st).
Proof. evolves_fields. by apply prefix_app_r. Qed.

Lemma evolves_cfg_nodes name inst st :
  evolves st (set_cfg_nodes (λ ns, <[name := inst]> ns) st).
Proof. evolves_fields. apply dom_insert_subseteq. Qed.

Lemma evolves_node_links_new nl st :
  evolves st (set_node_links (λ h, h ++ [nl]) st).
Proof. evolves_fields. by apply heap_grows_new. Qed.

Lemma evolves_node_links_alter f l st :
  (∀ nl, node_links_grow nl (f nl)) →
  evolves st (set_node_links (alter f l) st).
Proof. intros Hf. evolves_fields. by apply heap_grows_alter. Qed.

Lemma evolves_topic_objs_new ts st :
  evolves st (set_topic_objs (λ h, h ++ [ts]) st).
Proof. evolves_fields. by apply heap_grows_new. Qed.

Lemma evolves_topic_objs_alter f l st :
  (∀ ts, topic_links_grow ts (f ts)) →
  evolves st (set_topic_objs (alter f l) st).
Proof. intros Hf. evolves_fields. by apply heap_grows_alter. Qed.

Lemma evolves_service_objs_new ss st :
  evolves st (set_service_objs (λ h, h ++ [ss]) st).
Proof. evolves_fields. by apply heap_grows_new. Qed.

Lemma evolves_service_objs_alter f l st :
  (∀ ss, service_links_grow ss (f ss)) →
  evolves st (set_service_objs (alter f l) st).
Proof. intros Hf. evolves_fields. by apply heap_grows_alter. Qed.

(** Adding to a collection: under a name that is there the entity is
    replaced, under a new name it is appended. *)
Lemma names_collection_add {R} `{Resource R} (r : R) (coll : list R) :
  names (collection_add r coll)
  = match collection_get coll (full (res_rosname r)) with
    | Some _ => names coll
    | None => names coll ++ [full (res_rosname r)]
    end.
Proof.
  unfold collection_add, names.
  destruct (collection_get coll (full (res_rosname r))).
  - rewrite map_map. apply map_ext. intros x.
    destruct (String.eqb _ _) eqn:Heq; [|done].
    by apply String.eqb_eq in Heq.
  - by rewrite map_app.
Qed.

Lemma collection_get_None {R} `{Resource R} (coll : list R) name :
  collection_get coll name = None → name ∉ names coll.
Proof.
  unfold collection_get, names. intros Hfind Hin.
  apply list_elem_of_fmap in Hin as (x & -> & Hx).
  apply list_elem_of_In in Hx.
  pose proof (List.find_none _ _ Hfind x Hx) as Hneq. simpl in Hneq.
  by rewrite String.eqb_refl in Hneq.
Qed.

Lemma names_add_prefix {R} `{Resource R} (r : R) (coll : list R) :
  names coll `prefix_of` names (collection_add r coll).
Proof.
  rewrite names_collection_add.
  destruct (collection_get _ _); [done | by apply prefix_app_r].
Qed.

Lemma names_add_unique {R} `{Resource R} (r : R) (coll : list R) :
  NoDup (names coll) → NoDup (names (collection_add r coll)).
Proof.
  intros Hunique. rewrite names_collection_add.
  destruct (collection_get _ _) eqn:Hget; [done |].
  apply NoDup_app. split; [done |]. split.
  - intros x Hx Hin. apply list_elem_of_singleton in Hin as ->.
    by apply collection_get_None in Hget.
  - apply NoDup_singleton.
Qed.

Lemma evolves_cfg_topics topic st :
  evolves st (set_cfg_topics (collection_add topic) st).
Proof.
  evolves_fields; [apply names_add_prefix | apply names_add_unique].
Qed.

Lemma evolves_cfg_services service st :
  evolves st (set_cfg_services (collection_add service) st).
Proof.
  evolves_fields; [apply names_add_prefix | apply names_add_unique].
Qed.
End evolves.

Section grows.
Context `{Metamodel} `{Environment}.

Lemma grows_ret {A} (a : A) : grows (mret a).
Proof. intros st. apply evolves_refl. Qed.

Lemma grows_raise {A} e : grows (raise (A := A) e).
Proof. intros st. apply evolves_refl. Qed.

Lemma grows_gets {A} (g : State → A) : grows (gets g).
Proof. intros st. apply evolves_refl. Qed.

Lemma grows_lift {A} (o : outcome A) : grows (lift o).
Proof. intros st. apply evolves_refl. Qed.

Lemma grows_modify g : (∀ st, evolves st (g st)) → grows (modify g).
Proof. intros Hg st. apply Hg. Qed.

Lemma grows_bind {A B} (m : M A) (k : A → M B) :
  grows m → (∀ a, grows (k a)) → grows (m ≫= k).
Proof.
  intros Hm Hk st. rewrite run_bind. specialize (Hm st).
  destruct (m st) as [st' [a|e]]; simpl in *; [|done].
  eapply evolves_trans; [done | apply Hk].
Qed.

Lemma grows_try_except {A} (body : M A) handler :
  grows body → (∀ e h, handler e = Some h → grows h) →
  grows (try_except body handler).
Proof.
  intros Hbody Hhandler st. unfold try_except. specialize (Hbody st).
  destruct (body st) as [st' [a|e]]; simpl in *; [done |].
  destruct (handler e) as [h|] eqn:He; [|done].
  eapply evolves_trans; [done | by apply (Hhandler e h He)].
Qed.

Lemma grows_for_each {A} (xs : list A) body :
  (∀ x, grows (body x)) → grows (for_each xs body).
Proof.
  intros Hbody. induction xs as [|x xs IH]; [apply grows_ret |].
  simpl. by apply grows_bind.
Qed.

Lemma node_links_grow_refl nl : node_links_grow nl nl.
Proof. by repeat split. Qed.

Lemma topic_links_grow_refl ts : topic_links_grow ts ts.
Proof. by split. Qed.

Lemma service_links_grow_refl ss : service_links_grow ss ss.
Proof. by split. Qed.
End grows.

Create HintDb grows.

#[export] Hint Resolve evolves_refl evolves_cond_lists evolves_remap_dicts
  evolves_arg_dicts evolves_param_new evolves_param_append evolves_errors
  evolves_cfg_nodes evolves_node_links_new evolves_topic_objs_new
  evolves_service_objs_new evolves_cfg_topics evolves_cfg_services : grows.

Ltac links_grow :=
  intros ?;
  first [ apply node_links_grow_refl | apply topic_links_grow_refl
        | apply service_links_grow_refl
        | repeat split; simpl; try done; try (by apply prefix_app_r);
          try (by eexists) ].

Ltac grows_prim :=
  intros ?; simpl;
  first [ solve [eauto with grows]
        | apply evolves_node_links_alter; links_grow
        | apply evolves_topic_objs_alter; links_grow
        | apply evolves_service_objs_alter; links_grow ].

Ltac grows_step :=
  match goal with
  | |- grows _ => solve [eauto with grows]
  | H : grows ?m |- grows ?m => exact H
  | H : ∀ a, grows _ |- grows _ => apply H
  | H : ∀ a b, grows _ |- grows _ => apply H
  | H : ∀ a b c, grows _ |- grows _ => apply H
  | |- grows (mret _) => apply grows_ret
  | |- grows (raise _) => apply grows_raise
  | |- grows (gets _) => apply grows_gets
  | |- grows (lift _) => apply grows_lift
  | |- grows (modify _) => apply grows_modify; grows_prim
  | |- grows (_ ≫= _) => apply grows_bind; [| intros ?]
  | |- grows (for_each _ _) => apply grows_for_each; intros ?
  | |- grows (if ?b then _ else _) => destruct b
  | |- grows (match ?x with _ => _ end) => destruct x
  end.

Ltac grows_auto := repeat grows_step; try grows_prim.

Section grows_walk.
Context `{Metamodel} `{Environment}.

Lemma grows_new_cond_list l : grows (new_cond_list l).
Proof. grows_prim. Qed.

Lemma grows_new_remap_dict d : grows (new_remap_dict d).
Proof. grows_prim. Qed.

Lemma grows_new_arg_dict d : grows (new_arg_dict d).
Proof. grows_prim. Qed.

Lemma grows_new_param_list l : grows (new_param_list l).
Proof. grows_prim. Qed.

Lemma grows_extend_conds l xs : grows (extend_conds l xs).
Proof. unfold extend_conds. grows_auto. Qed.

Lemma grows_append_param l p : grows (append_param l p).
Proof. unfold append_param. grows_auto. Qed.

Lemma grows_remap_setitem l k v : grows (remap_setitem l k v).
Proof. unfold remap_setitem. grows_auto. Qed.

Lemma grows_arg_setitem l k v : grows (arg_setitem l k v).
Proof. unfold arg_setitem. grows_auto. Qed.

Lemma grows_append_error msg : grows (append_error msg).
Proof. unfold append_error. grows_auto. Qed.

Lemma grows_nodes_add inst : grows (nodes_add inst).
Proof. grows_prim. Qed.

Lemma grows_new_NodeInstance rosname template launch argv r c :
  grows (new_NodeInstance rosname template launch argv r c).
Proof. grows_prim. Qed.

Lemma grows_global_name name : grows (global_name name).
Proof. unfold global_name. grows_auto. Qed.

Lemma grows_getattr attrs attr : grows (getattr attrs attr).
Proof. unfold getattr. grows_auto. Qed.

Hint Resolve grows_new_cond_list grows_new_remap_dict grows_new_arg_dict
  grows_new_param_list grows_extend_conds grows_append_param
  grows_remap_setitem grows_arg_setitem grows_append_error grows_nodes_add
  grows_new_NodeInstance grows_global_name grows_getattr : grows.

Lemma grows_read_conds l : grows (read_conds l).
Proof. unfold read_conds. grows_auto. Qed.

Lemma grows_read_remaps l : grows (read_remaps l).
Proof. unfold read_remaps. grows_auto. Qed.

Lemma grows_read_args l : grows (read_args l).
Proof. unfold read_args. grows_auto. Qed.

Lemma grows_read_params l : grows (read_params l).
Proof. unfold read_params. grows_auto. Qed.

Hint Resolve grows_read_conds grows_read_remaps grows_read_args
  grows_read_params : grows.

Lemma grows_LaunchScope_init parent launch ns nd r p a c :
  grows (LaunchScope_init parent launch ns nd r p a c).
Proof. unfold LaunchScope_init. grows_auto. Qed.
Hint Resolve grows_LaunchScope_init : grows.

Lemma grows_child self ns c launch args : grows (child self ns c launch args).
Proof. unfold child. grows_auto. Qed.
Hint Resolve grows_child : grows.

Lemma grows_remap self source target : grows (remap self source target).
Proof. unfold remap. grows_auto. Qed.
Hint Resolve grows_remap : grows.

Lemma grows_make_node self template name ns args c :
  grows (make_node self template name ns args c).
Proof. unfold make_node. grows_auto. Qed.
Hint Resolve grows_make_node : grows.

Lemma grows_yaml_param self name value conditions private :
  grows (_yaml_param self name value conditions private).
Proof. unfold _yaml_param. grows_auto. Qed.
Hint Resolve grows_yaml_param : grows.

Lemma grows_make_params self name ptype value c :
  grows (make_params self name ptype value c).
Proof. unfold make_params. grows_auto. Qed.
Hint Resolve grows_make_params : grows.

Lemma grows_make_rosparam self name ns value c :
  grows (make_rosparam self name ns value c).
Proof.
  unfold make_rosparam, import_rosparam. grows_auto.
  apply grows_try_except; [grows_auto |].
  intros [] h [= <-]; grows_auto.
Qed.
Hint Resolve grows_make_rosparam : grows.

Lemma grows_remove_param self name ns c : grows (remove_param self name ns c).
Proof. unfold remove_param. grows_auto. Qed.
Hint Resolve grows_remove_param : grows.

Lemma grows_new_Topic rosname type : grows (new_Topic rosname type).
Proof. unfold new_Topic. grows_auto. Qed.
Hint Resolve grows_new_Topic : grows.

Lemma grows_new_Service rosname type : grows (new_Service rosname type).
Proof. unfold new_Service. grows_auto. Qed.
Hint Resolve grows_new_Service : grows.

Lemma grows_re_match pattern s : grows (re_match pattern s).
Proof. unfold re_match. grows_auto. Qed.
Hint Resolve grows_re_match : grows.

Lemma grows_lookup_scan {R} `{Resource R} matcher pattern type entries :
  (∀ p s, grows (matcher p s)) →
  ∀ candidate : option R,
    grows (lookup_scan matcher pattern type entries candidate).
Proof.
  intros Hmatcher.
  induction entries as [|[rosname resource] entries IH]; intros candidate;
    simpl; grows_auto.
Qed.
Hint Resolve grows_lookup_scan : grows.

Lemma grows_lookup_resource {R} `{Resource R} name type
    (collection : list R) hints :
  grows (_lookup_resource name type collection hints).
Proof. unfold _lookup_resource, lookup_with. grows_auto. Qed.
Hint Resolve grows_lookup_resource : grows.

Lemma grows_make_topic_link self inst name ns pns type queue conditions hints :
  grows (_make_topic_link self inst name ns pns type queue conditions hints).
Proof. unfold _make_topic_link. grows_auto. Qed.
Hint Resolve grows_make_topic_link : grows.

Lemma grows_make_service_link self inst name ns pns type conditions hints :
  grows (_make_service_link self inst name ns pns type conditions hints).
Proof. unfold _make_service_link. grows_auto. Qed.
Hint Resolve grows_make_service_link : grows.

Lemma grows_update_conditions_loop get set links :
  grows get → (∀ c, grows (set c)) →
  grows (update_conditions_loop get set links).
Proof.
  intros Hget Hset.
  induction links as [|[node_conditions link_conditions] links IH]; simpl;
    grows_auto.
Qed.
Hint Resolve grows_update_conditions_loop : grows.

Lemma grows_update_topic_conditions topic :
  grows (_update_topic_conditions topic).
Proof.
  unfold _update_topic_conditions, topic_state, modify_topic.
  grows_auto; apply grows_update_conditions_loop; intros; grows_auto.
Qed.
Hint Resolve grows_update_topic_conditions : grows.

Lemma grows_update_service_conditions service :
  grows (_update_service_conditions service).
Proof.
  unfold _update_service_conditions, service_state, modify_service.
  grows_auto; apply grows_update_conditions_loop; intros; grows_auto.
Qed.
Hint Resolve grows_update_service_conditions : grows.

Lemma grows_make_topics self hints : grows (make_topics self hints).
Proof.
  unfold make_topics, modify_node_links, modify_topic. grows_auto.
Qed.
Hint Resolve grows_make_topics : grows.

Lemma grows_make_services self hints : grows (make_services self hints).
Proof.
  unfold make_services, modify_node_links, modify_service. grows_auto.
Qed.
Hint Resolve grows_make_services : grows.

Lemma grows_sub_resolve sub e : grows (sub_resolve sub e).
Proof. unfold sub_resolve. grows_auto. Qed.
Hint Resolve grows_sub_resolve : grows.

Lemma grows_sub_resolve_strict sub e : grows (sub_resolve_strict sub e).
Proof. unfold sub_resolve_strict. grows_auto. Qed.
Hint Resolve grows_sub_resolve_strict : grows.

Lemma grows_condition c sub : grows (_condition c sub).
Proof. unfold _condition. grows_auto. Qed.
Hint Resolve grows_condition : grows.

Lemma grows_get_node pkg exe args : grows (_get_node pkg exe args).
Proof. unfold _get_node. grows_auto. Qed.
Hint Resolve grows_get_node : grows.

Lemma grows_comm_hint_rosname name pns scope :
  grows (comm_hint_rosname name pns scope).
Proof. unfold comm_hint_rosname. grows_auto. Qed.
Hint Resolve grows_comm_hint_rosname : grows.

Lemma grows_topic_hints entries pns scope :
  ∀ topics, grows (topic_hints entries pns scope topics).
Proof.
  induction entries as [|[name type] entries IH]; intros topics; simpl;
    grows_auto.
Qed.
Hint Resolve grows_topic_hints : grows.

Lemma grows_service_hints entries pns scope :
  ∀ services, grows (service_hints entries pns scope services).
Proof.
  induction entries as [|[name type] entries IH]; intros services; simpl;
    grows_auto.
Qed.
Hint Resolve grows_service_hints : grows.

Lemma grows_make_comm_hints hints scope : grows (_make_comm_hints hints scope).
Proof. unfold _make_comm_hints. grows_auto. Qed.
Hint Resolve grows_make_comm_hints : grows.

Lemma grows_dispatch analyse t c scope sub :
  (∀ tags scope sub, grows (analyse tags scope sub)) →
  grows (dispatch analyse t c scope sub).
Proof.
  intros Hanalyse.
  unfold dispatch, _node_tag, _include_tag, _remap_tag, _param_tag,
    _rosparam_tag, _group_tag, _arg_tag, _env_tag, _machine_tag, _test_tag,
    assert_no_children, concat_str.
  grows_auto.
  apply grows_try_except; [grows_auto |].
  intros [] h [= <-]; grows_auto.
Qed.

Lemma grows_analyse_tag rc handler t :
  (∀ t, grows (rc t)) → (∀ t c, grows (handler t c)) →
  grows (analyse_tag rc handler t).
Proof.
  intros Hrc Hhandler. unfold analyse_tag. grows_auto.
  apply grows_try_except; [grows_auto |].
  intros [] h [= <-]; grows_auto.
Qed.

Lemma grows_analyse_tree fuel :
  ∀ tags scope sub, grows (_analyse_tree fuel tags scope sub).
Proof.
  induction fuel as [|fuel IH]; intros tags scope sub; simpl.
  - grows_auto.
  - unfold analyse_children. apply grows_for_each. intros t.
    apply grows_analyse_tag; [intros ?; grows_auto |].
    intros t' c. by apply grows_dispatch.
Qed.
End grows_walk.

(** ** [add_launch] as a whole *)

Section add_launch.
Context `{Metamodel} `{Environment}.

Lemma add_launch_other_language fuel launch st :
  lf_language launch ≠ "launch" →
  add_launch fuel launch st = (st, Raise AssertionError).
Proof.
  intros Hlang. unfold add_launch.
  apply String.eqb_neq in Hlang. by rewrite Hlang.
Qed.

Lemma add_launch_without_tree fuel launch st :
  lf_language launch = "launch" → lf_tree launch = None →
  add_launch fuel launch st
  = (set_errors (λ es, es ++ ["missing parse tree: " +:+ lf_id launch])
       (set_cfg_roslaunch (λ files, files ++ [launch]) st),
     Ret (Some false)).
Proof. intros Hlang Htree. unfold add_launch. by rewrite Hlang, Htree. Qed.

Lemma commit_snoc params param st :
  commit (params ++ [param]) st
  = set_cfg_parameters (λ ps, <[full (p_rosname param) := param]> ps)
      (commit params st).
Proof. unfold commit. by rewrite fold_left_app. Qed.

Lemma commit_frame params st :
  let st' := commit params st in
  cond_lists st' = cond_lists st ∧ remap_dicts st' = remap_dicts st
  ∧ arg_dicts st' = arg_dicts st ∧ param_lists st' = param_lists st
  ∧ node_links st' = node_links st ∧ topic_objs st' = topic_objs st
  ∧ service_objs st' = service_objs st
  ∧ cfg_roslaunch st' = cfg_roslaunch st ∧ cfg_nodes st' = cfg_nodes st
  ∧ cfg_topics st' = cfg_topics st ∧ cfg_services st' = cfg_services st
  ∧ errors st' = errors st.
Proof.
  induction params as [|param params IH] using rev_ind; [done |].
  rewrite commit_snoc. simpl in *. done.
Qed.

Lemma commit_errors params st : errors (commit params st) = errors st.
Proof. apply commit_frame. Qed.

Lemma commit_roslaunch params st :
  cfg_roslaunch (commit params st) = cfg_roslaunch st.
Proof. apply commit_frame. Qed.

Lemma commit_param_lists params st :
  param_lists (commit params st) = param_lists st.
Proof. apply commit_frame. Qed.

Lemma commit_nodes params st : cfg_nodes (commit params st) = cfg_nodes st.
Proof. apply commit_frame. Qed.

Lemma commit_topics params st : cfg_topics (commit params st) = cfg_topics st.
Proof. apply commit_frame. Qed.

Lemma commit_services params st :
  cfg_services (commit params st) = cfg_services st.
Proof. apply commit_frame. Qed.

Lemma last_declared_snoc name params param :
  last_declared name (params ++ [param])
  = if String.eqb (full (p_rosname param)) name then Some param
    else last_declared name params.
Proof.
  unfold last_declared. rewrite List.filter_app. simpl.
  destruct (String.eqb _ _); [apply last_snoc | by rewrite app_nil_r].
Qed.

Lemma commit_lookup params st name :
  cfg_parameters (commit params st) !! name
  = match last_declared name params with
    | Some param => Some param
    | None => cfg_parameters st !! name
    end.
Proof.
  induction params as [|param params IH] using rev_ind; [done |].
  rewrite commit_snoc, last_declared_snoc. simpl.
  destruct (String.eqb _ _) eqn:Heq.
  - apply String.eqb_eq in Heq as <-. apply lookup_insert_eq.
  - apply String.eqb_neq in Heq. by rewrite lookup_insert_ne.
Qed.

(** The store the walk of [add_launch] starts from. *)
Lemma launch_start_store launch st :
  let st0 := (launch_start launch st).1.1 in
  cfg_roslaunch st0 = cfg_roslaunch st ++ [launch]
  ∧ cfg_parameters st0 = cfg_parameters st
  ∧ errors st0 = errors st
  ∧ cfg_nodes st0 = cfg_nodes st
  ∧ cfg_topics st0 = cfg_topics st
  ∧ cfg_services st0 = cfg_services st
  ∧ node_links st0 = node_links st
  ∧ topic_objs st0 = topic_objs st
  ∧ service_objs st0 = service_objs st
  ∧ param_lists st0 = (param_lists st ++ [[]]) ++ [[]].
Proof. done. Qed.
End add_launch.

(** X3.  The error log of the builder only grows: whatever a walk of a
    launch tree or a whole [add_launch] does, and whether it returns or
    raises, the errors logged before are still there, in the same order
    and at the front of the log. *)
Theorem error_log_only_grows `{Metamodel} `{Environment}
    (fuel : nat) (st : State) :
  (∀ tags scope sub,
     errors st `prefix_of` errors (_analyse_tree fuel tags scope sub st).1)
  ∧ (∀ launch, errors st `prefix_of` errors (add_launch fuel launch st).1).
Proof.
  split.
  - intros tags scope sub. apply (grows_analyse_tree fuel tags scope sub st).
  - intros launch.
    destruct (decide (lf_language launch = "launch")) as [Hlang | Hlang];
      [| by rewrite add_launch_other_language].
    destruct (lf_tree launch) as [tree|] eqn:Htree.
    + rewrite (add_launch_run fuel launch tree) by done.
      pose proof (grows_analyse_tree fuel tree (launch_start launch st).1.2
                    (launch_start launch st).2 (launch_start launch st).1.1)
        as Hwalk.
      apply ev_errors in Hwalk.
      destruct (_analyse_tree _ _ _ _ _) as [st1 [[]|e]]; simpl in *; [|done].
      by rewrite commit_errors.
    + rewrite add_launch_without_tree by done. simpl. by apply prefix_app_r.
Qed.

(** X4.  [add_launch] records the launch file it is given in
    [configuration.roslaunch] once, before it looks at the parse tree:
    the file is recorded also when it has no tree and when the walk
    raises.  A walk never changes that list: a file that is included
    is not recorded. *)
Theorem only_the_top_level_file_is_recorded `{Metamodel} `{Environment}
    (fuel : nat) (launch : LaunchFile) (st : State) :
  lf_language launch = "launch" →
  cfg_roslaunch (add_launch fuel launch st).1 = cfg_roslaunch st ++ [launch]
  ∧ ∀ fuel' tags scope sub st1,
      cfg_roslaunch (_analyse_tree fuel' tags scope sub st1).1
      = cfg_roslaunch st1.
Proof.
  intros Hlang. split.
  - destruct (lf_tree launch) as [tree|] eqn:Htree.
    + rewrite (add_launch_run fuel launch tree) by done.
      pose proof (grows_analyse_tree fuel tree (launch_start launch st).1.2
                    (launch_start launch st).2 (launch_start launch st).1.1)
        as Hwalk.
      apply ev_roslaunch in Hwalk.
      destruct (_analyse_tree _ _ _ _ _) as [st1 [[]|e]]; simpl in *; [|done].
      by rewrite commit_roslaunch.
    + by rewrite add_launch_without_tree.
  - intros fuel' tags scope sub st1.
    apply (grows_analyse_tree fuel' tags scope sub st1).
Qed.

(** X5.  The parameters of the configuration change all at once, at
    the end of a successful [add_launch]: when it raises, or returns
    [False] for a file without parse tree, they are as before.  When it
    succeeds, the parameters declared in the file (the list of the root
    scope) are added in the order of declaration, so that under every
    name the parameter declared last is left, and a name that was not
    declared keeps what it had. *)
Theorem parameters_commit_last_wins `{Metamodel} `{Environment}
    (fuel : nat) (launch : LaunchFile) (st st' : State)
    (o : outcome (option bool)) :
  add_launch fuel launch st = (st', o) →
  match o with
  | Ret None =>
      let declared :=
        default []
          (param_lists st' !! parameters (launch_start launch st).1.2) in
      ∀ name,
        cfg_parameters st' !! name
        = match last_declared name declared with
          | Some param => Some param
          | None => cfg_parameters st !! name
          end
  | _ => cfg_parameters st' = cfg_parameters st
  end.
Proof.
  destruct (decide (lf_language launch = "launch")) as [Hlang | Hlang].
  2:{ rewrite add_launch_other_language by done. by intros [= <- <-]. }
  destruct (lf_tree launch) as [tree|] eqn:Htree.
  2:{ rewrite add_launch_without_tree by done. by intros [= <- <-]. }
  rewrite (add_launch_run fuel launch tree) by done.
  pose proof (grows_analyse_tree fuel tree (launch_start launch st).1.2
                (launch_start launch st).2 (launch_start launch st).1.1)
    as Hwalk.
  apply ev_parameters in Hwalk.
  destruct (_analyse_tree _ _ _ _ _) as [st1 [[]|e]]; simpl in *.
  - intros [= <- <-]. intros name.
    by rewrite commit_param_lists, commit_lookup, Hwalk.
  - by intros [= <- <-].
Qed.

Section add_launch_store.
Context `{Metamodel} `{Environment}.

(** The store [add_launch] leaves: the store as it was (wrong language),
    the store with the file and one error recorded (no parse tree), or
    what the walk made of the store it started from, with the
    parameters committed if the walk returned. *)
Lemma add_launch_store fuel launch st :
  let st' := (add_launch fuel launch st).1 in
  st' = st
  ∨ st' = set_errors (λ es, es ++ ["missing parse tree: " +:+ lf_id launch])
            (set_cfg_roslaunch (λ files, files ++ [launch]) st)
  ∨ ∃ st1,
      evolves (launch_start launch st).1.1 st1
      ∧ (st' = st1 ∨ ∃ params, st' = commit params st1).
Proof.
  destruct (decide (lf_language launch = "launch")) as [Hlang | Hlang];
    [| left; by rewrite add_launch_other_language].
  destruct (lf_tree launch) as [tree|] eqn:Htree;
    [| right; left; by rewrite add_launch_without_tree].
  right. right. rewrite (add_launch_run fuel launch tree) by done.
  pose proof (grows_analyse_tree fuel tree (launch_start launch st).1.2
                (launch_start launch st).2 (launch_start launch st).1.1)
    as Hwalk.
  destruct (_analyse_tree _ _ _ _ _) as [st1 [[]|e]]; simpl in *;
    exists st1; eauto.
Qed.
End add_launch_store.

(** X6.  Nothing is ever taken out of the collections of the
    configuration: after a walk, and after [add_launch], the topics and
    the services that were there are still there, under the same names
    and in the same order, followed by the new ones, and every node
    name that was registered still is. *)
Theorem collections_only_grow `{Metamodel} `{Environment}
    (fuel : nat) (st : State) :
  (∀ tags scope sub,
     let st' := (_analyse_tree fuel tags scope sub st).1 in
     names (cfg_topics st) `prefix_of` names (cfg_topics st')
     ∧ names (cfg_services st) `prefix_of` names (cfg_services st')
     ∧ dom (cfg_nodes st) ⊆ dom (cfg_nodes st'))
  ∧ (∀ launch,
       let st' := (add_launch fuel launch st).1 in
       names (cfg_topics st) `prefix_of` names (cfg_topics st')
       ∧ names (cfg_services st) `prefix_of` names (cfg_services st')
       ∧ dom (cfg_nodes st) ⊆ dom (cfg_nodes st')).
Proof.
  split.
  - intros tags scope sub.
    destruct (grows_analyse_tree fuel tags scope sub st). done.
  - intros launch.
    destruct (add_launch_store fuel launch st)
      as [-> | [-> | (st1 & Hev & [-> | [params ->]])]];
      try destruct Hev; simpl in *;
      rewrite ?commit_topics, ?commit_services, ?commit_nodes; done.
Qed.


(** X8.  No parameter that a scope has declared is dropped: every list
    of parameters of the store (the shared lists and the staging lists
    of the scopes) is, after a walk and after [add_launch], the list it
    was followed by what was appended. *)
Theorem declared_parameters_are_kept `{Metamodel} `{Environment}
    (fuel : nat) (st : State) (l : loc) (ps : list Param) :
  param_lists st !! l = Some ps →
  (∀ tags scope sub,
     ∃ more,
       param_lists (_analyse_tree fuel tags scope sub st).1 !! l
       = Some (ps ++ more))
  ∧ (∀ launch,
       ∃ more,
         param_lists (add_launch fuel launch st).1 !! l = Some (ps ++ more)).
Proof.
  intros Hps. split.
  - intros tags scope sub.
    by apply (grows_analyse_tree fuel tags scope sub st).
  - intros launch.
    assert (param_lists (launch_start launch st).1.1 !! l = Some ps) as Hps0.
    { simpl. pose proof (lookup_lt_Some _ _ _ Hps).
      rewrite !lookup_app_l; rewrite ?length_app; simpl; [done | lia | lia]. }
    destruct (add_launch_store fuel launch st)
      as [-> | [-> | (st1 & Hev & [-> | [params ->]])]];
      try destruct Hev; rewrite ?commit_param_lists; eauto.
    + exists []. by rewrite app_nil_r.
    + exists []. by rewrite app_nil_r.
Qed.

(** X9.  Links are never removed: after a walk, the publishers,
    subscribers, servers and clients of a node instance, the publishers
    and subscribers of a topic and the clients of a service are what
    they were, followed by the links that were added; a service that
    had a server still has one. *)
Theorem links_are_never_removed `{Metamodel} `{Environment}
    (fuel : nat) (tags : list Tag) (scope : LaunchScope)
    (sub : SubstitutionParser) (st : State) :
  let st' := (_analyse_tree fuel tags scope sub st).1 in
  (∀ l nl, node_links st !! l = Some nl →
           ∃ nl', node_links st' !! l = Some nl' ∧ node_links_grow nl nl')
  ∧ (∀ l ts, topic_objs st !! l = Some ts →
             ∃ ts', topic_objs st' !! l = Some ts' ∧ topic_links_grow ts ts')
  ∧ (∀ l ss, service_objs st !! l = Some ss →
             ∃ ss', service_objs st' !! l = Some ss'
                    ∧ service_links_grow ss ss').
Proof.
  destruct (grows_analyse_tree fuel tags scope sub st). done.
Qed.

(** ** The dispatch loop, tag by tag *)

Lemma length_append a b :
  String.length (a +:+ b) = String.length a + String.length b.
Proof.
  induction a as [|c a IH]; [done |].
  rewrite append_cons. simpl. by rewrite IH.
Qed.

Lemma append_inj_r a b c : a +:+ c = b +:+ c → a = b.
Proof.
  revert b. induction a as [|x a IH]; intros [|y b] Heq.
  - done.
  - apply (f_equal String.length) in Heq.
    rewrite append_nil_l, append_cons in Heq. simpl in Heq.
    rewrite length_append in Heq. lia.
  - apply (f_equal String.length) in Heq.
    rewrite append_nil_l, append_cons in Heq. simpl in Heq.
    rewrite length_append in Heq. lia.
  - rewrite !append_cons in Heq. injection Heq as -> Heq.
    f_equal. by apply IH.
Qed.

Section walk_tag.
Context `{Metamodel} `{Environment}.

(** A conditional that the evaluator resolves to a truth value: the
    tag is part of the configuration when the value is the one the
    attribute ([if] or [unless]) asks for. *)
Lemma condition_resolved (c : bool * Expr) sub st b :
  resolve (default ∅ (arg_dicts st !! sub_arguments sub)) (sub_dirname sub) c.2
  = Ret (VBool b) →
  _condition c sub st = (st, Ret (if Bool.eqb b c.1 then CTrue else CFalse)).
Proof.
  intros Hresolve. unfold _condition, sub_resolve, read_args, gets, lift.
  rewrite !run_bind, Hresolve. by destruct (Bool.eqb b c.1).
Qed.

Lemma analyse_tree_cons fuel t rest scope sub st :
  _analyse_tree (S fuel) (t :: rest) scope sub st
  = match analyse_tag (λ t, _condition (condition t) sub)
            (λ t c, dispatch (_analyse_tree fuel) t c scope sub) t st with
    | (st', Ret _) => _analyse_tree (S fuel) rest scope sub st'
    | (st', Raise e) => (st', Raise e)
    end.
Proof. done. Qed.

(** One step of the loop, for a tag whose conditional is resolved. *)
Lemma walk_tag fuel t rest scope sub st b :
  String.eqb (tag t) "error" = false →
  resolve (default ∅ (arg_dicts st !! sub_arguments sub)) (sub_dirname sub)
    (condition t).2 = Ret (VBool b) →
  _analyse_tree (S fuel) (t :: rest) scope sub st
  = if Bool.eqb b (condition t).1 then
      match dispatch (_analyse_tree fuel) t CTrue scope sub st with
      | (st', Ret _) => _analyse_tree (S fuel) rest scope sub st'
      | (st', Raise (ConfigurationError value))
      | (st', Raise (SubstitutionError value)) =>
          _analyse_tree (S fuel) rest scope sub
            (set_errors (λ es, es ++ [value]) st')
      | (st', Raise e) => (st', Raise e)
      end
    else _analyse_tree (S fuel) rest scope sub st.
Proof.
  intros Htag Hresolve.
  rewrite analyse_tree_cons, analyse_tag_body by done.
  unfold tag_body. rewrite run_bind, (condition_resolved _ _ _ b) by done.
  destruct (Bool.eqb b (condition t).1); simpl; [|done].
  destruct (dispatch _ _ _ _ _ _) as [st' [[]|[]]]; done.
Qed.

Lemma raises_bind {A B} (m : M A) (k : A → M B) :
  (∀ a, raises (k a)) → raises (m ≫= k).
Proof.
  intros Hk st. rewrite run_bind.
  destruct (m st) as [st' [a|e]]; [apply Hk | by exists e].
Qed.

Lemma raises_raise {A} e : raises (raise (A := A) e).
Proof. intros st. by exists e. Qed.

Lemma node_tag_raises analyse t c scope sub :
  raises (_node_tag analyse t c scope sub).
Proof.
  unfold _node_tag.
  repeat (apply raises_bind; intros ?).
  destruct (_ || _); [apply raises_raise |].
  repeat (apply raises_bind; intros ?).
  match goal with |- raises (let '(_, _) := ?p in _) => destruct p end.
  repeat (apply raises_bind; intros ?).
  intros st. by exists (AttributeError "_make_missing_links").
Qed.

(** The name of the handler of a tag is the name of one of the ten
    handlers only for the ten tags. *)
Lemma handler_name_inj (name handled : string) :
  "_" +:+ name +:+ "_tag" = "_" +:+ handled +:+ "_tag" → name = handled.
Proof.
  intros Heq. rewrite !append_cons, !append_nil_l in Heq.
  injection Heq as Heq. by apply append_inj_r in Heq.
Qed.

Lemma handler_name_eqb (name handled : string) :
  name ≠ handled →
  String.eqb ("_" +:+ name +:+ "_tag") ("_" +:+ handled +:+ "_tag") = false.
Proof.
  intros Hne. apply String.eqb_neq. intros Heq.
  by apply handler_name_inj in Heq.
Qed.

Lemma dispatch_unhandled analyse t c scope sub st :
  tag t ∉ handled_tags →
  dispatch analyse t c scope sub st
  = (st, Raise (AttributeError ("_" +:+ tag t +:+ "_tag"))).
Proof.
  intros Hnot. unfold dispatch, getattr.
  assert (∀ handled name, handled ∈ handled_tags →
            name = "_" +:+ handled +:+ "_tag" →
            String.eqb ("_" +:+ tag t +:+ "_tag") name = false) as Hneq.
  { intros handled name Hin ->. apply handler_name_eqb. by intros <-. }
  unfold handled_tags in Hneq.
  rewrite (Hneq "node" "_node_tag"), (Hneq "include" "_include_tag"),
    (Hneq "remap" "_remap_tag"), (Hneq "param" "_param_tag"),
    (Hneq "rosparam" "_rosparam_tag"), (Hneq "group" "_group_tag"),
    (Hneq "arg" "_arg_tag"), (Hneq "env" "_env_tag"),
    (Hneq "machine" "_machine_tag"), (Hneq "test" "_test_tag")
    by first [reflexivity | set_solver].
  rewrite run_bind. by destruct (bool_decide _).
Qed.
End walk_tag.

(** X10.  A tag whose conditional resolves to the value that excludes
    it has no effect at all: the loop goes on with the next sibling in
    the store as it was, whatever the tag is and whatever it holds. *)
Theorem excluded_tag_has_no_effect `{Metamodel} `{Environment}
    (fuel : nat) (t : Tag) (rest : list Tag) (scope : LaunchScope)
    (sub : SubstitutionParser) (st : State) (b : bool) :
  String.eqb (tag t) "error" = false →
  resolve (default ∅ (arg_dicts st !! sub_arguments sub)) (sub_dirname sub)
    (condition t).2 = Ret (VBool b) →
  b ≠ (condition t).1 →
  _analyse_tree (S fuel) (t :: rest) scope sub st
  = _analyse_tree (S fuel) rest scope sub st.
Proof.
  intros Htag Hresolve Hexcluded.
  rewrite (walk_tag _ _ _ _ _ _ b) by done.
  destruct (Bool.eqb b (condition t).1) eqn:Heq; [|done].
  by apply Bool.eqb_prop in Heq.
Qed.

(** X11.  A tag that is part of the configuration and has no handler
    (its name is not one of the ten the builder knows, and it is not an
    error node) ends the walk: looking up the handler raises
    [AttributeError], which the loop does not catch; the store is as it
    was and the siblings that follow are not processed. *)
Theorem unknown_tag_ends_the_walk `{Metamodel} `{Environment}
    (fuel : nat) (t : Tag) (rest : list Tag) (scope : LaunchScope)
    (sub : SubstitutionParser) (st : State) :
  String.eqb (tag t) "error" = false →
  tag t ∉ handled_tags →
  resolve (default ∅ (arg_dicts st !! sub_arguments sub)) (sub_dirname sub)
    (condition t).2 = Ret (VBool (condition t).1) →
  _analyse_tree (S fuel) (t :: rest) scope sub st
  = (st, Raise (AttributeError ("_" +:+ tag t +:+ "_tag"))).
Proof.
  intros Htag Hunknown Hresolve.
  rewrite (walk_tag _ _ _ _ _ _ (condition t).1) by done.
  rewrite Bool.eqb_reflx. by rewrite dispatch_unhandled.
Qed.

(** X12.  The handler of [node] tags never returns: it raises on every
    input, at the latest when it evaluates [self._make_missing_links],
    an attribute the builder does not have.  So when the walk of a
    [node] tag returns, the tag was excluded by its conditional, or the
    conditional or the handler raised a configuration or substitution
    error and this walk logged it: the error log is the log as it was,
    followed by what the tag logged before, followed by the value of
    that error. *)
Theorem node_tag_never_returns `{Metamodel} `{Environment}
    (fuel : nat) (t : Tag) (scope : LaunchScope) (sub : SubstitutionParser)
    (st st' : State) :
  (∀ analyse c st0, ∃ e, (_node_tag analyse t c scope sub st0).2 = Raise e)
  ∧ (tag t = "node" →
     _analyse_tree (S fuel) [t] scope sub st = (st', Ret tt) →
     (∃ st1, _condition (condition t) sub st = (st1, Ret CFalse) ∧ st' = st1)
     ∨ ∃ st2 value,
         (tag_body fuel scope sub t st
          = (st2, Raise (ConfigurationError value))
          ∨ tag_body fuel scope sub t st
            = (st2, Raise (SubstitutionError value)))
         ∧ st' = set_errors (λ es, es ++ [value]) st2
         ∧ ∃ more, errors st' = errors st ++ more ++ [value]).
Proof.
  split; [intros analyse c st0; apply node_tag_raises |].
  intros Htag. rewrite analyse_tree_cons.
  rewrite analyse_tag_body by (by rewrite Htag).
  assert (grows (tag_body fuel scope sub t)) as Hgrows.
  { unfold tag_body. apply grows_bind; [apply grows_condition |].
    intros c. destruct (is_False c); [apply grows_ret |].
    apply grows_dispatch, grows_analyse_tree. }
  assert (∀ st2 value,
            tag_body fuel scope sub t st
            = (st2, Raise (ConfigurationError value))
            ∨ tag_body fuel scope sub t st
              = (st2, Raise (SubstitutionError value)) →
            ∃ more,
              errors (set_errors (λ es, es ++ [value]) st2)
              = errors st ++ more ++ [value]) as Hlogged.
  { intros st2 value Hbody.
    assert ((tag_body fuel scope sub t st).1 = st2) as Hst2
      by (by destruct Hbody as [-> | ->]).
    pose proof (ev_errors _ _ (Hgrows st)) as [more Hmore].
    rewrite Hst2 in Hmore. exists more. simpl.
    by rewrite Hmore, <- app_assoc. }
  destruct (tag_body fuel scope sub t st) as [st2 o] eqn:Hbody.
  destruct o as [[]|e].
  - intros [= <-]. left.
    unfold tag_body in Hbody. rewrite run_bind in Hbody.
    destruct (_condition (condition t) sub st) as [st1 [c|e]]; [|done].
    destruct (is_False c) eqn:Hfalse.
    + destruct c; try done. injection Hbody as <-. eauto.
    + assert (dispatch (_analyse_tree fuel) t c scope sub st1
              = _node_tag (_analyse_tree fuel) t c scope sub st1) as Hnode.
      { unfold dispatch. by rewrite Htag. }
      rewrite Hnode in Hbody.
      destruct (node_tag_raises (_analyse_tree fuel) t c scope sub st1)
        as [e He].
      rewrite Hbody in He. done.
  - destruct e; try done; intros [= <-]; right;
      exists st2, value; (split; [auto |]); split; auto.
Qed.


(** ** [param] and [arg] tags *)

Section param_tag.
Context `{Metamodel} `{Environment}.

Lemma sub_resolve_strict_run sub e st v :
  resolve_strict (default ∅ (arg_dicts st !! sub_arguments sub))
    (sub_dirname sub) e = v →
  sub_resolve_strict sub e st = (st, v).
Proof. intros <-. done. Qed.

Lemma dispatch_param analyse t c scope sub :
  tag t = "param" →
  dispatch analyse t c scope sub = _param_tag t c scope sub.
Proof. intros Htag. unfold dispatch. by rewrite Htag. Qed.

Lemma dispatch_arg analyse t c scope sub :
  tag t = "arg" →
  dispatch analyse t c scope sub = _arg_tag t c scope sub.
Proof. intros Htag. unfold dispatch. by rewrite Htag. Qed.

(** A [param] tag with none of the attributes [value], [textfile],
    [binfile] and [command]: the local variable [value] is read before
    it is assigned. *)
Lemma param_tag_without_value t c scope sub st name ptype :
  children t = [] →
  t_value t = None → t_textfile t = None → t_binfile t = None →
  t_command t = None →
  resolve_strict (default ∅ (arg_dicts st !! sub_arguments sub))
    (sub_dirname sub) (t_name t) = Ret name →
  resolve_strict (default ∅ (arg_dicts st !! sub_arguments sub))
    (sub_dirname sub) (t_type t) = Ret ptype →
  _param_tag t c scope sub st = (st, Raise (UnboundLocalError "value")).
Proof.
  intros Hchildren Hvalue Htext Hbin Hcommand Hname Htype.
  unfold _param_tag, assert_no_children.
  rewrite Hchildren, Hvalue, Htext, Hbin, Hcommand.
  rewrite (run_bind_ret _ _ st st tt) by done.
  rewrite (run_bind_ret _ _ _ _ _ (sub_resolve_strict_run _ _ _ _ Hname)).
  rewrite (run_bind_ret _ _ _ _ _ (sub_resolve_strict_run _ _ _ _ Htype)).
  done.
Qed.

(** A [param] tag with a [value] that [_convert_value] rejects. *)
Lemma param_tag_conversion_fails t c scope sub st name ptype v e :
  children t = [] →
  t_value t = Some v →
  resolve_strict (default ∅ (arg_dicts st !! sub_arguments sub))
    (sub_dirname sub) (t_name t) = Ret name →
  resolve_strict (default ∅ (arg_dicts st !! sub_arguments sub))
    (sub_dirname sub) (t_type t) = Ret ptype →
  _convert_value v ptype = Raise e →
  _param_tag t c scope sub st
  = (st, Raise (match e with
                | ValueError msg => ConfigurationError msg
                | _ => e
                end)).
Proof.
  intros Hchildren Hvalue Hname Htype Hconvert.
  unfold _param_tag, assert_no_children.
  rewrite Hchildren, Hvalue.
  rewrite (run_bind_ret _ _ st st tt) by done.
  rewrite (run_bind_ret _ _ _ _ _ (sub_resolve_strict_run _ _ _ _ Hname)).
  rewrite (run_bind_ret _ _ _ _ _ (sub_resolve_strict_run _ _ _ _ Htype)).
  rewrite (run_bind_ret _ _ st st (Some (Some v))) by done.
  unfold try_except, make_params.
  rewrite (run_bind_raise _ _ st st e)
    by (unfold lift; rewrite run_bind, Hconvert; done).
  by destruct e.
Qed.
End param_tag.

(** X13.  A [param] tag that is part of the configuration and has none
    of the attributes [value], [textfile], [binfile] and [command] ends
    the walk: the handler reads its local variable [value] before any
    assignment, and the [UnboundLocalError] is not caught by the loop.
    Nothing is logged and the siblings that follow are not processed. *)
Theorem param_without_value_ends_the_walk `{Metamodel} `{Environment}
    (fuel : nat) (t : Tag) (rest : list Tag) (scope : LaunchScope)
    (sub : SubstitutionParser) (st : State) (name ptype : option string) :
  tag t = "param" → children t = [] →
  t_value t = None → t_textfile t = None → t_binfile t = None →
  t_command t = None →
  resolve (default ∅ (arg_dicts st !! sub_arguments sub)) (sub_dirname sub)
    (condition t).2 = Ret (VBool (condition t).1) →
  resolve_strict (default ∅ (arg_dicts st !! sub_arguments sub))
    (sub_dirname sub) (t_name t) = Ret name →
  resolve_strict (default ∅ (arg_dicts st !! sub_arguments sub))
    (sub_dirname sub) (t_type t) = Ret ptype →
  _analyse_tree (S fuel) (t :: rest) scope sub st
  = (st, Raise (UnboundLocalError "value")).
Proof.
  intros Htag Hchildren Hvalue Htext Hbin Hcommand Hcond Hname Htype.
  rewrite (walk_tag _ _ _ _ _ _ (condition t).1)
    by (by rewrite ?Htag).
  rewrite Bool.eqb_reflx, dispatch_param by done.
  by rewrite (param_tag_without_value _ _ _ _ _ name ptype).
Qed.

(** X14.  A [param] tag whose value cannot be converted to its type
    declares nothing.  When [_convert_value] raises [ValueError] the
    message is logged as a configuration error and the loop goes on
    with the next sibling.  For the type [yaml] only a parser error of
    the YAML library is turned into a [ValueError]: any other error of
    [yaml.load] is not caught by the handler nor by the loop, and ends
    the walk. *)
Theorem unconvertible_param_is_logged `{Metamodel} `{Environment}
    (fuel : nat) (t : Tag) (rest : list Tag) (scope : LaunchScope)
    (sub : SubstitutionParser) (st : State) (name ptype : option string)
    (v : string) :
  tag t = "param" → children t = [] → t_value t = Some v →
  resolve (default ∅ (arg_dicts st !! sub_arguments sub)) (sub_dirname sub)
    (condition t).2 = Ret (VBool (condition t).1) →
  resolve_strict (default ∅ (arg_dicts st !! sub_arguments sub))
    (sub_dirname sub) (t_name t) = Ret name →
  resolve_strict (default ∅ (arg_dicts st !! sub_arguments sub))
    (sub_dirname sub) (t_type t) = Ret ptype →
  (∀ msg,
     _convert_value v ptype = Raise (ValueError msg) →
     _analyse_tree (S fuel) (t :: rest) scope sub st
     = _analyse_tree (S fuel) rest scope sub
         (set_errors (λ es, es ++ [msg]) st))
  ∧ (∀ msg,
       ptype = Some "yaml" →
       yaml_load v = Raise (MarkedYAMLError false msg) →
       _analyse_tree (S fuel) (t :: rest) scope sub st
       = (st, Raise (MarkedYAMLError false msg))).
Proof.
  intros Htag Hchildren Hvalue Hcond Hname Htype.
  split.
  - intros msg Hconvert.
    rewrite (walk_tag _ _ _ _ _ _ (condition t).1)
      by (by rewrite ?Htag).
    rewrite Bool.eqb_reflx, dispatch_param by done.
    by rewrite (param_tag_conversion_fails _ _ _ _ _ name ptype v
                  (ValueError msg)).
  - intros msg -> Hload.
    rewrite (walk_tag _ _ _ _ _ _ (condition t).1)
      by (by rewrite ?Htag).
    rewrite Bool.eqb_reflx, dispatch_param by done.
    rewrite (param_tag_conversion_fails _ _ _ _ _ name (Some "yaml") v
               (MarkedYAMLError false msg)); [done.. |].
    unfold _convert_value. simpl. by rewrite Hload.
Qed.

(** X15.  An [arg] tag binds its name in the dictionary of arguments of
    the scope.  With a [value] it always replaces the binding; without,
    its default takes effect only when the name is unbound or bound to
    [None].  Under a condition (of the tag or of the scope) the tag
    raises a configuration error and binds nothing. *)
Theorem arg_value_replaces_default_does_not `{Metamodel} `{Environment}
    (t : Tag) (c : Condition) (scope : LaunchScope)
    (sub : SubstitutionParser) (st : State)
    (bindings : gmap (option string) (option string)) (v : option string) :
  children t = [] →
  arg_dicts st !! arguments scope = Some bindings →
  (conditions scope = [] → c = CTrue →
   is_Some (t_value t) →
   resolve_strict (default ∅ (arg_dicts st !! sub_arguments sub))
     (sub_dirname sub) (t_value t) = Ret v →
   ∃ st',
     _arg_tag t c scope sub st = (st', Ret tt)
     ∧ arg_dicts st' !! arguments scope = Some (<[t_name t := v]> bindings))
  ∧ (conditions scope = [] → c = CTrue →
     t_value t = None →
     resolve_strict (default ∅ (arg_dicts st !! sub_arguments sub))
       (sub_dirname sub) (t_default t) = Ret v →
     ∃ st',
       _arg_tag t c scope sub st = (st', Ret tt)
       ∧ arg_dicts st' !! arguments scope
         = Some (match bindings !! t_name t with
                 | Some (Some _) => bindings
                 | _ => <[t_name t := v]> bindings
                 end))
  ∧ (conditions scope ≠ [] ∨ c ≠ CTrue →
     _arg_tag t c scope sub st
     = (st, Raise (ConfigurationError "cannot resolve conditional arg"))).
Proof.
  intros Hchildren Hbindings.
  unfold _arg_tag, assert_no_children. rewrite Hchildren.
  rewrite (run_bind_ret _ _ st st tt) by done.
  split; [| split].
  - intros -> -> [e He] Hv. rewrite He in *. simpl.
    rewrite (run_bind_ret _ _ _ _ _ (sub_resolve_strict_run _ _ _ _ Hv)).
    eexists. split; [done |]. simpl.
    by rewrite list_lookup_alter_eq, Hbindings.
  - intros -> -> Hnone Hv. rewrite Hnone. simpl.
    rewrite (run_bind_ret _ _ _ _ _ (sub_resolve_strict_run _ _ _ _ Hv)).
    unfold read_args, gets. rewrite run_bind. rewrite Hbindings. simpl.
    destruct (bindings !! t_name t) as [[bound|]|] eqn:Hbound.
    + by exists st.
    + eexists. split; [done |]. simpl.
      by rewrite list_lookup_alter_eq, Hbindings.
    + eexists. split; [done |]. simpl.
      by rewrite list_lookup_alter_eq, Hbindings.
  - intros [Hconds | Hc].
    + by rewrite bool_decide_eq_false_2.
    + destruct (bool_decide _); simpl; [|done]. by destruct c.
Qed.

(** ** The remaps of a node *)

Section node_remaps.
Context `{Metamodel}.

Lemma fold_param_lists_remaps {A} (F : A → list (list Param) → list (list Param))
    (xs : list A) : ∀ st,
  remap_dicts (fold_left (λ st x, set_param_lists (F x) st) xs st)
  = remap_dicts st.
Proof. induction xs as [|x xs IH]; intros st; simpl; [done | by rewrite IH]. Qed.

(** [make_node] gives the node instance a new dictionary with a copy of
    the remaps of the scope, and the scope of the node refers to that
    same dictionary. *)
Lemma make_node_remaps self template name ns args c st :
  ∃ st' new inst,
    make_node self template name ns args c st = (st', Ret new)
    ∧ node new = Some inst
    ∧ remaps new = ni_remaps inst
    ∧ ni_remaps inst = length (remap_dicts st)
    ∧ remap_dicts st'
      = remap_dicts st ++ [default ∅ (remap_dicts st !! remaps self)].
Proof.
  unfold make_node, LaunchScope_init. unfold_M. simpl.
  run_for_each.
  do 3 eexists. split; [done |]. simpl.
  split; [done |]. split; [done |]. split; [done |].
  by rewrite fold_param_lists_remaps.
Qed.
End node_remaps.

(** X16.  A node instance starts with a copy of the remaps of the scope
    it is made in, in a dictionary of its own that it shares with the
    scope of the node.  A remap declared in the scope of the node (a
    [remap] tag inside the [node] tag) is therefore a remap of the
    instance, and leaves the remaps of the enclosing scope as they
    were; a remap declared in the enclosing scope afterwards does not
    reach the instance. *)
Theorem node_remaps_are_its_own `{Metamodel}
    (self : LaunchScope) (template : Node) (name ns args : option string)
    (c : Condition) (st : State) (source target : option string)
    (table : gmap string string) :
  remap_dicts st !! remaps self = Some table →
  ∃ st1 scope inst st2,
    make_node self template name ns args c st = (st1, Ret scope)
    ∧ node scope = Some inst
    ∧ remaps scope = ni_remaps inst
    ∧ ni_remaps inst ≠ remaps self
    ∧ remap_dicts st1 !! ni_remaps inst = Some table
    ∧ remap scope source target st1 = (st2, Ret tt)
    ∧ remap_dicts st2 !! ni_remaps inst
      = Some (<[RosName_resolve source (namespace scope)
                  (Some (private_ns scope))
                := RosName_resolve target (namespace scope)
                     (Some (private_ns scope))]> table)
    ∧ remap_dicts st2 !! remaps self = Some table
    ∧ ∀ source' target',
        remap_dicts (remap self source' target' st2).1 !! ni_remaps inst
        = remap_dicts st2 !! ni_remaps inst.
Proof.
  intros Htable. pose proof (lookup_lt_Some _ _ _ Htable) as Hvalid.
  destruct (make_node_remaps self template name ns args c st)
    as (st1 & scope & inst & Hrun & Hnode & Hshared & Hnew & Hdicts).
  exists st1, scope, inst, (remap scope source target st1).1.
  split; [done |]. split; [done |]. split; [done |].
  split; [lia |].
  split.
  { by rewrite Hdicts, Hnew, lookup_app_r, Nat.sub_diag, Htable. }
  split; [by rewrite remap_run |].
  assert (remap_dicts (remap scope source target st1).1
          = alter
              (λ d, <[RosName_resolve source (namespace scope)
                        (Some (private_ns scope))
                      := RosName_resolve target (namespace scope)
                           (Some (private_ns scope))]> d)
              (length (remap_dicts st))
              (remap_dicts st ++ [table])) as Hdicts2.
  { rewrite remap_run. simpl. by rewrite Hshared, Hdicts, Hnew, Htable. }
  split.
  { rewrite Hdicts2, Hnew.
    by rewrite list_lookup_alter_eq, lookup_app_r, Nat.sub_diag. }
  split.
  { rewrite Hdicts2, list_lookup_alter_ne, lookup_app_l by lia. done. }
  intros source' target'. rewrite (remap_run self). simpl.
  rewrite Hnew, list_lookup_alter_ne by lia. done.
Qed.

(** ** [rosparam] tags *)

Section rosparam.
Context `{Metamodel} `{Environment}.

Lemma dispatch_rosparam analyse t c scope sub :
  tag t = "rosparam" →
  dispatch analyse t c scope sub = _rosparam_tag t c scope sub.
Proof. intros Htag. unfold dispatch. by rewrite Htag. Qed.

Lemma remove_param_store self name ns c st :
  (remove_param self name ns c st).1 = st.
Proof.
  unfold remove_param, getattr. unfold_M.
  destruct (cfg_parameters st !! _) as [param|]; [|done].
  by destruct (_ || _).
Qed.

Lemma set_param_lists_id (f : list (list Param) → list (list Param)) st :
  f (param_lists st) = param_lists st → set_param_lists f st = st.
Proof. destruct st. unfold set_param_lists. simpl. by intros ->. Qed.

Lemma set_param_lists_twice f g st :
  set_param_lists g (set_param_lists f st) = set_param_lists (g ∘ f) st.
Proof. done. Qed.

Lemma fold_append_store (g : unfold_item → Param) (l : loc) xs : ∀ st,
  fold_left (λ st x, set_param_lists (alter (λ old, old ++ [g x]) l) st) xs st
  = set_param_lists (alter (λ old, old ++ map g xs) l) st.
Proof.
  induction xs as [|x xs IH]; intros st; simpl.
  - symmetry. apply set_param_lists_id. apply list_alter_id.
    intros old. by rewrite app_nil_r.
  - rewrite IH, set_param_lists_twice. unfold set_param_lists. simpl.
    f_equal. rewrite list_alter_alter_eq. apply list_alter_ext; [|done].
    intros old _. simpl. by rewrite <- app_assoc.
Qed.

(** [_yaml_param] with [private = False], for a value whose keys are
    strings: every item goes to the list of parameters of the scope. *)
Lemma yaml_param_public self name value conditions st :
  string_keys value = true →
  _yaml_param self name value conditions false st
  = (set_param_lists
       (alter
          (λ old, old ++ map (item_param self conditions)
                           (flatten "" name value))
          (parameters self)) st,
     Ret tt).
Proof.
  intros Hkeys. rewrite _yaml_param_run by done. f_equal.
  rewrite <- (fold_append_store (item_param self conditions)).
  generalize (flatten "" name value) as items. intros items. revert st.
  induction items as [|item items IH]; intros st; simpl; [done |].
  rewrite IH. unfold emit_item, item_committed. simpl.
  by rewrite orb_true_r.
Qed.
End rosparam.

(** X17.  [remove_param] never removes anything: on every input the
    store it leaves is the store it was given.  For a parameter that is
    in the configuration, with no conditional guard, the method reaches
    [self.resources], an attribute a scope does not have, and raises
    [AttributeError]; the loop does not catch it, so such a
    [rosparam] tag with the command [delete] ends the walk. *)
Theorem delete_never_takes_effect `{Metamodel} `{Environment}
    (self : LaunchScope) (name ns : option string) (c : Condition)
    (st : State) :
  (remove_param self name ns c st).1 = st
  ∧ (∀ param,
       cfg_parameters st !! deleted_name self name ns = Some param →
       c = CTrue → conditions self = [] →
       remove_param self name ns c st
       = (st, Raise (AttributeError "resources"))
       ∧ ∀ fuel t rest sub filepath,
           tag t = "rosparam" → children t = [] →
           resolve (default ∅ (arg_dicts st !! sub_arguments sub))
             (sub_dirname sub) (condition t).2
           = Ret (VBool (condition t).1) →
           resolve_strict (default ∅ (arg_dicts st !! sub_arguments sub))
             (sub_dirname sub) (t_command t) = Ret (Some "delete") →
           resolve_strict (default ∅ (arg_dicts st !! sub_arguments sub))
             (sub_dirname sub) (t_namespace t) = Ret ns →
           resolve_strict (default ∅ (arg_dicts st !! sub_arguments sub))
             (sub_dirname sub) (t_file t) = Ret filepath →
           resolve_strict (default ∅ (arg_dicts st !! sub_arguments sub))
             (sub_dirname sub) (t_name t) = Ret name →
           _analyse_tree (S fuel) (t :: rest) self sub st
           = (st, Raise (AttributeError "resources"))).
Proof.
  split; [apply remove_param_store |].
  intros param Hparam -> Hconds.
  assert (remove_param self name ns CTrue st
          = (st, Raise (AttributeError "resources"))) as Hremove
    by (by eapply remove_param_unguarded).
  split; [done |].
  intros fuel t rest sub filepath Htag Hchildren Hcond Hcommand Hns Hfile
    Hname.
  rewrite (walk_tag _ _ _ _ _ _ (condition t).1) by (by rewrite ?Htag).
  rewrite Bool.eqb_reflx, dispatch_rosparam by done.
  unfold _rosparam_tag, assert_no_children. rewrite Hchildren.
  rewrite (run_bind_ret _ _ st st tt) by done.
  rewrite (run_bind_ret _ _ _ _ _ (sub_resolve_strict_run _ _ _ _ Hcommand)).
  rewrite (run_bind_ret _ _ _ _ _ (sub_resolve_strict_run _ _ _ _ Hns)).
  rewrite (run_bind_ret _ _ _ _ _ (sub_resolve_strict_run _ _ _ _ Hfile)).
  rewrite (run_bind_ret _ _ _ _ _ (sub_resolve_strict_run _ _ _ _ Hname)).
  simpl. by rewrite Hremove.
Qed.

(** X18.  [make_rosparam] changes the store only when it returns.  It
    raises, with the store as it was: [ImportError] when the module
    [rosparam] cannot be imported; what [yaml.load] raises (an error of
    the YAML library becomes a configuration error with the same
    message); a configuration error when there is no [param] name for a
    value that is not a mapping; and [AttributeError] when a key of the
    value is not a string.  In every other case it returns: the leaves
    of the value have been appended to the list of parameters of the
    scope, one Parameter each, and nothing has been staged. *)
Theorem rosparam_load_is_atomic `{Metamodel} `{Environment}
    (self : LaunchScope) (name ns : option string) (value : string)
    (c : Condition) (st st' : State) (o : outcome unit) :
  make_rosparam self name ns value c st = (st', o) →
  match o with
  | Ret _ =>
      rosparam_importable = true
      ∧ ∃ v,
          yaml_load value = Ret v
          ∧ (PyStr.truthy_opt name = true ∨ is_dict v = true)
          ∧ string_keys v = true
          ∧ st' = set_param_lists
                    (alter
                       (λ old,
                          old ++
                          map (item_param self
                                 (with_condition (conditions self) c))
                            (flatten "" (rosparam_name self name ns) v))
                       (parameters self)) st
  | Raise e =>
      st' = st
      ∧ if rosparam_importable then
          match yaml_load value with
          | Ret v =>
              if negb (PyStr.truthy_opt name) && negb (is_dict v) then
                e = ConfigurationError
                      "'param' attribute must be set for non-dictionary values"
              else string_keys v = false ∧ e = AttributeError "startswith"
          | Raise (MarkedYAMLError _ msg) => e = ConfigurationError msg
          | Raise e' => e = e'
          end
        else e = ImportError "rosparam"
  end.
Proof.
  unfold make_rosparam, import_rosparam.
  destruct rosparam_importable; [| by intros [= <- <-]].
  rewrite (run_bind_ret _ _ st st tt) by done.
  unfold try_except, lift. rewrite run_bind.
  destruct (yaml_load value) as [v|e] eqn:Hload.
  2:{ destruct e; intros [= <- <-]; done. }
  unfold rosparam_name.
  destruct (PyStr.truthy_opt name) eqn:Hname; simpl.
  - rewrite (run_bind_ret _ _ st st _ eq_refl).
    destruct (string_keys v) eqn:Hkeys.
    + rewrite yaml_param_public by done.
      intros [= <- <-]. split; [done |]. exists v. auto.
    + rewrite _yaml_param_raises by done. by intros [= <- <-].
  - destruct (is_dict v) eqn:Hdict; simpl.
    + rewrite (run_bind_ret _ _ st st _ eq_refl).
      destruct (string_keys v) eqn:Hkeys.
      * rewrite yaml_param_public by done.
        intros [= <- <-]. split; [done |]. exists v. auto.
      * rewrite _yaml_param_raises by done. by intros [= <- <-].
    + intros [= <- <-]. done.
Qed.

(** ** Names taken apart: nodelets and hints *)

Lemma all_chars_app P a b :
  all_chars P (a +:+ b) = all_chars P a && all_chars P b.
Proof.
  induction a as [|c a IH]; [done |].
  rewrite append_cons. simpl. by rewrite IH, andb_assoc.
Qed.

Lemma split_ws_aux_word w : ∀ s acc,
  all_chars (λ c, negb (PyStr.is_space c)) w = true →
  PyStr.split_ws_aux (w +:+ s) acc = PyStr.split_ws_aux s (acc +:+ w).
Proof.
  induction w as [|c w IH]; intros s acc Hword.
  - rewrite append_nil_l. f_equal.
    induction acc as [|x acc IHacc]; [done |].
    by rewrite append_cons, <- IHacc.
  - simpl in Hword. apply andb_prop in Hword as [Hc Hw].
    rewrite append_cons. simpl.
    apply negb_true_iff in Hc. rewrite Hc.
    rewrite IH by done. f_equal.
    by rewrite append_assoc.
Qed.

Lemma split_ws_aux_space s acc :
  PyStr.truthy acc = true →
  PyStr.split_ws_aux (String " " s) acc = acc :: PyStr.split_ws_aux s "".
Proof. by destruct acc. Qed.

Lemma split_ws_aux_end acc :
  PyStr.truthy acc = true → PyStr.split_ws_aux "" acc = [acc].
Proof. by destruct acc. Qed.

Lemma split_ws_aux_nonempty s : ∀ acc,
  PyStr.truthy acc = true → PyStr.split_ws_aux s acc ≠ [].
Proof.
  induction s as [|c s IH]; intros acc Hacc.
  - by rewrite split_ws_aux_end.
  - simpl. destruct (PyStr.is_space c).
    + by destruct acc.
    + apply IH. by apply append_truthy.
Qed.

Lemma is_word_parts w :
  is_word w = true →
  PyStr.truthy w = true
  ∧ all_chars (λ c, negb (PyStr.is_space c)) w = true.
Proof. unfold is_word. intros Hw. by apply andb_prop in Hw. Qed.

Lemma append_nil_r s : s +:+ "" = s.
Proof. induction s as [|c s IH]; [done | by rewrite append_cons, IH]. Qed.

(** The words of [first spec manager...]: at least three, the first two
    being [first] and [spec]. *)
Lemma split_ws_three first spec manager tail :
  is_word first = true → is_word spec = true → is_word manager = true →
  ∃ rest,
    PyStr.split_ws (first +:+ " " +:+ spec +:+ " " +:+ manager +:+ tail)
    = first :: spec :: rest
    ∧ rest ≠ [].
Proof.
  intros Hfirst Hspec Hmanager.
  apply is_word_parts in Hfirst as [Hf1 Hf2].
  apply is_word_parts in Hspec as [Hs1 Hs2].
  apply is_word_parts in Hmanager as [Hm1 Hm2].
  unfold PyStr.split_ws.
  rewrite split_ws_aux_word, append_nil_l by done.
  rewrite append_cons, append_nil_l, split_ws_aux_space by done.
  rewrite split_ws_aux_word, append_nil_l by done.
  rewrite append_cons, append_nil_l, split_ws_aux_space by done.
  rewrite split_ws_aux_word, append_nil_l by done.
  eexists. split; [done |]. by apply split_ws_aux_nonempty.
Qed.

Lemma split_ws_two first spec :
  is_word first = true → is_word spec = true →
  PyStr.split_ws (first +:+ " " +:+ spec) = [first; spec].
Proof.
  intros Hfirst Hspec.
  apply is_word_parts in Hfirst as [Hf1 Hf2].
  apply is_word_parts in Hspec as [Hs1 Hs2].
  unfold PyStr.split_ws.
  rewrite split_ws_aux_word, append_nil_l by done.
  rewrite append_cons, append_nil_l, split_ws_aux_space by done.
  rewrite <- (append_nil_r spec) at 1.
  by rewrite split_ws_aux_word, append_nil_l, split_ws_aux_end.
Qed.

Lemma split_ws_one w : is_word w = true → PyStr.split_ws w = [w].
Proof.
  intros Hw. apply is_word_parts in Hw as [Hw1 Hw2].
  unfold PyStr.split_ws. rewrite <- (append_nil_r w) at 1.
  by rewrite split_ws_aux_word, append_nil_l, split_ws_aux_end.
Qed.

Lemma truthy_app_l a b : PyStr.truthy a = true → PyStr.truthy (a +:+ b) = true.
Proof. destruct a; [done | by rewrite append_cons]. Qed.

Lemma split_char_aux_word c w : ∀ s acc,
  all_chars (λ d, negb (Ascii.eqb d c)) w = true →
  PyStr.split_char_aux c (w +:+ s) acc = PyStr.split_char_aux c s (acc +:+ w).
Proof.
  induction w as [|d w IH]; intros s acc Hword.
  - by rewrite append_nil_l, append_nil_r.
  - simpl in Hword. apply andb_prop in Hword as [Hd Hw].
    rewrite append_cons. simpl.
    apply negb_true_iff in Hd. rewrite Hd.
    rewrite IH by done. f_equal.
    by rewrite append_assoc.
Qed.

Lemma split_char_two p e :
  no_slash p = true → no_slash e = true →
  PyStr.split_char "/" (p +:+ "/" +:+ e) = [p; e].
Proof.
  intros Hp He. unfold PyStr.split_char.
  rewrite split_char_aux_word, append_nil_l by done.
  rewrite append_cons, append_nil_l. simpl.
  rewrite <- (append_nil_r e) at 1.
  rewrite split_char_aux_word, append_nil_l by done. done.
Qed.

Lemma rsplit1_none c s :
  all_chars (λ d, negb (Ascii.eqb d c)) s = true →
  PyStr.rsplit1 c s = (None, s).
Proof.
  induction s as [|d s IH]; intros Hs; [done |].
  simpl in *. apply andb_prop in Hs as [Hd Hs].
  apply negb_true_iff in Hd. by rewrite IH, Hd.
Qed.

Lemma rsplit1_last c head last :
  all_chars (λ d, negb (Ascii.eqb d c)) last = true →
  PyStr.rsplit1 c (head +:+ String c last) = (Some head, last).
Proof.
  intros Hlast. induction head as [|d head IH].
  - rewrite append_nil_l. simpl.
    by rewrite rsplit1_none, Ascii.eqb_refl.
  - rewrite append_cons. simpl. by rewrite IH.
Qed.

Section get_node.
Context `{Metamodel} `{Environment}.

Lemma get_node_indexed pkg exe (k : M (string * string)) st :
  k st = (st, Ret (pkg, exe)) →
  ('(pkg, exe) ← k;
   let node := sources_nodes ("node:" +:+ pkg +:+ "/" +:+ exe) in
   let package := sources_packages ("package:" +:+ pkg) in
   if negb package then
     raise (ConfigurationError ("cannot find package: " +:+ pkg))
   else
     match node with
     | Some node => mret node
     | None =>
         mret (mkNode exe (RosName_new (Some "?") None None None) [] [] [] [])
     end) st
  = (st, indexed_node pkg exe).
Proof.
  intros Hk. rewrite (run_bind_ret _ _ _ _ _ Hk). unfold indexed_node.
  destruct (sources_packages _); simpl; [|done].
  by destruct (sources_nodes _).
Qed.
End get_node.

(** X19.  [_get_node] looks the node up under the package and type of
    the tag, unless the type is [nodelet].  A nodelet needs arguments:
    without, a configuration error is raised.  When the first word of
    the arguments is [load] or [standalone] and there are at least
    three words, as in [load pkg/Type manager], it is the package and
    the type named by the second word that are looked up, and the
    package of the tag is not used; with that first word alone, or with
    two words only, as in [standalone pkg/Type], a configuration error
    is raised.  For a nodelet started with any other single word (a
    manager) it is the [nodelet] executable of the package of the tag.
    Where a node is looked up the answer is the node of the source
    index, a placeholder without communication calls when the index has
    the package but not the node, or a configuration error when it does
    not have the package. *)
Theorem nodelet_load_names_its_node `{Metamodel} `{Environment}
    (pkg exe : string) (args : option string) (st : State) :
  (exe ≠ "nodelet" → _get_node pkg exe args st = (st, indexed_node pkg exe))
  ∧ (PyStr.truthy_opt args = false →
     _get_node pkg "nodelet" args st
     = (st, Raise (ConfigurationError "nodelet without args")))
  ∧ (∀ first p e manager tail,
       first = "load" ∨ first = "standalone" →
       no_slash p = true → no_slash e = true →
       is_word (p +:+ "/" +:+ e) = true → is_word manager = true →
       _get_node pkg "nodelet"
         (Some (first +:+ " " +:+ (p +:+ "/" +:+ e) +:+ " " +:+ manager
                  +:+ tail)) st
       = (st, indexed_node p e))
  ∧ (∀ first spec,
       first = "load" ∨ first = "standalone" →
       is_word spec = true →
       _get_node pkg "nodelet" (Some first) st
       = (st, Raise (ConfigurationError "nodelet load: too few arguments"))
       ∧ _get_node pkg "nodelet" (Some (first +:+ " " +:+ spec)) st
         = (st, Raise (ConfigurationError "nodelet load: too few arguments")))
  ∧ (∀ word,
       is_word word = true → word ≠ "load" → word ≠ "standalone" →
       _get_node pkg "nodelet" (Some word) st
       = (st, indexed_node pkg "nodelet")).
Proof.
  split; [| split; [| split; [| split]]].
  - intros Hexe. unfold _get_node. apply get_node_indexed.
    apply String.eqb_neq in Hexe. by rewrite Hexe.
  - intros Hargs. unfold _get_node. rewrite String.eqb_refl, Hargs. done.
  - intros first p e manager tail Hfirst Hp He Hspec Hmanager.
    assert (is_word first = true) as Hword by (by destruct Hfirst as [-> | ->]).
    destruct (split_ws_three first (p +:+ "/" +:+ e) manager tail)
      as (rest & Hsplit & Hrest); [done.. |].
    unfold _get_node. apply get_node_indexed.
    rewrite String.eqb_refl. simpl.
    rewrite truthy_app_l by (by apply is_word_parts in Hword as [? _]).
    simpl. rewrite Hsplit.
    replace (String.eqb first "load" || String.eqb first "standalone")
      with true by (by destruct Hfirst as [-> | ->]).
    destruct rest as [|word rest]; [done |]. simpl.
    by rewrite split_char_two.
  - intros first spec Hfirst Hspec.
    assert (is_word first = true) as Hword by (by destruct Hfirst as [-> | ->]).
    split.
    + by destruct Hfirst as [-> | ->].
    + unfold _get_node. rewrite String.eqb_refl. simpl.
      rewrite truthy_app_l by (by apply is_word_parts in Hword as [? _]).
      simpl. rewrite split_ws_two by done.
      replace (String.eqb first "load" || String.eqb first "standalone")
        with true by (by destruct Hfirst as [-> | ->]).
      done.
  - intros word Hword Hload Hstandalone.
    unfold _get_node. apply get_node_indexed.
    rewrite String.eqb_refl. simpl.
    destruct (is_word_parts word Hword) as [Htruthy _].
    rewrite Htruthy. simpl. rewrite split_ws_one by done.
    apply String.eqb_neq in Hload, Hstandalone.
    by rewrite Hload, Hstandalone.
Qed.

(** X20.  The name of a communication hint is split at its last ['/']:
    what follows is the name, what precedes is its namespace, resolved
    in the scope of the node.  A name without ['/'] gets the namespace
    ['/'].  A name that begins with its only ['/'] gets the empty
    namespace, for which [_resolve_ns] answers the namespace of the
    scope: such a name is taken relative to the scope.  In a scope
    without node the lookup of the remaps of the node fails. *)
Theorem hint_name_is_split_at_last_slash `{Metamodel} `{Environment}
    (pns : string) (scope : LaunchScope) (st : State) :
  (∀ inst name,
     node scope = Some inst → no_slash name = true →
     comm_hint_rosname name pns scope st
     = (st, Ret (RosName_new (Some name)
                   (Some (_resolve_ns scope (Some "/"))) (Some pns)
                   (Some (default ∅ (remap_dicts st !! ni_remaps inst))))))
  ∧ (∀ inst head last,
       node scope = Some inst → no_slash last = true →
       comm_hint_rosname (head +:+ "/" +:+ last) pns scope st
       = (st, Ret (RosName_new (Some last)
                     (Some (_resolve_ns scope (Some head))) (Some pns)
                     (Some (default ∅ (remap_dicts st !! ni_remaps inst)))))
       ∧ (head = "" → _resolve_ns scope (Some head) = namespace scope))
  ∧ (∀ name,
       node scope = None →
       comm_hint_rosname name pns scope st
       = (st, Raise (AttributeError "remaps"))).
Proof.
  split; [| split].
  - intros inst name Hnode Hname. unfold comm_hint_rosname.
    by rewrite rsplit1_none, Hnode.
  - intros inst head last Hnode Hlast. split.
    + unfold comm_hint_rosname.
      rewrite append_cons, append_nil_l, rsplit1_last, Hnode by done.
      done.
    + by intros ->.
  - intros name Hnode. unfold comm_hint_rosname.
    destruct (PyStr.rsplit1 "/" name). by rewrite Hnode.
Qed.

(** X21.  [ConfigurationHints] can only be made of no hints at all.
    With one hint of any kind the constructor raises [NameError]: the
    call in its loops has [pns] as an argument, a name that is bound
    neither in the constructor nor in the module.  With no hints it
    returns an object whose four lists are empty, and [topics()] and
    [services()] of that object are empty. *)
Theorem hints_object_takes_no_hints (make : string → M unit) (hints : Hints)
    (st : State) :
  (no_hints hints = false →
   ConfigurationHints_init make hints st = (st, Raise (NameError "pns")))
  ∧ (no_hints hints = true →
     ∃ object,
       ConfigurationHints_init make hints st = (st, Ret object)
       ∧ ConfigurationHints_topics object = []
       ∧ ConfigurationHints_services object = []).
Proof.
  assert (∀ cls, cls = "Topic" ∨ cls = "Service" →
            ∀ st, (hint_arguments cls ;; make cls) st
                  = (st, Raise (NameError "pns"))) as Hraise.
  { intros cls [-> | ->] st'; done. }
  unfold no_hints, ConfigurationHints_init.
  destruct hints as [[|a advertise] [|s subscribe] [|v service] [|c client]];
    simpl; split; intros Hhints; try done;
    try (eexists; split; [done | done]);
    repeat first
      [ rewrite (run_bind_raise _ _ st st (NameError "pns"))
          by (simpl; rewrite (run_bind_raise _ _ st st (NameError "pns"));
              [done | by apply Hraise; auto])
      | rewrite (run_bind_ret _ _ st st tt) by done ];
    done.
Qed.

(** ** One link per call site *)

Section same_links.

Lemma same_links_refl st : same_links st st.
Proof. by split. Qed.

Lemma same_links_trans st1 st2 st3 :
  same_links st1 st2 → same_links st2 st3 → same_links st1 st3.
Proof. intros [] []. split; congruence. Qed.

Lemma same_links_cond_lists g st : same_links st (set_cond_lists g st).
Proof. by split. Qed.

Lemma map_alter_same {A B} (f : A → B) (g : A → A) (l : list A) :
  (∀ x, f (g x) = f x) → ∀ i, map f (alter g i l) = map f l.
Proof.
  intros Hg. induction l as [|x l IH]; intros [|i]; simpl; try done.
  - by rewrite Hg.
  - f_equal. apply IH.
Qed.

Lemma same_links_conditions l c st :
  same_links st
    (set_topic_objs
       (alter (λ ts, mkTopicState (topic_publishers ts)
                       (topic_subscribers ts) c) l) st).
Proof.
  split; try done. simpl. by apply map_alter_same.
Qed.

(** The loop of [_update_topic_conditions] always returns. *)
Lemma update_conditions_loop_returns get set links :
  (∀ st, ∃ c, get st = (st, Ret c)) →
  (∀ c st, ∃ st', set c st = (st', Ret tt) ∧ same_links st st') →
  ∀ st, ∃ st',
    update_conditions_loop get set links st = (st', Ret tt)
    ∧ same_links st st'.
Proof.
  intros Hget Hset.
  induction links as [|[nc lc] links IH]; intros st; simpl.
  - exists st. split; [done | apply same_links_refl].
  - destruct (bool_decide (nc = [])); [apply Hset |].
    destruct (Hget st) as [c Hc].
    rewrite (run_bind_ret _ _ _ _ _ Hc).
    unfold extend_conds at 1. unfold modify at 1.
    rewrite (run_bind_ret _ _ st
               (set_cond_lists (alter (λ old, old ++ nc) c) st) tt) by done.
    destruct (Hget (set_cond_lists (alter (λ old, old ++ nc) c) st))
      as [c' Hc'].
    rewrite (run_bind_ret _ _ _ _ _ Hc').
    unfold read_conds, gets. rewrite run_bind.
    unfold extend_conds, modify. rewrite run_bind.
    match goal with
    | |- context [update_conditions_loop get set links ?s] =>
        destruct (IH s) as (st' & Hrun & Hsame)
    end.
    exists st'. split; [done |].
    eapply same_links_trans; [| exact Hsame].
    eapply same_links_trans; apply same_links_cond_lists.
Qed.

Lemma update_topic_conditions_returns topic st :
  ∃ st',
    _update_topic_conditions topic st = (st', Ret tt) ∧ same_links st st'.
Proof.
  unfold _update_topic_conditions.
  set (get := (ts ← topic_state topic; mret (topic_conditions ts)) : M loc).
  set (set_ := λ c, modify_topic topic (λ ts,
         mkTopicState (topic_publishers ts) (topic_subscribers ts) c)).
  assert (∀ st, ∃ c, get st = (st, Ret c)) as Hget by (intros; by eexists).
  assert (∀ c st, ∃ st', set_ c st = (st', Ret tt) ∧ same_links st st')
    as Hset.
  { intros c st0. eexists. split; [done |]. apply same_links_conditions. }
  unfold new_cond_list. rewrite run_bind.
  destruct (Hset (length (cond_lists st))
              (set_cond_lists (λ h, h ++ [[]]) st)) as (st0 & Hrun0 & Hsame0).
  rewrite (run_bind_ret _ _ _ _ _ Hrun0).
  unfold topic_state, gets. rewrite run_bind.
  destruct (update_conditions_loop_returns get set_
              (map pubsub_conditions
                 (topic_publishers
                    (default (mkTopicState [] [] 0)
                       (topic_objs st0 !! t_id topic))))
              Hget Hset st0) as (st1 & Hrun1 & Hsame1).
  rewrite (run_bind_ret _ _ _ _ _ Hrun1). rewrite run_bind.
  destruct (update_conditions_loop_returns get set_
              (map pubsub_conditions
                 (topic_subscribers
                    (default (mkTopicState [] [] 0)
                       (topic_objs st1 !! t_id topic))))
              Hget Hset st1) as (st2 & Hrun2 & Hsame2).
  exists st2. split; [done |].
  eapply same_links_trans; [apply same_links_cond_lists |].
  eapply same_links_trans; [done |].
  eapply same_links_trans; done.
Qed.

Lemma same_links_lookup st st' l ts :
  same_links st st' → topic_objs st !! l = Some ts →
  ∃ ts', topic_objs st' !! l = Some ts' ∧ topic_links ts' = topic_links ts.
Proof.
  intros [_ _ _ Hobjs] Hts.
  assert (map topic_links (topic_objs st') !! l = Some (topic_links ts))
    as Hl by (by rewrite Hobjs, list_lookup_fmap, Hts).
  rewrite list_lookup_fmap in Hl.
  destruct (topic_objs st' !! l) as [ts'|]; [|done].
  exists ts'. split; [done |]. simpl in Hl. congruence.
Qed.

Lemma same_links_length st st' :
  same_links st st' → length (topic_objs st') = length (topic_objs st).
Proof.
  intros [_ _ _ Hobjs]. apply (f_equal length) in Hobjs.
  by rewrite !length_map in Hobjs.
Qed.
End same_links.

Section link_steps.
Context `{Metamodel} `{Environment}.

Lemma grows_link_step publisher self inst hints call :
  grows (link_step publisher self inst hints call).
Proof.
  unfold link_step, modify_node_links, modify_topic.
  apply grows_bind; [apply grows_make_topic_link | intros link].
  apply grows_bind; [apply grows_modify; destruct publisher; grows_prim |].
  intros _.
  apply grows_bind; [apply grows_modify; destruct publisher; grows_prim |].
  intros _. apply grows_update_topic_conditions.
Qed.

Lemma link_rosname_remaps self inst name ns pns st st' :
  remap_dicts st' = remap_dicts st →
  link_rosname self inst name ns pns st' = link_rosname self inst name ns pns st.
Proof. unfold link_rosname. by intros ->. Qed.

Lemma collection_get_elem (collection : list Topic) name topic :
  collection_get collection name = Some topic → topic ∈ collection.
Proof.
  unfold collection_get. intros Hfind.
  apply List.find_some in Hfind as [Hin _]. by apply list_elem_of_In.
Qed.

Lemma names_elem (collection : list Topic) topic :
  topic ∈ collection → full (t_rosname topic) ∈ names collection.
Proof.
  intros Hin. unfold names. apply list_elem_of_fmap. by exists topic.
Qed.

(** What [_make_topic_link] leaves for a name without wildcard marker. *)
Lemma make_topic_link_facts self inst hints call st :
  topics_allocated st → literal_call self inst st call →
  ∃ st1 link,
    _make_topic_link self inst (c_name call) (c_namespace call)
      (private_ns self) (c_type call) (c_queue_size call) (c_conditions call)
      hints st
    = (st1, Ret link)
    ∧ remap_dicts st1 = remap_dicts st
    ∧ node_links st1 = node_links st
    ∧ topics_allocated st1
    ∧ l_topic link ∈ cfg_topics st1
    ∧ call_link self inst st call link.
Proof.
  intros Hallocated Hliteral.
  pose proof (make_topic_link_literal self inst (c_name call)
                (c_namespace call) (private_ns self) (c_type call)
                (c_queue_size call) (c_conditions call) hints st Hliteral)
    as Hlink.
  cbv zeta in Hlink.
  destruct (collection_get (cfg_topics st) _) as [topic|] eqn:Hget.
  - do 2 eexists. split; [exact Hlink |].
    split; [done |]. split; [done |]. split; [done |].
    split; [by eapply collection_get_elem |].
    unfold call_link, link_to. simpl.
    by rewrite (collection_get_name _ _ _ Hget).
  - do 2 eexists. split; [exact Hlink |].
    unfold with_new_topic, collection_add, topics_allocated. simpl.
    rewrite Hget.
    split; [done |]. split; [done |].
    split.
    { rewrite length_app. simpl. apply Forall_app. split.
      - eapply Forall_impl; [exact Hallocated |]. simpl. intros ? ?. lia.
      - repeat constructor. simpl. lia. }
    split; [apply elem_of_app; right; by apply list_elem_of_singleton |].
    by unfold call_link, link_to.
Qed.

Lemma linked_evolves publisher st st' link :
  evolves st st' → linked publisher st link → linked publisher st' link.
Proof.
  intros Hev [Hname (ts & Hts & Hin)]. split.
  - destruct (ev_topics _ _ Hev) as [more ->].
    apply elem_of_app. by left.
  - destruct (ev_topic_objs _ _ Hev _ _ Hts) as (ts' & Hts' & [Hp Hs]).
    exists ts'. split; [done |].
    destruct publisher.
    + destruct Hp as [more ->]. apply elem_of_app. by left.
    + destruct Hs as [more ->]. apply elem_of_app. by left.
Qed.

Lemma link_step_run publisher self inst hints call st nl :
  topics_allocated st → node_links st !! ni_id inst = Some nl →
  literal_call self inst st call →
  ∃ st' link,
    link_step publisher self inst hints call st = (st', Ret tt)
    ∧ remap_dicts st' = remap_dicts st
    ∧ node_links st' !! ni_id inst
      = Some (if publisher then
                mkNodeLinks (publishers nl ++ [link]) (subscribers nl)
                  (servers nl) (clients nl)
              else
                mkNodeLinks (publishers nl) (subscribers nl ++ [link])
                  (servers nl) (clients nl))
    ∧ topics_allocated st'
    ∧ call_link self inst st call link
    ∧ linked publisher st' link.
Proof.
  intros Hallocated Hnl Hliteral.
  destruct (make_topic_link_facts self inst hints call st Hallocated Hliteral)
    as (st1 & link & Hlink & Hremaps & Hnodes & Hallocated1 & Hin & Hcall).
  unfold link_step. rewrite (run_bind_ret _ _ _ _ _ Hlink).
  unfold modify_node_links, modify_topic, modify. rewrite !run_bind.
  match goal with
  | |- context [_update_topic_conditions ?topic ?s] =>
      destruct (update_topic_conditions_returns topic s)
        as (st4 & Hrun & Hsame);
      set (st3 := s) in *
  end.
  assert (t_id (l_topic link) < length (topic_objs st1)) as Hvalid
    by (by apply (proj1 (Forall_forall _ _) Hallocated1)).
  destruct (lookup_lt_is_Some_2 _ _ Hvalid) as [ts0 Hts0].
  exists st4, link. split; [done |].
  destruct Hsame as [Hr Hn Ht Ho] eqn:Hsame'. clear Hsame'.
  split; [by rewrite Hr |].
  split.
  { rewrite Hn. subst st3. simpl.
    rewrite Hnodes, list_lookup_alter_eq, Hnl. by destruct publisher. }
  split.
  { unfold topics_allocated. rewrite Ht.
    rewrite (same_links_length st3 st4) by (by split).
    subst st3. simpl. by rewrite length_alter. }
  split; [done |].
  split.
  { rewrite Ht. subst st3. simpl. by apply names_elem. }
  assert (∃ ts3, topic_objs st3 !! t_id (l_topic link) = Some ts3
                 ∧ link ∈ (if publisher then topic_publishers ts3
                           else topic_subscribers ts3))
    as (ts3 & Hts3 & Hin3).
  { subst st3. simpl. rewrite list_lookup_alter_eq, Hts0. simpl.
    eexists. split; [done |].
    destruct publisher; simpl; apply elem_of_app; right;
      by apply list_elem_of_singleton. }
  destruct (same_links_lookup st3 st4 _ _ ltac:(by split) Hts3)
    as (ts4 & Hts4 & Hlinks).
  exists ts4. split; [done |].
  unfold topic_links in Hlinks. injection Hlinks as -> ->. done.
Qed.

Lemma link_loop_run publisher self inst hints calls : ∀ st nl,
  topics_allocated st → node_links st !! ni_id inst = Some nl →
  Forall (literal_call self inst st) calls →
  ∃ st' links,
    for_each calls (link_step publisher self inst hints) st = (st', Ret tt)
    ∧ remap_dicts st' = remap_dicts st
    ∧ node_links st' !! ni_id inst
      = Some (if publisher then
                mkNodeLinks (publishers nl ++ links) (subscribers nl)
                  (servers nl) (clients nl)
              else
                mkNodeLinks (publishers nl) (subscribers nl ++ links)
                  (servers nl) (clients nl))
    ∧ topics_allocated st'
    ∧ Forall2 (call_link self inst st) calls links
    ∧ Forall (linked publisher st') links
    ∧ evolves st st'.
Proof.
  induction calls as [|call calls IH]; intros st nl Hallocated Hnl Hliteral.
  - exists st, []. split; [done |]. split; [done |].
    split; [rewrite !app_nil_r; by destruct publisher, nl |].
    split; [done |]. split; [constructor |]. split; [constructor |].
    apply evolves_refl.
  - inversion Hliteral as [|? ? Hcall Hcalls]; subst.
    destruct (link_step_run publisher self inst hints call st nl
                Hallocated Hnl Hcall)
      as (st1 & link & Hrun1 & Hremaps1 & Hnl1 & Hallocated1 & Hlink
          & Hlinked).
    assert (∀ c, literal_call self inst st1 c ↔ literal_call self inst st c)
      as Hsame_literal.
    { intros c. unfold literal_call.
      by rewrite (link_rosname_remaps _ _ _ _ _ st st1). }
    assert (∀ c l, call_link self inst st1 c l ↔ call_link self inst st c l)
      as Hsame_call.
    { intros c l. unfold call_link.
      by rewrite (link_rosname_remaps _ _ _ _ _ st st1). }
    destruct (IH st1 _ Hallocated1 Hnl1) as (st' & links & Hrun & Hremaps
                                             & Hnl' & Hallocated' & Hlinks
                                             & Hall & Hev).
    { eapply Forall_impl; [exact Hcalls |]. intros c. apply Hsame_literal. }
    exists st', (link :: links). simpl.
    split; [by rewrite (run_bind_ret _ _ _ _ _ Hrun1) |].
    split; [congruence |].
    split.
    { rewrite Hnl'. destruct publisher; simpl;
        by rewrite <- app_assoc. }
    split; [done |].
    split.
    { constructor; [done |].
      eapply Forall2_impl; [exact Hlinks |]. intros c l. apply Hsame_call. }
    split.
    { constructor; [by eapply linked_evolves | done]. }
    eapply evolves_trans; [| exact Hev].
    pose proof (grows_link_step publisher self inst hints call st) as Hg.
    by rewrite Hrun1 in Hg.
Qed.
End link_steps.

(** X22.  [make_topics] makes one link per call site of the node, in
    the order of the call sites, as long as no name has a wildcard
    marker: it returns, the publishers of the node instance are what
    they were followed by one link per [advertise] call and its
    subscribers by one link per [subscribe] call; each link carries the
    type, queue size and condition list of its call site and links the
    instance to a topic of the name the call site resolves to; that
    topic is in the collection of the configuration and has the link
    among its publishers (or subscribers). *)
Theorem every_call_site_gets_one_link `{Metamodel} `{Environment}
    (self : LaunchScope) (inst : NodeInstance)
    (hints : option (list (string * Topic))) (st : State) (nl : NodeLinks) :
  node self = Some inst →
  node_links st !! ni_id inst = Some nl →
  topics_allocated st →
  Forall (literal_call self inst st)
    (advertise (ni_node inst) ++ subscribe (ni_node inst)) →
  ∃ st' pubs subs,
    make_topics self hints st = (st', Ret tt)
    ∧ node_links st' !! ni_id inst
      = Some (mkNodeLinks (publishers nl ++ pubs) (subscribers nl ++ subs)
                (servers nl) (clients nl))
    ∧ Forall2 (call_link self inst st) (advertise (ni_node inst)) pubs
    ∧ Forall2 (call_link self inst st) (subscribe (ni_node inst)) subs
    ∧ Forall (linked true st') pubs
    ∧ Forall (linked false st') subs.
Proof.
  intros Hnode Hnl Hallocated Hliteral.
  apply Forall_app in Hliteral as [Hadvertise Hsubscribe].
  destruct (link_loop_run true self inst (default [] hints)
              (advertise (ni_node inst)) st nl Hallocated Hnl Hadvertise)
    as (st1 & pubs & Hrun1 & Hremaps1 & Hnl1 & Hallocated1 & Hpubs & Hlinked1
        & Hev1).
  destruct (link_loop_run false self inst (default [] hints)
              (subscribe (ni_node inst)) st1 _ Hallocated1 Hnl1)
    as (st2 & subs & Hrun2 & Hremaps2 & Hnl2 & Hallocated2 & Hsubs & Hlinked2
        & Hev2).
  { eapply Forall_impl; [exact Hsubscribe |]. intros c.
    unfold literal_call. by rewrite (link_rosname_remaps _ _ _ _ _ st st1). }
  exists st2, pubs, subs.
  split.
  { unfold make_topics. rewrite Hnode.
    change (for_each (advertise (ni_node inst)) _)
      with (for_each (advertise (ni_node inst))
              (link_step true self inst (default [] hints))).
    rewrite (run_bind_ret _ _ _ _ _ Hrun1). exact Hrun2. }
  split; [done |]. split; [done |].
  split.
  { eapply Forall2_impl; [exact Hsubs |]. intros c l.
    unfold call_link. by rewrite (link_rosname_remaps _ _ _ _ _ st st1). }
  split; [| done].
  eapply Forall_impl; [exact Hlinked1 |]. intros l.
  by apply linked_evolves.
Qed.

(** ** Values without a declared type *)


(** ** The arguments of groups and of included files *)

Section fork_arguments.
Context `{Metamodel} `{Environment}.

Lemma fork_store_args parent st :
  arg_dicts (fork_store parent st) = arg_dicts st.
Proof. done. Qed.
End fork_arguments.

(** X24.  A group shares the dictionary of arguments of its parent: an
    [arg] declared in the scope of a group is bound in the scope around
    the group as well.  A scope forked with a dictionary of its own, as
    for an included file, keeps its arguments to itself: an [arg]
    declared in it leaves the dictionary of the parent as it was. *)
Theorem group_arguments_are_the_parents `{Metamodel} `{Environment}
    (parent : LaunchScope) (ns : option string) (launch : option LaunchFile)
    (own : option loc) (t : Tag) (sub : SubstitutionParser) (st : State)
    (bindings : gmap (option string) (option string)) (v : option string) :
  children t = [] → conditions parent = [] → is_Some (t_value t) →
  arg_dicts st !! arguments parent = Some bindings →
  resolve_strict (default ∅ (arg_dicts st !! sub_arguments sub))
    (sub_dirname sub) (t_value t) = Ret v →
  ∃ st1 fork,
    child parent ns CTrue launch own st = (st1, Ret fork)
    ∧ match own with
      | None =>
          arguments fork = arguments parent
          ∧ ∃ st2,
              _arg_tag t CTrue fork sub st1 = (st2, Ret tt)
              ∧ arg_dicts st2 !! arguments parent
                = Some (<[t_name t := v]> bindings)
      | Some args =>
          arguments fork = args
          ∧ (args ≠ arguments parent →
             arg_dicts (_arg_tag t CTrue fork sub st1).1 !! arguments parent
             = Some bindings)
      end.
Proof.
  intros Hchildren Hconds [e He] Hbindings Hv.
  rewrite child_run. do 2 eexists. split; [done |].
  assert (_arg_tag t CTrue (forked parent ns CTrue launch own st) sub
            (fork_store parent st)
          = (set_arg_dicts
               (alter (λ d, <[t_name t := v]> d)
                  (default (arguments parent) own))
               (fork_store parent st),
             Ret tt)) as Hrun.
  { unfold _arg_tag, assert_no_children. rewrite Hchildren.
    rewrite (run_bind_ret _ _ (fork_store parent st) (fork_store parent st)
               tt) by done.
    unfold forked at 1. simpl. rewrite Hconds. simpl.
    rewrite He. rewrite <- He.
    rewrite (run_bind_ret _ _ (fork_store parent st) (fork_store parent st)
               v); [done |].
    apply sub_resolve_strict_run. by rewrite fork_store_args. }
  destruct own as [args|]; simpl in *.
  - split; [done |]. intros Hne. rewrite Hrun. simpl.
    by rewrite list_lookup_alter_ne.
  - split; [done |]. eexists. split; [exact Hrun |]. simpl.
    by rewrite list_lookup_alter_eq, Hbindings.
Qed.

(** ** What stays inside a scope *)

Section keeps_dicts.
Context `{Metamodel} `{Environment}.

Abbreviation kd := (keeps dicts).

Lemma kd_yaml_param self name value conditions private :
  kd (_yaml_param self name value conditions private).
Proof. unfold _yaml_param. keeps_auto. Qed.
Hint Resolve kd_yaml_param : keeps.

Lemma kd_make_params self name ptype value c :
  kd (make_params self name ptype value c).
Proof. unfold make_params. keeps_auto. Qed.
Hint Resolve kd_make_params : keeps.

Lemma kd_make_rosparam self name ns value c :
  kd (make_rosparam self name ns value c).
Proof.
  unfold make_rosparam, import_rosparam. keeps_auto.
  apply keeps_try_except; [keeps_auto |].
  intros [] h [= <-]; keeps_auto.
Qed.
Hint Resolve kd_make_rosparam : keeps.

Lemma kd_remove_param self name ns c : kd (remove_param self name ns c).
Proof. unfold remove_param, getattr. keeps_auto. Qed.
Hint Resolve kd_remove_param : keeps.

Lemma kd_new_Topic rosname type : kd (new_Topic rosname type).
Proof. unfold new_Topic. keeps_auto. Qed.
Hint Resolve kd_new_Topic : keeps.

Lemma kd_new_Service rosname type : kd (new_Service rosname type).
Proof. unfold new_Service. keeps_auto. Qed.
Hint Resolve kd_new_Service : keeps.

Lemma kd_re_match pattern s : kd (re_match pattern s).
Proof. unfold re_match, global_name. keeps_auto. Qed.
Hint Resolve kd_re_match : keeps.

Lemma kd_lookup_scan {R} `{Resource R} matcher pattern type entries :
  (∀ p s, kd (matcher p s)) →
  ∀ candidate : option R,
    kd (lookup_scan matcher pattern type entries candidate).
Proof.
  intros Hmatcher.
  induction entries as [|[rosname resource] entries IH]; intros candidate;
    simpl; keeps_auto.
Qed.
Hint Resolve kd_lookup_scan : keeps.

Lemma kd_lookup_resource {R} `{Resource R} name type
    (collection : list R) hints :
  kd (_lookup_resource name type collection hints).
Proof. unfold _lookup_resource, lookup_with. keeps_auto. Qed.
Hint Resolve kd_lookup_resource : keeps.

Lemma kd_make_topic_link self inst name ns pns type queue conditions hints :
  kd (_make_topic_link self inst name ns pns type queue conditions hints).
Proof. unfold _make_topic_link. keeps_auto. Qed.
Hint Resolve kd_make_topic_link : keeps.

Lemma kd_make_service_link self inst name ns pns type conditions hints :
  kd (_make_service_link self inst name ns pns type conditions hints).
Proof. unfold _make_service_link. keeps_auto. Qed.
Hint Resolve kd_make_service_link : keeps.

Lemma kd_update_conditions_loop get set links :
  kd get → (∀ c, kd (set c)) → kd (update_conditions_loop get set links).
Proof.
  intros Hget Hset.
  induction links as [|[node_conditions link_conditions] links IH]; simpl;
    keeps_auto.
Qed.
Hint Resolve kd_update_conditions_loop : keeps.

Lemma kd_update_topic_conditions topic : kd (_update_topic_conditions topic).
Proof.
  unfold _update_topic_conditions, topic_state, modify_topic.
  keeps_auto; apply kd_update_conditions_loop; intros; keeps_auto.
Qed.
Hint Resolve kd_update_topic_conditions : keeps.

Lemma kd_update_service_conditions service :
  kd (_update_service_conditions service).
Proof.
  unfold _update_service_conditions, service_state, modify_service.
  keeps_auto; apply kd_update_conditions_loop; intros; keeps_auto.
Qed.
Hint Resolve kd_update_service_conditions : keeps.

Lemma kd_make_topics self hints : kd (make_topics self hints).
Proof.
  unfold make_topics, modify_node_links, modify_topic. keeps_auto.
Qed.
Hint Resolve kd_make_topics : keeps.

Lemma kd_make_services self hints : kd (make_services self hints).
Proof.
  unfold make_services, modify_node_links, modify_service. keeps_auto.
Qed.
Hint Resolve kd_make_services : keeps.

Lemma kd_sub_resolve sub e : kd (sub_resolve sub e).
Proof. unfold sub_resolve. keeps_auto. Qed.
Hint Resolve kd_sub_resolve : keeps.

Lemma kd_sub_resolve_strict sub e : kd (sub_resolve_strict sub e).
Proof. unfold sub_resolve_strict. keeps_auto. Qed.
Hint Resolve kd_sub_resolve_strict : keeps.

Lemma kd_condition c sub : kd (_condition c sub).
Proof. unfold _condition, global_name. keeps_auto. Qed.
Hint Resolve kd_condition : keeps.

Lemma kd_get_node pkg exe args : kd (_get_node pkg exe args).
Proof. unfold _get_node. keeps_auto. Qed.
Hint Resolve kd_get_node : keeps.

Lemma kd_comm_hint_rosname name pns scope :
  kd (comm_hint_rosname name pns scope).
Proof. unfold comm_hint_rosname. keeps_auto. Qed.
Hint Resolve kd_comm_hint_rosname : keeps.

Lemma kd_topic_hints entries pns scope :
  ∀ topics, kd (topic_hints entries pns scope topics).
Proof.
  induction entries as [|[name type] entries IH]; intros topics; simpl;
    keeps_auto.
Qed.
Hint Resolve kd_topic_hints : keeps.

Lemma kd_service_hints entries pns scope :
  ∀ services, kd (service_hints entries pns scope services).
Proof.
  induction entries as [|[name type] entries IH]; intros services; simpl;
    keeps_auto.
Qed.
Hint Resolve kd_service_hints : keeps.

Lemma kd_make_comm_hints hints scope : kd (_make_comm_hints hints scope).
Proof. unfold _make_comm_hints. keeps_auto. Qed.
Hint Resolve kd_make_comm_hints : keeps.

Lemma kd_param_tag t c scope sub : kd (_param_tag t c scope sub).
Proof.
  unfold _param_tag, assert_no_children. keeps_auto.
  apply keeps_try_except; [keeps_auto |].
  intros [] h [= <-]; keeps_auto.
Qed.

Lemma kd_rosparam_tag t c scope sub : kd (_rosparam_tag t c scope sub).
Proof. unfold _rosparam_tag, assert_no_children. keeps_auto. Qed.

Lemma kd_getattr attrs attr : kd (getattr attrs attr).
Proof. unfold getattr. keeps_auto. Qed.

Lemma kd_append_error msg : kd (append_error msg).
Proof. unfold append_error. keeps_auto. Qed.

(** What follows the walk of the children in [_node_tag]. *)
Lemma kd_node_links new_scope :
  kd (let hints := hints_get (private_ns new_scope) in
      '(topics, services) ← _make_comm_hints hints new_scope;
      make_topics new_scope (Some topics) ;;
      make_services new_scope (Some services) ;;
      getattr ConfigurationBuilder_attributes "_make_missing_links").
Proof.
  cbv zeta. apply keeps_bind; [apply kd_make_comm_hints |].
  intros [topics services].
  apply keeps_bind; [apply kd_make_topics | intros _].
  apply keeps_bind; [apply kd_make_services | intros _].
  apply kd_getattr.
Qed.
End keeps_dicts.

Section confined.
Context `{Metamodel} `{Environment}.

Lemma others_kept_refl a r st : others_kept a r st st.
Proof. by split. Qed.

Lemma others_kept_trans a r st1 st2 st3 :
  others_kept a r st1 st2 → others_kept a r st2 st3 → others_kept a r st1 st3.
Proof. intros [] []. split; [lia | lia | auto | auto]. Qed.

(** A dictionary that is made later is none of those that were there. *)
Lemma others_kept_step a r a' r' st st1 st2 :
  others_kept a r st st1 → others_kept a' r' st1 st2 →
  a' = a ∨ length (arg_dicts st) ≤ a' →
  r' = r ∨ length (remap_dicts st) ≤ r' →
  others_kept a r st st2.
Proof.
  intros [] [] Ha Hr. split; [lia | lia | |].
  - intros l d Hl Hd. apply ok_args1; [| by apply ok_args0].
    destruct Ha as [-> | Ha]; [done |].
    apply lookup_lt_Some in Hd. lia.
  - intros l d Hl Hd. apply ok_remaps1; [| by apply ok_remaps0].
    destruct Hr as [-> | Hr]; [done |].
    apply lookup_lt_Some in Hd. lia.
Qed.

Lemma confined_of_keeps {A} a r (m : M A) : keeps dicts m → confined a r m.
Proof.
  intros Hkeeps st. specialize (Hkeeps st). unfold dicts in Hkeeps.
  injection Hkeeps as Hargs Hremaps. split; rewrite ?Hargs, ?Hremaps; done.
Qed.

Lemma confined_bind {A B} a r (m : M A) (k : A → M B) :
  confined a r m → (∀ x, confined a r (k x)) → confined a r (m ≫= k).
Proof.
  intros Hm Hk st. rewrite run_bind. specialize (Hm st).
  destruct (m st) as [st' [x|e]]; simpl in *; [|done].
  eapply others_kept_trans; [done | apply Hk].
Qed.

Lemma confined_bind_dep {A B} a r (m : M A) (k : A → M B) :
  confined a r m →
  (∀ st st1 x,
     m st = (st1, Ret x) →
     ∃ a' r',
       (a' = a ∨ length (arg_dicts st) ≤ a')
       ∧ (r' = r ∨ length (remap_dicts st) ≤ r')
       ∧ confined a' r' (k x)) →
  confined a r (m ≫= k).
Proof.
  intros Hm Hk st. rewrite run_bind. specialize (Hm st).
  destruct (m st) as [st' [x|e]] eqn:Hrun; simpl in *; [|done].
  destruct (Hk st st' x Hrun) as (a' & r' & Ha & Hr & Hconfined).
  eapply others_kept_step; [done | apply Hconfined | done | done].
Qed.

Lemma confined_try_except {A} a r (body : M A) handler :
  confined a r body → (∀ e h, handler e = Some h → confined a r h) →
  confined a r (try_except body handler).
Proof.
  intros Hbody Hhandler st. unfold try_except. specialize (Hbody st).
  destruct (body st) as [st' [x|e]]; simpl in *; [done |].
  destruct (handler e) as [h|] eqn:He; [|done].
  eapply others_kept_trans; [done | by apply (Hhandler e h He)].
Qed.

Lemma confined_for_each {A} a r (xs : list A) body :
  (∀ x, confined a r (body x)) → confined a r (for_each xs body).
Proof.
  intros Hbody. induction xs as [|x xs IH].
  - intros st. apply others_kept_refl.
  - simpl. by apply confined_bind.
Qed.

Lemma confined_child a r self ns c launch args :
  confined a r (child self ns c launch args).
Proof.
  intros st. rewrite child_run. unfold fork_store. split; simpl; try done.
  - rewrite length_app. lia.
  - intros l d _ Hd. rewrite lookup_app_l; [done | by eapply lookup_lt_Some].
Qed.

Lemma confined_new_arg_dict a r d : confined a r (new_arg_dict d).
Proof.
  intros st. split; simpl; try done.
  - rewrite length_app. lia.
  - intros l d' _ Hd. rewrite lookup_app_l; [done | by eapply lookup_lt_Some].
Qed.

Lemma confined_remap r self source target :
  confined r (remaps self) (remap self source target).
Proof.
  intros st. rewrite remap_run. split; simpl; try done.
  - by rewrite length_alter.
  - intros l d Hl Hd. by rewrite list_lookup_alter_ne.
Qed.

Lemma confined_arg_setitem a r k v : confined a r (arg_setitem a k v).
Proof.
  intros st. split; simpl; try done.
  - by rewrite length_alter.
  - intros l d Hl Hd. by rewrite list_lookup_alter_ne.
Qed.

Lemma fold_param_lists_args {A}
    (F : A → list (list Param) → list (list Param)) (xs : list A) : ∀ st,
  arg_dicts (fold_left (λ st x, set_param_lists (F x) st) xs st)
  = arg_dicts st.
Proof. induction xs as [|x xs IH]; intros st; simpl; [done | by rewrite IH]. Qed.

(** The scope of a node has the arguments of the scope around it and
    a remap table of its own, made for it. *)
Lemma make_node_dicts self template name ns args c st :
  ∃ st' new,
    make_node self template name ns args c st = (st', Ret new)
    ∧ arguments new = arguments self
    ∧ remaps new = length (remap_dicts st)
    ∧ arg_dicts st' = arg_dicts st
    ∧ remap_dicts st'
      = remap_dicts st ++ [default ∅ (remap_dicts st !! remaps self)].
Proof.
  unfold make_node, LaunchScope_init. unfold_M. simpl.
  run_for_each.
  do 2 eexists. split; [done |]. simpl.
  split; [done |]. split; [done |].
  by rewrite fold_param_lists_args, fold_param_lists_remaps.
Qed.

Lemma confined_make_node a r self template name ns args c :
  confined a r (make_node self template name ns args c).
Proof.
  intros st.
  destruct (make_node_dicts self template name ns args c st)
    as (st' & new & -> & _ & _ & Hargs & Hremaps).
  simpl. split; rewrite ?Hargs, ?Hremaps; try done.
  - rewrite length_app. lia.
  - intros l d _ Hd. rewrite lookup_app_l; [done | by eapply lookup_lt_Some].
Qed.

Section handlers.
Variable analyse : list Tag → LaunchScope → SubstitutionParser → M unit.
Hypothesis analyse_confined :
  ∀ tags scope sub, confined (arguments scope) (remaps scope)
                      (analyse tags scope sub).

(** The handlers of the tags that make a scope write to no remap
    table that was there. *)
Lemma confined_group_tag r t c scope sub :
  confined (arguments scope) r (_group_tag analyse t c scope sub).
Proof.
  unfold _group_tag.
  apply confined_bind;
    [apply confined_of_keeps, kd_sub_resolve_strict | intros ns].
  apply confined_bind_dep; [apply confined_child |].
  intros st st1 new Hchild. rewrite child_run in Hchild.
  injection Hchild as <- <-.
  exists (arguments scope), (length (remap_dicts st)).
  split; [by left |]. split; [right; lia |].
  apply (analyse_confined (children t) (forked scope ns c None None st) sub).
Qed.

Lemma confined_node_tag r t c scope sub :
  confined (arguments scope) r (_node_tag analyse t c scope sub).
Proof.
  unfold _node_tag.
  do 3 (apply confined_bind;
          [apply confined_of_keeps, kd_sub_resolve_strict | intros ?]).
  destruct (_ || _); [apply confined_of_keeps; keeps_auto |].
  apply confined_bind; [apply confined_of_keeps, kd_get_node | intros node].
  do 2 (apply confined_bind;
          [apply confined_of_keeps, kd_sub_resolve_strict | intros ?]).
  apply confined_bind_dep; [apply confined_make_node |].
  intros st st1 new Hmade.
  destruct (make_node_dicts scope node x2 x3 x1 c st)
    as (st' & new' & Hrun & Hargs & Hremaps & _).
  rewrite Hrun in Hmade. injection Hmade as <- <-.
  exists (arguments scope), (length (remap_dicts st)).
  split; [by left |]. split; [right; lia |].
  apply confined_bind.
  - rewrite <- Hargs, <- Hremaps. apply analyse_confined.
  - intros _. apply confined_of_keeps. apply kd_node_links.
Qed.

Lemma confined_include_tag a r t c scope sub :
  confined a r (_include_tag analyse t c scope sub).
Proof.
  unfold _include_tag.
  do 3 (apply confined_bind;
          [apply confined_of_keeps, kd_sub_resolve_strict | intros ?]).
  destruct (sources_get_file x) as [launch|].
  2:{ apply confined_of_keeps. unfold concat_str. keeps_auto. }
  destruct (lf_tree launch) as [tree|];
    [| apply confined_of_keeps; keeps_auto].
  apply confined_bind_dep.
  { destruct (PyStr.truthy_opt x1).
    - apply confined_bind;
        [apply confined_of_keeps; unfold read_args; keeps_auto | intros ?].
      apply confined_new_arg_dict.
    - apply confined_new_arg_dict. }
  intros st st1 args Hargs.
  assert (args = length (arg_dicts st)) as ->.
  { destruct (PyStr.truthy_opt x1); unfold read_args, new_arg_dict in Hargs;
      unfold_M; by injection Hargs as _ <-. }
  exists (length (arg_dicts st)), r.
  split; [right; lia |]. split; [by left |].
  apply confined_bind_dep; [apply confined_child |].
  intros st2 st3 new Hchild. rewrite child_run in Hchild.
  injection Hchild as <- <-.
  exists (length (arg_dicts st)), (length (remap_dicts st2)).
  split; [by left |]. split; [right; lia |].
  apply confined_bind.
  - apply (analyse_confined (children t)
             (forked scope x0 c (Some launch) (Some (length (arg_dicts st)))
                st2) sub).
  - intros _.
    apply (analyse_confined tree
             (forked scope x0 c (Some launch) (Some (length (arg_dicts st)))
                st2)).
Qed.

Lemma confined_remap_tag t c scope sub :
  confined (arguments scope) (remaps scope) (_remap_tag t c scope sub).
Proof.
  unfold _remap_tag.
  apply confined_bind;
    [apply confined_of_keeps; unfold assert_no_children; keeps_auto |].
  intros _.
  destruct (negb (is_True c)); [apply confined_of_keeps, kd_append_error |].
  do 2 (apply confined_bind;
          [apply confined_of_keeps, kd_sub_resolve_strict | intros ?]).
  apply confined_remap.
Qed.

Lemma confined_arg_tag t c scope sub :
  confined (arguments scope) (remaps scope) (_arg_tag t c scope sub).
Proof.
  unfold _arg_tag.
  apply confined_bind;
    [apply confined_of_keeps; unfold assert_no_children; keeps_auto |].
  intros _.
  destruct (_ || _); [apply confined_of_keeps; keeps_auto |].
  destruct (t_value t).
  - apply confined_bind;
      [apply confined_of_keeps, kd_sub_resolve_strict | intros ?].
    apply confined_arg_setitem.
  - apply confined_bind;
      [apply confined_of_keeps, kd_sub_resolve_strict | intros ?].
    apply confined_bind;
      [apply confined_of_keeps; unfold read_args; keeps_auto | intros args].
    destruct (args !! t_name t) as [[bound|]|];
      [apply confined_of_keeps; keeps_auto | |];
      apply confined_arg_setitem.
Qed.

Lemma confined_dispatch t c scope sub :
  confined (arguments scope) (remaps scope)
    (dispatch analyse t c scope sub).
Proof.
  unfold dispatch.
  apply confined_bind; [apply confined_of_keeps, kd_getattr | intros _].
  repeat match goal with
         | |- confined _ _ (if ?b then _ else _) => destruct b
         end.
  - apply confined_node_tag.
  - apply confined_include_tag.
  - apply confined_remap_tag.
  - apply confined_of_keeps, kd_param_tag.
  - apply confined_of_keeps, kd_rosparam_tag.
  - apply confined_group_tag.
  - apply confined_arg_tag.
  - apply confined_of_keeps. unfold _env_tag, assert_no_children. keeps_auto.
  - apply confined_of_keeps. unfold _machine_tag, assert_no_children.
    keeps_auto.
  - apply confined_of_keeps. unfold _test_tag. keeps_auto.
  - apply confined_of_keeps. keeps_auto.
Qed.
End handlers.

Lemma confined_analyse_tree fuel :
  ∀ tags scope sub, confined (arguments scope) (remaps scope)
                      (_analyse_tree fuel tags scope sub).
Proof.
  induction fuel as [|fuel IH]; intros tags scope sub; simpl.
  - apply confined_of_keeps. keeps_auto.
  - unfold analyse_children. apply confined_for_each. intros t.
    unfold analyse_tag.
    destruct (String.eqb (tag t) "error");
      [apply confined_of_keeps, kd_append_error |].
    apply confined_try_except.
    + apply confined_bind; [apply confined_of_keeps, kd_condition |].
      intros condition.
      destruct (is_False condition); [apply confined_of_keeps; keeps_auto |].
      by apply confined_dispatch.
    + intros [] h [= <-]; apply confined_of_keeps, kd_append_error.
Qed.
End confined.

Section scope_isolation.
Context `{Metamodel} `{Environment}.

Lemma confined_tag a r fuel t scope sub :
  (∀ c, confined a r (dispatch (_analyse_tree fuel) t c scope sub)) →
  confined a r (_analyse_tree (S fuel) [t] scope sub).
Proof.
  intros Hdispatch. simpl. unfold analyse_children. simpl.
  apply confined_bind; [| intros; apply confined_of_keeps; keeps_auto].
  unfold analyse_tag.
  destruct (String.eqb (tag t) "error");
    [apply confined_of_keeps, kd_append_error |].
  apply confined_try_except.
  - apply confined_bind; [apply confined_of_keeps, kd_condition |].
    intros condition.
    destruct (is_False condition); [apply confined_of_keeps; keeps_auto |].
    apply Hdispatch.
  - intros [] h [= <-]; apply confined_of_keeps, kd_append_error.
Qed.

Lemma confined_scoping_dispatch r fuel t c scope sub :
  tag t = "group" ∨ tag t = "include" ∨ tag t = "node" →
  confined (arguments scope) r (dispatch (_analyse_tree fuel) t c scope sub).
Proof.
  intros Htag. unfold dispatch.
  apply confined_bind; [apply confined_of_keeps, kd_getattr | intros _].
  destruct Htag as [-> | [-> | ->]].
  - change ("_" +:+ "group" +:+ "_tag") with "_group_tag". simpl.
    apply confined_group_tag, confined_analyse_tree.
  - change ("_" +:+ "include" +:+ "_tag") with "_include_tag". simpl.
    apply confined_include_tag, confined_analyse_tree.
  - change ("_" +:+ "node" +:+ "_tag") with "_node_tag". simpl.
    apply confined_node_tag, confined_analyse_tree.
Qed.

Lemma confined_include_dispatch a r fuel t c scope sub :
  tag t = "include" →
  confined a r (dispatch (_analyse_tree fuel) t c scope sub).
Proof.
  intros Htag. unfold dispatch. rewrite Htag.
  apply confined_bind; [apply confined_of_keeps, kd_getattr | intros _].
  change ("_" +:+ "include" +:+ "_tag") with "_include_tag". simpl.
  apply confined_include_tag, confined_analyse_tree.
Qed.
End scope_isolation.

(** X25.  Remappings stay inside the scope that declares them.  A walk
    of tags in a scope leaves every remap table other than the one of
    the scope as it was; and a [<group>], [<include>] or [<node>]
    element, whatever it contains and whether or not it fails, leaves
    the remap table of the scope around it as it was, too: the
    remappings under it go to a copy made for it. *)
Theorem remaps_stay_in_their_scope `{Metamodel} `{Environment}
    (fuel : nat) (scope : LaunchScope) (sub : SubstitutionParser)
    (st : State) (l : loc) (table : gmap string string) :
  remap_dicts st !! l = Some table →
  (∀ tags,
     l ≠ remaps scope →
     remap_dicts (_analyse_tree fuel tags scope sub st).1 !! l = Some table)
  ∧ (∀ t,
       tag t = "group" ∨ tag t = "include" ∨ tag t = "node" →
       remap_dicts (_analyse_tree (S fuel) [t] scope sub st).1 !! l
       = Some table).
Proof.
  intros Htable. split.
  - intros tags Hl.
    by apply (ok_remaps _ _ _ _
                (confined_analyse_tree fuel tags scope sub st)).
  - intros t Htag.
    assert (confined (arguments scope) (S l)
              (_analyse_tree (S fuel) [t] scope sub)) as Hconfined.
    { apply confined_tag. intros c. by apply confined_scoping_dispatch. }
    apply (ok_remaps _ _ _ _ (Hconfined st)); [lia | done].
Qed.

(** X26.  Arguments stay inside the file that declares them.  A walk of
    tags in a scope leaves every argument dictionary other than the one
    of the scope as it was; and an [<include>] element, whatever its
    [<arg>] children and the included file declare, leaves the arguments
    of the including scope as they were, too: they go to a dictionary
    made for the included file. *)
Theorem arguments_stay_in_their_file `{Metamodel} `{Environment}
    (fuel : nat) (scope : LaunchScope) (sub : SubstitutionParser)
    (st : State) (l : loc)
    (bindings : gmap (option string) (option string)) :
  arg_dicts st !! l = Some bindings →
  (∀ tags,
     l ≠ arguments scope →
     arg_dicts (_analyse_tree fuel tags scope sub st).1 !! l = Some bindings)
  ∧ (∀ t,
       tag t = "include" →
       arg_dicts (_analyse_tree (S fuel) [t] scope sub st).1 !! l
       = Some bindings).
Proof.
  intros Hbindings. split.
  - intros tags Hl.
    by apply (ok_args _ _ _ _
                (confined_analyse_tree fuel tags scope sub st)).
  - intros t Htag.
    assert (confined (S l) (remaps scope)
              (_analyse_tree (S fuel) [t] scope sub)) as Hconfined.
    { apply confined_tag. intros c. by apply confined_include_dispatch. }
    apply (ok_args _ _ _ _ (Hconfined st)); [lia | done].
Qed.

(** ** Worked examples *)

Section worked_examples.
Local Existing Instance Sample.metamodel.
Local Existing Instance Sample.environment.

(** A group under an unresolved condition around a node: the build
    raises [NameError] and no node instance is made. *)
Lemma unresolved_group_aborts_build :
  let group :=
    Sample.with_condition
      (Sample.group_tag None [Sample.node_tag "pkg" "talker" "t1" []])
      (true, Some "$(arg use_sim)") in
  let result :=
    add_launch 10 (Sample.launch_file_of [group]) Sample.initial_state in
  result.2 = Raise (NameError "config")
  ∧ cfg_nodes result.1 = ∅ ∧ errors result.1 = [].
Proof. vm_compute. done. Qed.

(** Given the condition, the scopes do carry it to the node instance. *)
Lemma unresolved_condition_reaches_node_instance :
  let result :=
    (root ← Sample.root_scope;
     group ← child root None Sample.unresolved None None;
     make_node group Sample.talker (Some "t1") None None CTrue)
      Sample.initial_state in
  (λ inst, ni_conditions inst) <$> cfg_nodes result.1 !! "/t1"
  = Some [Sample.unresolved].
Proof. vm_compute. done. Qed.

(** A parameter declared and deleted in the same file: the delete is
    logged as an error and the parameter is committed. *)
Lemma delete_in_same_file_is_an_error :
  let result :=
    add_launch 10
      (Sample.launch_file_of
         [Sample.param_tag "/p" "1"; Sample.rosparam_delete_tag "/p"])
      Sample.initial_state in
  result.2 = Ret None
  ∧ errors result.1 = ["missing parameter: /p"]
  ∧ p_value <$> cfg_parameters result.1 !! "/p" = Some (YLeaf (SInt 1)).
Proof. vm_compute. done. Qed.

(** A node tag that resolves: [_node_tag] ends by calling a method the
    builder does not have. *)
Lemma node_tag_ends_in_AttributeError :
  (add_launch 10
     (Sample.launch_file_of [Sample.node_tag "pkg" "talker" "t1" []])
     Sample.initial_state).2
  = Raise (AttributeError "_make_missing_links").
Proof. vm_compute. done. Qed.

Lemma unresolved_condition_raises_NameError_witness :
  let group :=
    Sample.with_condition
      (Sample.group_tag None [Sample.node_tag "pkg" "talker" "t1" []])
      (true, Some "$(arg use_sim)") in
  let start := launch_start (Sample.launch_file_of [group]) Sample.initial_state in
  _analyse_tree 2 [group] start.1.2 start.2 start.1.1
  = (start.1.1, Raise (NameError "config")).
Proof.
  intros group start.
  apply (unresolved_condition_raises_NameError 1 group [] start.1.2 start.2
           start.1.1); reflexivity.
Defined.

Lemma dispatch_loop_continues_witness :
  let pre := [Sample.param_tag "/p" "1"] in
  let bad := Sample.rosparam_delete_tag "/p" in
  let post := [Sample.error_tag "bad"; Sample.param_tag "/q" "2"] in
  let start :=
    launch_start (Sample.launch_file_of (pre ++ bad :: post))
      Sample.initial_state in
  let st1 := (_analyse_tree 2 pre start.1.2 start.2 start.1.1).1 in
  _analyse_tree 2 (pre ++ bad :: post) start.1.2 start.2 start.1.1
  = _analyse_tree 2 post start.1.2 start.2
      (set_errors (λ es, es ++ ["missing parameter: /p"]) st1).
Proof.
  intros pre bad post start st1.
  refine (proj1 (proj2 (dispatch_loop_continues 1 pre bad post start.1.2
                          start.2 start.1.1 st1 _))
            _ st1 "missing parameter: /p" (or_introl _));
    vm_compute; reflexivity.
Defined.

Lemma fork_remaps_are_independent_witness :
  let start := launch_start (Sample.launch_file_of []) Sample.initial_state in
  let root := start.1.2 in
  let st := start.1.1 in
  remap_dicts st !! remaps root = Some ∅
  ∧ ∃ st1 fork st2,
      child root (Some "robot") CTrue None None st = (st1, Ret fork)
      ∧ remap fork (Some "chatter") (Some "talk") st1 = (st2, Ret tt)
      ∧ remaps fork = length (remap_dicts st)
      ∧ ∀ l, l < length (remap_dicts st) →
          remap_dicts st2 !! l = remap_dicts st !! l.
Proof.
  intros start root st. split; [reflexivity |].
  destruct (fork_remaps_are_independent root (Some "robot") CTrue None None
              st (Some "chatter") (Some "talk") ∅ eq_refl)
    as (st1 & fork & st2 & Hchild & Hremap & Hfresh & _ & _ & Hold & _).
  exists st1, fork, st2. auto.
Defined.

Lemma yaml_flattening_emits_leaves_witness :
  let start := launch_start (Sample.launch_file_of []) Sample.initial_state in
  let value :=
    YDict [(SStr "arm", YDict [(SStr "joints", YLeaf (SInt 6));
                               (SStr "name", YLeaf (SStr "left"))]);
           (SStr "rate", YLeaf (SInt 10))] in
  let numbered :=
    YDict [(SStr "rate", YLeaf (SInt 10));
           (SStr "gains", YDict [(SInt 1, YLeaf (SInt 2))])] in
  parameters start.1.2 ≠ _params start.1.2
  ∧ string_keys value = true
  ∧ plain_name "/robot" = true ∧ plain_keys value = true
  ∧ _unfold "/robot" value = Ret (flatten "" "/robot" value)
  ∧ length (flatten "" "/robot" value) = length (leaf_paths value)
  ∧ map (λ item : unfold_item, (item.1.1, item.1.2))
      (flatten "" "/robot" value)
    ≡ₚ map (λ ps, (joined_name "/robot" ps.1, ps.2)) (leaf_paths value)
  ∧ string_keys numbered = false
  ∧ _yaml_param start.1.2 "/robot" numbered [] false start.1.1
    = (start.1.1, Raise (AttributeError "startswith")).
Proof.
  intros start value numbered.
  assert (parameters start.1.2 ≠ _params start.1.2) as Hne
    by (vm_compute; lia).
  destruct (proj1 (yaml_flattening_emits_leaves start.1.2 "/robot" value []
                     false start.1.1 [] [] Hne eq_refl eq_refl) eq_refl)
    as (Hunfold & Hlength & _ & Hjoined & _).
  destruct (proj2 (yaml_flattening_emits_leaves start.1.2 "/robot" numbered
                     [] false start.1.1 [] [] Hne eq_refl eq_refl) eq_refl)
    as (_ & Hraises).
  repeat split; auto.
Defined.

Lemma guarded_delete_is_noop_witness :
  let start := launch_start (Sample.launch_file_of []) Sample.initial_state in
  let param :=
    mkParam (Sample.new_rosname (Some "/p") None None None) (Some "int")
      (YLeaf (SInt 1)) false [] in
  let st := commit [param] start.1.1 in
  is_True Sample.unresolved = false
  ∧ cfg_parameters st !! deleted_name start.1.2 (Some "/p") None = Some param
  ∧ remove_param start.1.2 (Some "/p") None Sample.unresolved st = (st, Ret tt).
Proof.
  intros start param st.
  assert (cfg_parameters st !! deleted_name start.1.2 (Some "/p") None
          = Some param) as Hparam by (vm_compute; reflexivity).
  split; [reflexivity |]. split; [exact Hparam |].
  apply (proj2 (guarded_delete_is_noop start.1.2 (Some "/p") None
                  Sample.unresolved st (or_introl eq_refl)) param Hparam).
Defined.


Lemma delete_of_uncommitted_parameter_raises_witness :
  let tags := [Sample.param_tag "/p" "1"; Sample.rosparam_delete_tag "/p"] in
  let start := launch_start (Sample.launch_file_of tags) Sample.initial_state in
  let st1 :=
    (_analyse_tree 2 [Sample.param_tag "/p" "1"] start.1.2 start.2
       start.1.1).1 in
  cfg_parameters start.1.1 !! deleted_name start.1.2 (Some "/p") None = None
  ∧ remove_param start.1.2 (Some "/p") None Sample.unresolved st1
    = (st1, Raise (ConfigurationError "missing parameter: /p")).
Proof.
  intros tags start st1. split; [reflexivity |].
  rewrite (proj1 (proj2 (proj2
             (delete_of_uncommitted_parameter_raises start.1.2 (Some "/p")
                None Sample.unresolved start.1.1 eq_refl)))
             2 [Sample.param_tag "/p" "1"] start.1.2 start.2 st1 (Ret tt));
    [reflexivity |].
  vm_compute. reflexivity.
Defined.

Lemma staged_parameters_rehomed_by_every_node_witness :
  let start := launch_start (Sample.launch_file_of []) Sample.initial_state in
  let root := start.1.2 in
  let st := (make_params root (Some "~gain") None (Some "2") CTrue start.1.1).1 in
  let staged :=
    [mkParam (Sample.new_rosname (Some "~gain") (Some "/") (Some "/") None)
       (Some "int") (YLeaf (SInt 2)) false []] in
  parameters root ≠ _params root
  ∧ param_lists st !! _params root = Some staged
  ∧ param_lists st !! parameters root = Some []
  ∧ ∃ st1 scope1 st2 scope2,
      make_node root Sample.talker (Some "t1") None None CTrue st
      = (st1, Ret scope1)
      ∧ make_node root Sample.listener (Some "l1") None None CTrue st1
        = (st2, Ret scope2)
      ∧ param_lists st2 !! _params root = Some staged
      ∧ (λ params, map (λ p, full (p_rosname p)) params)
          <$> param_lists st2 !! parameters root
        = Some ["/t1/gain"; "/l1/gain"].
Proof.
  intros start root st staged.
  assert (parameters root ≠ _params root) as Hne by (vm_compute; lia).
  split; [done |]. split; [reflexivity |]. split; [reflexivity |].
  destruct (staged_parameters_rehomed_by_every_node root st staged []
              Sample.talker Sample.listener Sample.talker
              (Some "t1") None None (Some "l1") None None (Some "t3") None None
              CTrue CTrue CTrue None CTrue None None Hne eq_refl eq_refl)
    as (st1 & scope1 & inst1 & st2 & scope2 & inst2 & st3 & fork & st4
        & scope3 & inst3 & Hrun1 & Hnode1 & _ & _ & _ & Hrun2 & Hnode2
        & Hstaged & Hcommitted & _).
  exists st1, scope1, st2, scope2.
  split; [done |]. split; [done |]. split; [done |].
  rewrite Hcommitted. clear Hcommitted Hstaged.
  vm_compute in Hrun1. injection Hrun1 as Hst1 Hscope1. subst st1 scope1.
  vm_compute in Hnode1. injection Hnode1 as Hinst1. subst inst1.
  vm_compute in Hrun2. injection Hrun2 as Hst2 Hscope2. subst st2 scope2.
  vm_compute in Hnode2. injection Hnode2 as Hinst2. subst inst2.
  reflexivity.
Defined.

End worked_examples.

Section further_examples.
Local Existing Instance Sample.metamodel.
Local Existing Instance Sample.environment.

Lemma ns_join_keeps_name_and_root_witness :
  _ns_join "gain" "/robot" = "/robot/gain"
  ∧ rooted (_ns_join "gain" "/robot") = true
  ∧ ("" = "" ∧ "" = "").
Proof.
  destruct (ns_join_keeps_name_and_root "gain" "/robot") as (_ & Hrooted & _).
  destruct (ns_join_keeps_name_and_root "" "") as (_ & _ & Hempty).
  split; [reflexivity |].
  split; [apply Hrooted; right; reflexivity |].
  apply Hempty. reflexivity.
Defined.

Lemma yaml_param_never_stages_witness :
  let value :=
    YDict [(SStr "p", YLeaf (SInt 1));
           (SStr "pid", YDict [(SStr "i", YLeaf (SInt 2))])] in
  (∃ st',
     _yaml_param Cases.root "~gains" value [] true Cases.store = (st', Ret tt)
     ∧ param_lists st' !! _params Cases.root = Some []
     ∧ length <$> param_lists st' !! parameters Cases.root = Some 2)
  ∧ _yaml_param Cases.root "~gains" Cases.numbered [] true Cases.store
    = (Cases.store, Raise (AttributeError "startswith")).
Proof.
  intros value.
  assert (parameters Cases.root ≠ _params Cases.root) as Hne
    by (vm_compute; lia).
  split.
  - destruct (yaml_param_never_stages Cases.root "~gains" value [] true
                Cases.store [] [] Hne eq_refl eq_refl)
      as (st' & o & Hrun & Hstaged & Hrest).
    assert (string_keys value = true) as Hkeys by reflexivity.
    rewrite Hkeys in Hrest. destruct Hrest as (-> & Hcommitted & _).
    exists st'. split; [exact Hrun |]. split; [exact Hstaged |].
    rewrite Hcommitted. reflexivity.
  - destruct (yaml_param_never_stages Cases.root "~gains" Cases.numbered []
                true Cases.store [] [] Hne eq_refl eq_refl)
      as (st' & o & Hrun & _ & Hrest).
    assert (string_keys Cases.numbered = false) as Hkeys by reflexivity.
    rewrite Hkeys in Hrest. destruct Hrest as (-> & ->). exact Hrun.
Defined.

Lemma only_the_top_level_file_is_recorded_witness :
  let launch := Sample.launch_file_of [Sample.param_tag "/p" "1"] in
  cfg_roslaunch (add_launch 2 launch Sample.initial_state).1 = [launch].
Proof.
  intros launch.
  apply (proj1 (only_the_top_level_file_is_recorded 2 launch
                  Sample.initial_state eq_refl)).
Defined.

Lemma parameters_commit_last_wins_witness :
  let launch :=
    Sample.launch_file_of
      [Sample.param_tag "/p" "1"; Sample.param_tag "/p" "2"] in
  let st' := (add_launch 2 launch Sample.initial_state).1 in
  p_value <$> cfg_parameters st' !! "/p" = Some (YLeaf (SInt 2)).
Proof.
  intros launch st'.
  assert (add_launch 2 launch Sample.initial_state = (st', Ret None)) as Hrun
    by (vm_compute; reflexivity).
  pose proof (parameters_commit_last_wins 2 launch Sample.initial_state st'
                (Ret None) Hrun) as Hlast.
  cbv zeta in Hlast. rewrite (Hlast "/p"). vm_compute. reflexivity.
Defined.


Lemma declared_parameters_are_kept_witness :
  let st :=
    (make_params Cases.root (Some "/p") None (Some "1") CTrue Cases.store).1 in
  let declared := default [] (param_lists st !! parameters Cases.root) in
  length declared = 1
  ∧ ∃ more,
      param_lists
        (_analyse_tree 2 [Sample.param_tag "/q" "2"] Cases.root Cases.parser
           st).1 !! parameters Cases.root
      = Some (declared ++ more).
Proof.
  intros st declared. split; [reflexivity |].
  apply (proj1 (declared_parameters_are_kept 2 st (parameters Cases.root)
                  declared eq_refl)).
Defined.

Lemma links_are_never_removed_witness :
  let tags := [Sample.node_tag "pkg" "talker" "t2" []] in
  let st' :=
    (_analyse_tree 3 tags Cases.root Cases.parser Sample.chatter_store).1 in
  let links := default (mkNodeLinks [] [] [] [])
                 (node_links Sample.chatter_store !! 0) in
  length (publishers links) = 1
  ∧ ∃ links',
      node_links st' !! 0 = Some links' ∧ node_links_grow links links'.
Proof.
  intros tags st' links. split; [reflexivity |].
  pose proof (links_are_never_removed 3 tags Cases.root Cases.parser
                Sample.chatter_store) as Hkept.
  cbv zeta in Hkept. destruct Hkept as (Hnodes & _ & _).
  apply (Hnodes 0 links). vm_compute. reflexivity.
Defined.

Lemma excluded_tag_has_no_effect_witness :
  let excluded :=
    Sample.with_condition (Sample.plain_tag "no_such_tag")
      (true, Some "false") in
  let rest := [Sample.param_tag "/q" "2"] in
  _analyse_tree 2 (excluded :: rest) Cases.root Cases.parser Cases.store
  = _analyse_tree 2 rest Cases.root Cases.parser Cases.store.
Proof.
  intros excluded rest.
  apply (excluded_tag_has_no_effect 1 excluded rest Cases.root Cases.parser
           Cases.store false); [reflexivity | reflexivity | discriminate].
Defined.

Lemma unknown_tag_ends_the_walk_witness :
  _analyse_tree 2 [Sample.plain_tag "rosparams"; Sample.param_tag "/q" "2"]
    Cases.root Cases.parser Cases.store
  = (Cases.store, Raise (AttributeError "_rosparams_tag")).
Proof.
  apply (unknown_tag_ends_the_walk 1 (Sample.plain_tag "rosparams")
           [Sample.param_tag "/q" "2"] Cases.root Cases.parser Cases.store);
    [reflexivity | by apply (bool_decide_unpack _) | reflexivity].
Defined.

Lemma node_tag_never_returns_witness :
  let t := Sample.plain_tag "node" in
  let result := _analyse_tree 2 [t] Cases.root Cases.parser Cases.store in
  result.2 = Ret tt
  ∧ ∃ st2 value,
      (tag_body 1 Cases.root Cases.parser t Cases.store
       = (st2, Raise (ConfigurationError value))
       ∨ tag_body 1 Cases.root Cases.parser t Cases.store
         = (st2, Raise (SubstitutionError value)))
      ∧ result.1 = set_errors (λ es, es ++ [value]) st2
      ∧ ∃ more, errors result.1 = errors Cases.store ++ more ++ [value].
Proof.
  intros t result. split; [reflexivity |].
  assert (_analyse_tree 2 [t] Cases.root Cases.parser Cases.store
          = (result.1, Ret tt)) as Hrun by (vm_compute; reflexivity).
  destruct (proj2 (node_tag_never_returns 1 t Cases.root Cases.parser
                     Cases.store result.1) eq_refl Hrun)
    as [(st1 & Hexcluded & _) | Hlogged]; [| exact Hlogged].
  vm_compute in Hexcluded. discriminate Hexcluded.
Defined.

Lemma param_without_value_ends_the_walk_witness :
  _analyse_tree 2 [Sample.plain_tag "param"; Sample.param_tag "/q" "2"]
    Cases.root Cases.parser Cases.store
  = (Cases.store, Raise (UnboundLocalError "value")).
Proof.
  apply (param_without_value_ends_the_walk 1 (Sample.plain_tag "param")
           [Sample.param_tag "/q" "2"] Cases.root Cases.parser Cases.store
           None None); reflexivity.
Defined.

Lemma unconvertible_param_is_logged_witness :
  let t := Cases.typed_param_tag "/p" "int" "many" in
  let y := Cases.typed_param_tag "/p" "yaml" "a: b: c" in
  let rest := [Sample.param_tag "/q" "2"] in
  _analyse_tree 2 (t :: rest) Cases.root Cases.parser Cases.store
  = _analyse_tree 2 rest Cases.root Cases.parser
      (set_errors (λ es, es ++ [Sample.int_error "many"]) Cases.store)
  ∧ _analyse_tree (H0 := Cases.strict_environment) 2 (y :: rest) Cases.root
      Cases.parser Cases.store
    = (Cases.store, Raise (MarkedYAMLError false Cases.scanner_error)).
Proof.
  intros t y rest. split.
  - refine (proj1 (unconvertible_param_is_logged 1 t rest Cases.root
                     Cases.parser Cases.store (Some "/p") (Some "int") "many"
                     _ _ _ _ _ _) (Sample.int_error "many") _);
      vm_compute; reflexivity.
  - refine (proj2 (unconvertible_param_is_logged
                     (H0 := Cases.strict_environment) 1 y rest Cases.root
                     Cases.parser Cases.store (Some "/p") (Some "yaml")
                     "a: b: c" _ _ _ _ _ _) Cases.scanner_error _ _);
      vm_compute; reflexivity.
Defined.

Lemma arg_value_replaces_default_does_not_witness :
  let given := Cases.arg_value_tag "rate" "10" in
  let fallback := Cases.arg_default_tag "rate" "5" in
  ∃ st1 st2,
    _arg_tag given CTrue Cases.root Cases.parser Cases.store = (st1, Ret tt)
    ∧ arg_dicts st1 !! arguments Cases.root
      = Some {[Some "rate" := Some "10"]}
    ∧ _arg_tag fallback CTrue Cases.root Cases.parser st1 = (st2, Ret tt)
    ∧ arg_dicts st2 !! arguments Cases.root
      = Some {[Some "rate" := Some "10"]}
    ∧ _arg_tag given Sample.unresolved Cases.root Cases.parser Cases.store
      = (Cases.store,
         Raise (ConfigurationError "cannot resolve conditional arg")).
Proof.
  intros given fallback.
  destruct (arg_value_replaces_default_does_not given CTrue Cases.root
              Cases.parser Cases.store ∅ (Some "10") eq_refl eq_refl)
    as (Hvalue & _ & _).
  destruct (Hvalue eq_refl eq_refl (ex_intro _ "10" eq_refl) eq_refl)
    as (st1 & Hrun1 & Hbound1).
  assert (arg_dicts st1 !! arguments Cases.root
          = Some {[Some "rate" := Some "10"]}) as Hbound1'.
  { rewrite Hbound1. reflexivity. }
  assert (sub_arguments Cases.parser = arguments Cases.root) as Hshared
    by reflexivity.
  destruct (arg_value_replaces_default_does_not fallback CTrue Cases.root
              Cases.parser st1 {[Some "rate" := Some "10"]} (Some "5")
              eq_refl Hbound1')
    as (_ & Hdefault & _).
  destruct (Hdefault eq_refl eq_refl eq_refl) as (st2 & Hrun2 & Hbound2).
  { rewrite Hshared, Hbound1'. reflexivity. }
  destruct (arg_value_replaces_default_does_not given Sample.unresolved
              Cases.root Cases.parser Cases.store ∅ (Some "10") eq_refl
              eq_refl)
    as (_ & _ & Hconditional).
  exists st1, st2.
  split; [exact Hrun1 |]. split; [exact Hbound1' |].
  split; [exact Hrun2 |].
  split; [rewrite Hbound2; reflexivity |].
  apply Hconditional. right. discriminate.
Defined.

Lemma node_remaps_are_its_own_witness :
  ∃ st1 scope inst st2,
    make_node Cases.root Sample.talker (Some "t1") None None CTrue Cases.store
    = (st1, Ret scope)
    ∧ node scope = Some inst
    ∧ remap scope (Some "chatter") (Some "talk") st1 = (st2, Ret tt)
    ∧ remap_dicts st2 !! ni_remaps inst = Some {["/chatter" := "/talk"]}
    ∧ remap_dicts st2 !! remaps Cases.root = Some ∅.
Proof.
  destruct (node_remaps_are_its_own Cases.root Sample.talker (Some "t1") None
              None CTrue Cases.store (Some "chatter") (Some "talk") ∅ eq_refl)
    as (st1 & scope & inst & st2 & Hmade & Hnode & _ & _ & _ & Hremap
        & Hown & Hparent & _).
  exists st1, scope, inst, st2.
  split; [exact Hmade |]. split; [exact Hnode |]. split; [exact Hremap |].
  split; [| exact Hparent].
  rewrite Hown. vm_compute in Hmade. injection Hmade as _ <-.
  reflexivity.
Defined.

Lemma delete_never_takes_effect_witness :
  let t := Sample.rosparam_delete_tag "/p" in
  remove_param Cases.root (Some "/p") None CTrue Cases.committed_store
  = (Cases.committed_store, Raise (AttributeError "resources"))
  ∧ _analyse_tree 2 [t; Sample.param_tag "/q" "2"] Cases.root Cases.parser
      Cases.committed_store
    = (Cases.committed_store, Raise (AttributeError "resources")).
Proof.
  intros t.
  assert (cfg_parameters Cases.committed_store
            !! deleted_name Cases.root (Some "/p") None
          = Some Cases.committed_param) as Hparam by (vm_compute; reflexivity).
  destruct (proj2 (delete_never_takes_effect Cases.root (Some "/p") None CTrue
                     Cases.committed_store)
              Cases.committed_param Hparam eq_refl eq_refl)
    as [Hremove Hwalk].
  split; [exact Hremove |].
  apply (Hwalk 1 t [Sample.param_tag "/q" "2"] Cases.parser None);
    reflexivity.
Defined.

Lemma rosparam_load_is_atomic_witness :
  let result :=
    make_rosparam Cases.root (Some "rate") (Some "/robot") "10" CTrue
      Cases.store in
  let numbered :=
    make_rosparam (H0 := Cases.loading_environment true) Cases.root None
      (Some "/robot") "1: 2" CTrue Cases.store in
  let unavailable :=
    make_rosparam (H0 := Cases.loading_environment false) Cases.root
      (Some "rate") (Some "/robot") "10" CTrue Cases.store in
  result.2 = Ret tt
  ∧ (∃ v,
       yaml_load "10" = Ret v
       ∧ result.1
         = set_param_lists
             (alter
                (λ old,
                   old ++
                   map (item_param Cases.root [])
                     (flatten "" "/robot/rate" v))
                (parameters Cases.root)) Cases.store)
  ∧ numbered.2 = Raise (AttributeError "startswith")
  ∧ numbered.1 = Cases.store
  ∧ unavailable.2 = Raise (ImportError "rosparam")
  ∧ unavailable.1 = Cases.store.
Proof.
  intros result numbered unavailable. split; [reflexivity |].
  assert (make_rosparam Cases.root (Some "rate") (Some "/robot") "10" CTrue
            Cases.store = (result.1, Ret tt)) as Hrun
    by (vm_compute; reflexivity).
  destruct (rosparam_load_is_atomic Cases.root (Some "rate") (Some "/robot")
              "10" CTrue Cases.store result.1 (Ret tt) Hrun)
    as (_ & v & Hload & _ & _ & Hstore).
  split; [exists v; split; [exact Hload | exact Hstore] |].
  split; [reflexivity |].
  split.
  { apply (proj1 (rosparam_load_is_atomic
                    (H0 := Cases.loading_environment true) Cases.root None
                    (Some "/robot") "1: 2" CTrue Cases.store numbered.1
                    (Raise (AttributeError "startswith")) eq_refl)). }
  split; [reflexivity |].
  apply (proj1 (rosparam_load_is_atomic
                  (H0 := Cases.loading_environment false) Cases.root
                  (Some "rate") (Some "/robot") "10" CTrue Cases.store
                  unavailable.1 (Raise (ImportError "rosparam")) eq_refl)).
Defined.

Lemma nodelet_load_names_its_node_witness :
  _get_node "pkg" "talker" None Cases.store
  = (Cases.store, Ret Sample.talker)
  ∧ _get_node "nodelet" "nodelet" (Some "load pkg/listener manager")
      Cases.store
    = (Cases.store, Ret Sample.listener)
  ∧ _get_node "nodelet" "nodelet" (Some "standalone pkg/listener")
      Cases.store
    = (Cases.store,
       Raise (ConfigurationError "nodelet load: too few arguments"))
  ∧ _get_node "nodelet" "nodelet" None Cases.store
    = (Cases.store, Raise (ConfigurationError "nodelet without args"))
  ∧ _get_node "nodelet" "nodelet" (Some "manager") Cases.store
    = (Cases.store, Raise (ConfigurationError "cannot find package: nodelet")).
Proof.
  destruct (nodelet_load_names_its_node "pkg" "talker" None Cases.store)
    as (Hplain & _).
  destruct (nodelet_load_names_its_node "nodelet" "nodelet" None Cases.store)
    as (_ & Hnone & Hload & Hfew & Hword).
  split; [| split; [| split; [| split]]].
  - rewrite Hplain by discriminate. reflexivity.
  - assert ("load pkg/listener manager"
            = "load" +:+ " " +:+ ("pkg" +:+ "/" +:+ "listener") +:+ " "
              +:+ "manager" +:+ "") as -> by reflexivity.
    rewrite (Hload "load" "pkg" "listener" "manager" "" (or_introl eq_refl)
               eq_refl eq_refl eq_refl eq_refl).
    reflexivity.
  - apply (proj2 (Hfew "standalone" "pkg/listener" (or_intror eq_refl)
                    eq_refl)).
  - apply Hnone. reflexivity.
  - rewrite (Hword "manager" eq_refl) by discriminate.
    reflexivity.
Defined.

Lemma hint_name_is_split_at_last_slash_witness :
  let scope :=
    mkLaunchScope (Sample.launch_file_of []) "/robot"
      (Some Cases.talker_instance) 1 0 0 [] 2 in
  (∃ rosname,
     comm_hint_rosname "chatter" "/t1" scope Cases.talker_store
     = (Cases.talker_store, Ret rosname)
     ∧ full rosname = "/chatter")
  ∧ (∃ rosname,
       comm_hint_rosname "/chatter" "/t1" scope Cases.talker_store
       = (Cases.talker_store, Ret rosname)
       ∧ full rosname = "/robot/chatter")
  ∧ comm_hint_rosname "chatter" "/" Cases.root Cases.store
    = (Cases.store, Raise (AttributeError "remaps")).
Proof.
  intros scope.
  destruct (hint_name_is_split_at_last_slash "/t1" scope Cases.talker_store)
    as (Hbare & Hsplit & _).
  destruct (hint_name_is_split_at_last_slash "/" Cases.root Cases.store)
    as (_ & _ & Hnone).
  split; [| split].
  - eexists. split.
    + apply (Hbare Cases.talker_instance "chatter" eq_refl eq_refl).
    + reflexivity.
  - eexists. split.
    + apply (proj1 (Hsplit Cases.talker_instance "" "chatter" eq_refl
                      eq_refl)).
    + reflexivity.
  - apply Hnone. reflexivity.
Defined.

Lemma hints_object_takes_no_hints_witness :
  let made := λ _ : string, mret tt in
  ConfigurationHints_init made
    (mkHints [("chatter", "std_msgs/String")] [] [] []) Cases.store
  = (Cases.store, Raise (NameError "pns"))
  ∧ ∃ object,
      ConfigurationHints_init made (mkHints [] [] [] []) Cases.store
      = (Cases.store, Ret object)
      ∧ ConfigurationHints_topics object = [].
Proof.
  intros made. split.
  - apply (proj1 (hints_object_takes_no_hints made
                    (mkHints [("chatter", "std_msgs/String")] [] [] [])
                    Cases.store)).
    reflexivity.
  - destruct (proj2 (hints_object_takes_no_hints made (mkHints [] [] [] [])
                       Cases.store) eq_refl)
      as (object & Hrun & Htopics & _).
    exists object. split; [exact Hrun | exact Htopics].
Defined.

Lemma every_call_site_gets_one_link_witness :
  ∃ st' link,
    make_topics Cases.talker_scope None Cases.talker_store = (st', Ret tt)
    ∧ publishers <$> node_links st' !! 0 = Some [link]
    ∧ l_conditions link = 0
    ∧ full (t_rosname (l_topic link)) = "/chatter"
    ∧ linked true st' link.
Proof.
  assert (Forall
            (literal_call Cases.talker_scope Cases.talker_instance
               Cases.talker_store)
            (advertise (ni_node Cases.talker_instance)
             ++ subscribe (ni_node Cases.talker_instance))) as Hliteral
    by (repeat constructor).
  assert (topics_allocated Cases.talker_store) as Hallocated by constructor.
  destruct (every_call_site_gets_one_link Cases.talker_scope
              Cases.talker_instance None Cases.talker_store
              (mkNodeLinks [] [] [] []) eq_refl eq_refl Hallocated Hliteral)
    as (st' & pubs & subs & Hrun & Hlinks & Hpubs & _ & Hlinked & _).
  inversion Hpubs as [|call link calls links Hlink Hrest]; subst.
  inversion Hrest; subst.
  destruct Hlink as (_ & _ & _ & Hconditions & Hname).
  inversion Hlinked as [|? ? Hfirst _]; subst.
  exists st', link.
  split; [exact Hrun |].
  split; [change (ni_id Cases.talker_instance) with 0 in Hlinks;
          by rewrite Hlinks |].
  split; [exact Hconditions |].
  split; [exact Hname |].
  exact Hfirst.
Defined.

Lemma group_arguments_are_the_parents_witness :
  let t := Cases.arg_value_tag "rate" "10" in
  ∃ st1 fork st2,
    child Cases.root (Some "robot") CTrue None None Cases.store
    = (st1, Ret fork)
    ∧ _arg_tag t CTrue fork Cases.parser st1 = (st2, Ret tt)
    ∧ arg_dicts st2 !! arguments Cases.root
      = Some {[Some "rate" := Some "10"]}.
Proof.
  intros t.
  assert (resolve_strict
            (default ∅ (arg_dicts Cases.store !! sub_arguments Cases.parser))
            (sub_dirname Cases.parser) (t_value t) = Ret (Some "10")) as Hv
    by (vm_compute; reflexivity).
  destruct (group_arguments_are_the_parents Cases.root (Some "robot") None
              None t Cases.parser Cases.store ∅ (Some "10") eq_refl eq_refl
              (ex_intro _ "10" eq_refl) eq_refl Hv)
    as (st1 & fork & Hchild & _ & st2 & Hrun & Hbound).
  exists st1, fork, st2.
  split; [exact Hchild |]. split; [exact Hrun |].
  rewrite Hbound. reflexivity.
Defined.
Lemma remaps_stay_in_their_scope_witness :
  let group :=
    Sample.group_tag (Some "robot") [Sample.remap_tag "/scan" "/laser"] in
  let st' := (_analyse_tree 3 [group] Cases.root Cases.parser Cases.store).1 in
  remap_dicts Cases.store = [∅]
  ∧ remap_dicts st' !! remaps Cases.root = Some ∅
  ∧ (remap_dicts st' !! 1) ≫= (.!! "/scan") = Some "/laser".
Proof.
  intros group st'. split; [reflexivity |].
  split; [| vm_compute; reflexivity].
  apply (proj2 (remaps_stay_in_their_scope 2 Cases.root Cases.parser
                  Cases.store (remaps Cases.root) ∅ eq_refl) group).
  left. reflexivity.
Defined.

Lemma arguments_stay_in_their_file_witness :
  let include :=
    Cases.include_tag "inner.launch" [Cases.arg_value_tag "rate" "10"] in
  let st' :=
    (_analyse_tree (H0 := Cases.including_environment) 3 [include] Cases.root
       Cases.parser Cases.store).1 in
  arg_dicts Cases.store = [∅]
  ∧ arg_dicts st' !! arguments Cases.root = Some ∅
  ∧ (arg_dicts st' !! 1) ≫= (.!! Some "rate") = Some (Some "10")
  ∧ remap_dicts st' !! remaps Cases.root = Some ∅.
Proof.
  intros include st'. split; [reflexivity |].
  split.
  { apply (proj2 (arguments_stay_in_their_file
                    (H0 := Cases.including_environment) 2 Cases.root
                    Cases.parser Cases.store (arguments Cases.root) ∅ eq_refl)
             include).
    reflexivity. }
  split; vm_compute; reflexivity.
Defined.
End further_examples.
